(** * Chunked file upload: the client session and the staged-write server

  A shallow embedding of
    - [packages/filesystem/src/node/node-file-upload-server.ts]
      (the registry of staged uploads and the staged writer), and
    - [packages/filesystem/src/browser/file-upload-service.ts]
      (indexing, the chunked reader and the upload session; the file comes
      in two variants, one over the request/response server and one over a
      web socket).

  Conventions.  JavaScript numbers holding byte counts are modelled by [Z]
  (they stay far below 2^53).  Promises are modelled by their outcome; the
  points where the event loop may run other callbacks (every [await]) take
  the callbacks that run there from an explicit schedule.  Functions of
  libraries outside the repository ([path], [fs-extra], [crypto],
  [base64-js], [URI]) are parameters collected in type classes. *)

From Stdlib Require Import ZArith Lia.
From Stdlib.Strings Require Import Byte Ascii.
From stdpp Require Import base option list gmap strings.
From stdpp Require Import pretty.

Set Default Proof Using "Type".

(** ** Errors and results *)

(** What is thrown or what rejects a promise: the cancellation error made by
    [cancelled()], or any other error, identified by its message. *)
Inductive Error :=
| Cancelled
| Failure (message : string).

#[global] Instance Error_eq_dec : EqDecision Error.
Proof. solve_decision. Defined.

(** The settled state of a promise, or of a call that may throw. *)
Inductive Result (A : Type) :=
| Ok (a : A)
| Err (e : Error).
Arguments Ok {A} a.
Arguments Err {A} e.

(** ** The file system surface used by the server

    What a call of [fs-extra] does to the files when nothing in the
    environment makes it fail; [move] and [unlink] then still fail when the
    file is missing.  That a call fails for another reason (the destination
    is a directory, a parent is a regular file, no permission, no space
    left) is the choice of the environment in [Interleaved.perform]. *)

Module Fs.

(** The disk: the regular files that exist, by path. *)
Abbreviation Disk := (gmap string (list byte)).

(** [fs.outputFile(p, data)]: creates or truncates [p]. *)
Definition outputFile (p : string) (data : list byte) (d : Disk) : Disk :=
  <[p := data]> d.

(** [fs.appendFile(p, data)]: appends, creating [p] when it is missing. *)
Definition appendFile (p : string) (data : list byte) (d : Disk) : Disk :=
  <[p := default [] (d !! p) ++ data]> d.

(** [fs.move(src, dst, { overwrite: true })]. *)
Definition move (src dst : string) (d : Disk) : Result Disk :=
  match d !! src with
  | Some data => Ok (<[dst := data]> (delete src d))
  | None => Err (Failure "ENOENT")
  end.

(** [fs.unlink(p)]. *)
Definition unlink (p : string) (d : Disk) : Result Disk :=
  match d !! p with
  | Some _ => Ok (delete p d)
  | None => Err (Failure "ENOENT")
  end.

End Fs.

(** ** node-file-upload-server.ts *)

(** What the server takes from Node and from [@theia/core]. *)
Class NodeHost := {
  (** [FileUri.fsPath] *)
  FileUri_fsPath : string → string;
  (** [path.dirname] *)
  path_dirname : string → string;
  (** [path.join] of two segments *)
  path_join : string → string → string;
  (** the bytes of a ['base64'] encoded string *)
  base64_bytes : string → list byte;
}.

(** The server where every request is handled to its end before the next
    one arrives and no call of [fs-extra] fails but for a missing file.
    [Interleaved] below is the server with its handlers suspended at their
    [await]s and with calls that fail. *)

Module Server.
Section WithHost.
Context `{NodeHost}.

(** The two bodies the [dispose] member of a [NodeFileUpload] can have: the
    method of the class, and the arrow function [rename] stores over it. *)
Inductive DisposeBody :=
| UnlinkUploadPath
| PromiseResolve.

Record NodeFileUpload := {
  id : string;
  fsPath : string;
  uploadPath : string;
  dispose : DisposeBody;
}.

(** The constructor; [hex] is [crypto.randomBytes(16).toString('hex')]. *)
Definition newNodeFileUpload (fsPath : string) (hex : string) : NodeFileUpload :=
  let id := "upload_" +:+ hex in
  {| id := id;
     fsPath := fsPath;
     uploadPath := path_join (path_dirname fsPath) id;
     dispose := UnlinkUploadPath |}.

(** [create] and [append] of [NodeFileUpload], when the write succeeds. *)
Definition create (u : NodeFileUpload) (content : string) (d : Fs.Disk) : Fs.Disk :=
  Fs.outputFile (uploadPath u) (base64_bytes content) d.

Definition append_upload (u : NodeFileUpload) (content : string) (d : Fs.Disk) : Fs.Disk :=
  Fs.appendFile (uploadPath u) (base64_bytes content) d.

(** [rename]: the move may throw; only after it has succeeded is [dispose]
    replaced. *)
Definition rename (u : NodeFileUpload) (d : Fs.Disk) : Result (NodeFileUpload * Fs.Disk) :=
  match Fs.move (uploadPath u) (fsPath u) d with
  | Ok d' =>
      Ok ({| id := id u; fsPath := fsPath u; uploadPath := uploadPath u;
             dispose := PromiseResolve |}, d')
  | Err e => Err e
  end.

(** Calling [upload.dispose()]: the class method unlinks and swallows the
    error of the unlink; the replacement does nothing. *)
Definition call_dispose (u : NodeFileUpload) (d : Fs.Disk) : Fs.Disk :=
  match dispose u with
  | UnlinkUploadPath =>
      match Fs.unlink (uploadPath u) d with
      | Ok d' => d'
      | Err _ => d
      end
  | PromiseResolve => d
  end.

(** The server object together with the disk it writes to.  [uploads] is
    the [Map] of the class; its values are the upload objects, which are
    reachable from nowhere else once [open] has returned, apart from the
    [toDispose] collection that only [dispose()] of the whole server reads
    (that method is not part of this model). *)
Record State := {
  uploads : gmap string NodeFileUpload;
  disk : Fs.Disk;
}.

Definition init (d : Fs.Disk) : State := {| uploads := ∅; disk := d |}.

Definition close (i : string) (s : State) : State * Result unit :=
  match uploads s !! i with
  | Some upload => ({| uploads := uploads s; disk := call_dispose upload (disk s) |}, Ok tt)
  | None => (s, Ok tt)
  end.

(** The tail shared by [open] and [append]:
    [if (done) { await upload.rename(); await this.close(upload.id); }].
    [upload] is the object stored in the map under its id, so the
    assignment made by [rename] is seen through the map. *)
Definition finish (upload : NodeFileUpload) (done : bool) (s : State) : State * Result unit :=
  if done then
    match rename upload (disk s) with
    | Ok (upload', d') =>
        close (id upload)
          {| uploads := <[id upload := upload']> (uploads s); disk := d' |}
    | Err e => (s, Err e)
    end
  else (s, Ok tt).

Definition open (uri content : string) (done : bool) (hex : string) (s : State)
  : State * Result string :=
  let upload := newNodeFileUpload (FileUri_fsPath uri) hex in
  let s1 := {| uploads := <[id upload := upload]> (uploads s); disk := disk s |} in
  let s2 := {| uploads := uploads s1; disk := create upload content (disk s1) |} in
  match finish upload done s2 with
  | (s3, Ok _) => (s3, Ok (id upload))
  | (s3, Err e) => (s3, Err e)
  end.

Definition append (i content : string) (done : bool) (s : State) : State * Result unit :=
  match uploads s !! i with
  | None => (s, Err (Failure ("upload '" +:+ i +:+ "' does not exist")))
  | Some upload =>
      let s1 := {| uploads := uploads s; disk := append_upload upload content (disk s) |} in
      finish upload done s1
  end.

(** A request to the server. *)
Inductive Call :=
| Open (uri content : string) (done : bool) (hex : string)
| Append (i content : string) (done : bool)
| Close (i : string).

Definition step (c : Call) (s : State) : State :=
  match c with
  | Open uri content done hex => (open uri content done hex s).1
  | Append i content done => (append i content done s).1
  | Close i => (close i s).1
  end.

Definition run (cs : list Call) (s : State) : State := foldl (λ s c, step c s) s cs.

(** The states the server can be in: started with an empty registry on any
    disk, then any requests. *)
Definition reachable (s : State) : Prop := ∃ d cs, s = run cs (init d).

(** The upload object a request works on: the one [open] constructs, or the
    one [append] and [close] find in the map. *)
Definition uploadOf (c : Call) (s : State) : option NodeFileUpload :=
  match c with
  | Open uri _ _ hex => Some (newNodeFileUpload (FileUri_fsPath uri) hex)
  | Append i _ _ | Close i => uploads s !! i
  end.

(** The [done] flag a request carries; [close] carries none. *)
Definition doneOf (c : Call) : bool :=
  match c with
  | Open _ _ done _ | Append _ _ done => done
  | Close _ => false
  end.

(** The registry invariant: a record is stored under its own id, and its
    temporary path is the sibling of its destination named by the id. *)
Definition wellFormed (s : State) : Prop :=
  ∀ i u, uploads s !! i = Some u →
    id u = i ∧ uploadPath u = path_join (path_dirname (fsPath u)) (id u).

(** The record [rename] leaves in the registry. *)
Definition finalized (u : NodeFileUpload) : NodeFileUpload :=
  {| id := id u; fsPath := fsPath u; uploadPath := uploadPath u;
     dispose := PromiseResolve |}.

(** The answer of a request, without the id that [open] returns. *)
Definition answer (c : Call) (s : State) : Result unit :=
  match c with
  | Open uri content done hex =>
      match (open uri content done hex s).2 with
      | Ok _ => Ok tt
      | Err e => Err e
      end
  | Append i content done => (append i content done s).2
  | Close i => (close i s).2
  end.

(** The answers of the requests of [cs], made one after the other. *)
Fixpoint answers (cs : list Call) (s : State) : list (Result unit) :=
  match cs with
  | [] => []
  | c :: cs' => answer c s :: answers cs' (step c s)
  end.

(** The requests by which a client stages chunks under an id: one [append]
    for each, the last one with the done flag. *)
Fixpoint appendCalls (i : string) (chunks : list string) : list Call :=
  match chunks with
  | [] => []
  | [content] => [Append i content true]
  | content :: chunks' => Append i content false :: appendCalls i chunks'
  end.

(** The requests of a whole upload: [open] with the first chunk, [append]
    with the others, the done flag on the last request. *)
Definition uploadCalls (uri hex : string) (chunks : list string) : list Call :=
  match chunks with
  | [] => []
  | [content] => [Open uri content true hex]
  | content :: chunks' =>
      Open uri content false hex :: appendCalls ("upload_" +:+ hex) chunks'
  end.

(** The requests of an upload in progress: [open] and [append]s, none with
    the done flag. *)
Definition stagingCalls (uri hex : string) (content : string) (chunks : list string)
  : list Call :=
  Open uri content false hex :: ((λ c, Append ("upload_" +:+ hex) c false) <$> chunks).

End WithHost.
End Server.

(** ** node-file-upload-server.ts: the handlers on the event loop

    [open] and [append] are [async] functions: a handler runs until it
    awaits a call of [fs-extra], the event loop then runs whatever comes
    next (another request, or the continuation of another handler whose call
    has settled), and the handler goes on when its own call settles.  The
    calls of [fs-extra] that have been started settle in any order, and each
    may fail.  A call that succeeds changes the disk at the moment it
    settles, as [Fs] and the methods of [NodeFileUpload] in [Server] say; a
    call that fails leaves the files as they were.  Between the settling of
    a call and the next [await] of the handler nothing else runs.

    [Server] above is this server when every request is handled to its end
    before the next one arrives and no call fails (lemma
    [handled_step]). *)

Module Interleaved.
Section WithHost.
Context `{NodeHost}.
Import Server.

(** The [await]s of the handlers, and the one promise nobody awaits. *)
Inductive Point :=
| AtCreate    (** [open], at [await upload.create(content)] *)
| AtAppend    (** [append], at [await upload.append(content)] *)
| AtRename    (** [open] or [append], at [await upload.rename()] *)
| Unawaited.  (** [fs.unlink(...)] in [dispose], with its no-op [catch] *)

#[global] Instance Point_eq_dec : EqDecision Point.
Proof. solve_decision. Defined.

(** A call of [fs-extra] that has been started and has not settled: the
    request whose handler started it (its number in the order of arrival,
    and the request itself), the upload object it was started on (its index
    in the order of construction), and the point it was started at. *)
Record Task := {
  request : nat;
  call : Call;
  upload : nat;
  point : Point;
}.

(** What the log of the server records: a call of [fs-extra] has settled
    (with the error it failed with, if it failed), a request has been
    answered ([open] returns the id, [append] and [close] return nothing). *)
Inductive Action :=
| Settled (t : Task) (failure : option Error)
| Answered (n : nat) (r : Result (option string)).

(** The server, the disk, and the event loop.  [objects] are the
    [NodeFileUpload] objects constructed so far; the [Map] of the class holds
    references to them, and so do the suspended handlers. *)
Record State := {
  objects : list NodeFileUpload;
  uploads : gmap string nat;
  disk : Fs.Disk;
  pending : list Task;
  requests : list Call;
  log : list Action;
}.

Definition init (d : Fs.Disk) : State :=
  {| objects := []; uploads := ∅; disk := d; pending := []; requests := []; log := [] |}.

Definition start (t : Task) (s : State) : State :=
  {| objects := objects s; uploads := uploads s; disk := disk s;
     pending := pending s ++ [t]; requests := requests s; log := log s |}.

Definition record (a : Action) (s : State) : State :=
  {| objects := objects s; uploads := uploads s; disk := disk s;
     pending := pending s; requests := requests s; log := log s ++ [a] |}.

Definition contentOf (c : Call) : string :=
  match c with
  | Open _ content _ _ | Append _ content _ => content
  | Close _ => ""
  end.

(** What the handler of [c] returns when it works on [u]. *)
Definition returned (c : Call) (u : NodeFileUpload) : option string :=
  match c with
  | Open _ _ _ _ => Some (id u)
  | Append _ _ _ | Close _ => None
  end.

(** [upload.dispose()], called by the handler of request [n]: the method of
    the class starts the unlink and returns; the arrow function stored by
    [rename] does nothing. *)
Definition call_dispose (n : nat) (c : Call) (r : nat) (s : State) : State :=
  match objects s !! r with
  | Some u =>
      match dispose u with
      | UnlinkUploadPath => start {| request := n; call := c; upload := r; point := Unawaited |} s
      | PromiseResolve => s
      end
  | None => s
  end.

(** The body of [close]: it has no [await]. *)
Definition close (n : nat) (c : Call) (i : string) (s : State) : State :=
  match uploads s !! i with
  | Some r => call_dispose n c r s
  | None => s
  end.

(** A request arrives: its handler runs up to its first [await], or to its
    end. *)
Definition receive (c : Call) (s : State) : State :=
  let n := length (requests s) in
  let s0 := {| objects := objects s; uploads := uploads s; disk := disk s;
               pending := pending s; requests := requests s ++ [c]; log := log s |} in
  match c with
  | Open uri content done hex =>
      let u := newNodeFileUpload (FileUri_fsPath uri) hex in
      let r := length (objects s0) in
      start {| request := n; call := c; upload := r; point := AtCreate |}
        {| objects := objects s0 ++ [u]; uploads := <[id u := r]> (uploads s0);
           disk := disk s0; pending := pending s0; requests := requests s0; log := log s0 |}
  | Append i content done =>
      match uploads s0 !! i with
      | None => record (Answered n (Err (Failure ("upload '" +:+ i +:+ "' does not exist")))) s0
      | Some r => start {| request := n; call := c; upload := r; point := AtAppend |} s0
      end
  | Close i => record (Answered n (Ok None)) (close n c i s0)
  end.

(** The call of [fs-extra] of a task, when it settles: it fails with the
    error the environment gives it, or it does what [Fs] says. *)
Definition perform (t : Task) (u : NodeFileUpload) (failure : option Error) (d : Fs.Disk)
  : Result Fs.Disk :=
  match failure with
  | Some e => Err e
  | None =>
      match point t with
      | AtCreate => Ok (create u (contentOf (call t)) d)
      | AtAppend => Ok (append_upload u (contentOf (call t)) d)
      | AtRename => Fs.move (uploadPath u) (fsPath u) d
      | Unawaited => Fs.unlink (uploadPath u) d
      end
  end.

Definition failureOf {A} (r : Result A) : option Error :=
  match r with
  | Ok _ => None
  | Err e => Some e
  end.

(** The handler of a task goes on after its call has settled with [result]:
    - after [create] or [append], [open] and [append] throw the error of the
      call, or go on to [if (done) { await upload.rename(); ... }] or return;
    - after the move, [rename] throws its error, or replaces [dispose] on its
      object; then [this.close(upload.id)] looks the id up in the map, and the
      handler returns;
    - the error of the unlink is swallowed. *)
Definition resume (t : Task) (u : NodeFileUpload) (result : Result Fs.Disk) (s : State)
  : State :=
  match result with
  | Err e =>
      match point t with
      | Unawaited => s
      | _ => record (Answered (request t) (Err e)) s
      end
  | Ok d =>
      let s1 := {| objects := objects s; uploads := uploads s; disk := d;
                   pending := pending s; requests := requests s; log := log s |} in
      match point t with
      | AtCreate | AtAppend =>
          if doneOf (call t) then
            start {| request := request t; call := call t; upload := upload t;
                     point := AtRename |} s1
          else record (Answered (request t) (Ok (returned (call t) u))) s1
      | AtRename =>
          let s2 := {| objects := <[upload t := finalized u]> (objects s1);
                       uploads := uploads s1; disk := disk s1; pending := pending s1;
                       requests := requests s1; log := log s1 |} in
          record (Answered (request t) (Ok (returned (call t) u)))
            (close (request t) (call t) (id u) s2)
      | Unawaited => s1
      end
  end.

(** The [k]-th of the calls that are pending settles. *)
Definition settle (k : nat) (failure : option Error) (s : State) : State :=
  match pending s !! k with
  | None => s
  | Some t =>
      match objects s !! upload t with
      | None => s
      | Some u =>
          let result := perform t u failure (disk s) in
          resume t u result
            {| objects := objects s; uploads := uploads s; disk := disk s;
               pending := delete k (pending s); requests := requests s;
               log := log s ++ [Settled t (failureOf result)] |}
      end
  end.

(** What the event loop runs next. *)
Inductive Event :=
| Request (c : Call)
| Settle (k : nat) (failure : option Error).

Definition step (ev : Event) (s : State) : State :=
  match ev with
  | Request c => receive c s
  | Settle k failure => settle k failure s
  end.

Definition run (evs : list Event) (s : State) : State := foldl (λ s ev, step ev s) s evs.

(** The states the server can be in: started with an empty registry and no
    call pending on any disk, then any events. *)
Definition reachable (s : State) : Prop := ∃ d evs, s = run evs (init d).

(** The answers given so far, in the order they were given. *)
Definition answers (s : State) : list (nat * Result (option string)) :=
  omap (λ a, match a with Answered n r => Some (n, r) | Settled _ _ => None end) (log s).

(** The id a request names: the one [open] draws, or the one [append] and
    [close] are given. *)
Definition idOf (c : Call) : string :=
  match c with
  | Open _ _ _ hex => "upload_" +:+ hex
  | Append i _ _ | Close i => i
  end.

(** An [open] among the requests [cs] has drawn the id [i]. *)
Definition created (i : string) (cs : list Call) : Prop :=
  ∃ uri content done hex, Open uri content done hex ∈ cs ∧ i = "upload_" +:+ hex.

(** The bytes of the chunks sent under the id [i], in the order the requests
    arrived. *)
Definition chunkOf (i : string) (c : Call) : option (list byte) :=
  match c with
  | Open _ content _ _ | Append _ content _ =>
      if decide (idOf c = i) then Some (base64_bytes content) else None
  | Close _ => None
  end.

Definition sent (i : string) (cs : list Call) : list byte := concat (omap (chunkOf i) cs).

(** The event loop when a request is handled to its end before the next one
    arrives and no call fails: the request arrives, and the calls its handler
    makes, one after the other and two at most, settle. *)
Definition handled (c : Call) : list Event := [Request c; Settle 0 None; Settle 0 None].

Definition oneAtATime (cs : list Call) : list Event := concat (handled <$> cs).

(** An answer without the id that [open] returns. *)
Definition plain (r : Result (option string)) : Result unit :=
  match r with
  | Ok _ => Ok tt
  | Err e => Err e
  end.

(** The state of [Server] a state stands for when no call is pending. *)
Definition atomic (s : State) : Server.State :=
  {| Server.uploads := omap (λ r, objects s !! r) (uploads s); Server.disk := disk s |}.

(** The invariant of the event loop: the map holds references to objects
    stored under their own id, the temporary path of an object is the sibling
    of its destination named by its id, and every pending call was started on
    an object that exists, by a request that names the id of that object;
    the move of [rename] by a request that carries the done flag, after the
    write of its own chunk has succeeded. *)
Definition written (t : Task) (s : State) : Prop :=
  ∃ q, (q = AtCreate ∨ q = AtAppend)
    ∧ Settled {| request := request t; call := call t; upload := upload t; point := q |} None
        ∈ log s.

Definition wellFormed (s : State) : Prop :=
  (∀ i r, uploads s !! i = Some r → ∃ u, objects s !! r = Some u ∧ id u = i)
  ∧ (∀ r u, objects s !! r = Some u →
       uploadPath u = path_join (path_dirname (fsPath u)) (id u))
  ∧ (∀ k t, pending s !! k = Some t →
       (∃ u, objects s !! upload t = Some u ∧ id u = idOf (call t))
       ∧ requests s !! request t = Some (call t)
       ∧ (point t = AtRename → doneOf (call t) = true ∧ written t s)).

(** *** An upload among the others

    What it takes for the other uploads, and the order in which the calls
    settle, to leave an upload alone. *)







End WithHost.
End Interleaved.

(** ** file-upload-service.ts *)

(** What the client takes from the browser and from its libraries.  A [URI]
    is modelled by its string form, so [toString] is the identity. *)
Class BrowserHost := {
  (** [base64.fromByteArray] *)
  base64_fromByteArray : list byte → string;
  (** [URI.resolve] *)
  URI_resolve : string → string → string;
}.

(** A [File] of the browser: a name and the bytes of the blob. *)
Record File := {
  name : string;
  bytes : list byte;
}.

Definition size (f : File) : Z := Z.of_nat (length (bytes f)).

(** [Blob.slice(start, end)] of the File API: a negative argument counts from
    the end, both are clamped to the blob, and an empty span gives an empty
    blob. *)
Definition Blob_relative (sz x : Z) : Z :=
  if (x <? 0)%Z then Z.max (sz + x) 0 else Z.min x sz.

Definition Blob_slice (b : list byte) (start end_ : Z) : list byte :=
  let sz := Z.of_nat (length b) in
  let s := Blob_relative sz start in
  let e := Blob_relative sz end_ in
  let span := Z.max (e - s) 0 in
  take (Z.to_nat span) (drop (Z.to_nat s) b).

Definition maxChunkSize : Z := 64 * 1024.

Record UploadEntry := {
  file : File;
  uri : string;
}.

Record FileUploadResult := {
  uploaded : list string;
}.

(** *** The chunked reader *)

Module Reader.
Section WithHost.
Context `{BrowserHost}.

Record FileSlice := {
  content : string;
  read : Z;
}.

(** [readFileSlice] of the request/response variant.  [onerror] is the error
    the [FileReader] reports, if it does. *)
Definition readFileSlice (file : File) (read : Z) (onerror : option Error)
  : Result FileSlice :=
  if (size file =? 0)%Z && (read =? 0)%Z then
    Ok {| content := ""; read := read |}
  else
    let bytesLeft := (size file - read)%Z in
    if (bytesLeft =? 0)%Z then Err (Failure "nothing to read")
    else
      let size := Z.min maxChunkSize bytesLeft in
      let slice := Blob_slice (bytes file) read (read + size) in
      match onerror with
      | Some e => Err e
      | None => Ok {| content := base64_fromByteArray slice; read := (read + size)%Z |}
      end.

(** The reads the transfer loop of [doUpload] makes for one file when no read
    fails:
    [do { fileSlice = await readFileSlice(file, readBytes);
          readBytes = fileSlice.read; ... } while (readBytes < file.size)].
    [fuel] bounds the number of iterations; [None] is an iteration bound that
    is too small. *)
Fixpoint readSlicesFrom (fuel : nat) (file : File) (readBytes : Z)
  : option (Result (list FileSlice)) :=
  match fuel with
  | O => None
  | S fuel' =>
      match readFileSlice file readBytes None with
      | Err e => Some (Err e)
      | Ok fileSlice =>
          if (read fileSlice <? size file)%Z then
            match readSlicesFrom fuel' file (read fileSlice) with
            | Some (Ok rest) => Some (Ok (fileSlice :: rest))
            | other => other
            end
          else Some (Ok [fileSlice])
      end
  end.

(** One iteration for every started chunk, and one to spare. *)
Definition readSlices (file : File) : option (Result (list FileSlice)) :=
  readSlicesFrom (S (Z.to_nat (size file / maxChunkSize))) file 0.

(** The slices of a file, as the loop reads them. *)
Definition slices (file : File) : list FileSlice :=
  match readSlices file with
  | Some (Ok l) => l
  | _ => []
  end.

(** The slices made of consecutive pieces of a file, from offset [r] on. *)
Fixpoint slicesOf (r : Z) (pieces : list (list byte)) : list FileSlice :=
  match pieces with
  | [] => []
  | p :: pieces' =>
      let r' := (r + Z.of_nat (length p))%Z in
      {| content := base64_fromByteArray p; read := r' |}
        :: slicesOf r' pieces'
  end.

End WithHost.
End Reader.

(** [readFileSlice] of the web socket variant: no case for the empty file
    (its [doUpload] reads only when [file.size] is not zero), and the content
    is the raw buffer. *)
Module SocketReader.

Record FileSlice := {
  content : list byte;
  read : Z;
}.

Definition readFileSlice (file : File) (read : Z) (onerror : option Error)
  : Result FileSlice :=
  let bytesLeft := (size file - read)%Z in
  if (bytesLeft =? 0)%Z then Err (Failure "nothing to read")
  else
    let size := Z.min maxChunkSize bytesLeft in
    let slice := Blob_slice (bytes file) read (read + size) in
    match onerror with
    | Some e => Err e
    | None => Ok {| content := slice; read := (read + size)%Z |}
    end.

(** The reads the sending loop of the web socket [doUpload] makes for one
    file when no read fails:
    [do { fileSlice = await readFileSlice(file, readBytes);
          readBytes = fileSlice.read; ... } while (readBytes < file.size)].
    [fuel] bounds the number of iterations; [None] is an iteration bound that
    is too small. *)
Fixpoint readSlicesFrom (fuel : nat) (file : File) (readBytes : Z)
  : option (Result (list FileSlice)) :=
  match fuel with
  | O => None
  | S fuel' =>
      match readFileSlice file readBytes None with
      | Err e => Some (Err e)
      | Ok fileSlice =>
          if (read fileSlice <? size file)%Z then
            match readSlicesFrom fuel' file (read fileSlice) with
            | Some (Ok rest) => Some (Ok (fileSlice :: rest))
            | other => other
            end
          else Some (Ok [fileSlice])
      end
  end.

(** The slices the sending loop reads for a file: none for an empty file,
    which [if (file.size)] keeps away from the loop. *)
Definition slices (file : File) : list FileSlice :=
  if (size file =? 0)%Z then []
  else
    match readSlicesFrom (S (Z.to_nat (size file / maxChunkSize))) file 0 with
    | Some (Ok l) => l
    | _ => []
    end.

End SocketReader.

(** *** The entry indexer *)

Module Indexer.
Section WithHost.
Context `{BrowserHost}.

(** The fields of [FileUploadService.Context] that indexing writes. *)
Record Context := {
  totalSize : Z;
  entries : list UploadEntry;
}.

Definition emptyContext : Context := {| totalSize := 0; entries := [] |}.

#[local] Set Warnings "-register-all".

(** A [WebKitEntry].  A file entry answers [entry.file] with the file or with
    an error; a directory entry answers the successive [reader.readEntries]
    calls with [batches], and after them with an empty result or with
    [failure]. *)
Inductive WebKitEntry :=
| WebKitFileEntry (answer : Result File)
| WebKitDirectoryEntry (dirName : string) (batches : list (list WebKitEntry))
    (failure : option Error).

Record DataTransfer := {
  items : option (list (option WebKitEntry));
  files : list (option File);
}.

(** The state of an indexing run: the context, and the cancellation token.
    [polls = Some n] is a token that is found cancelled from its (n+1)-th
    poll on; [None] is a token that is never cancelled. *)
Record IndexState := {
  context : Context;
  polls : option nat;
}.

(** Reading [token.isCancellationRequested]. *)
Definition poll (st : IndexState) : IndexState * bool :=
  match polls st with
  | None => (st, false)
  | Some O => (st, true)
  | Some (S n) => ({| context := context st; polls := Some n |}, false)
  end.

(** Modelled from the spec: [checkCancelled] of
    [@theia/core/lib/common/cancellation], which is not among the sources.
    The cancellation check rejects with the cancellation error, an error kind
    of its own, once the signal of the token is set. *)
Definition checkCancelled (st : IndexState) : IndexState * Result unit :=
  let '(st', cancelled) := poll st in
  (st', if cancelled then Err Cancelled else Ok tt).

Definition indexFile (targetUri : string) (file : File) (c : Context) : Context :=
  {| totalSize := totalSize c + size file;
     entries := entries c ++ [{| file := file; uri := URI_resolve targetUri (name file) |}] |}.

Definition indexFileList (targetUri : string) (files : list (option File)) (c : Context)
  : Context :=
  foldl (λ c file, match file with
                   | Some file => indexFile targetUri file c
                   | None => c
                   end) c files.

Definition onContext (f : Context → Context) (st : IndexState) : IndexState :=
  {| context := f (context st); polls := polls st |}.

(** [Promise.all] over promises that are started one after the other: every
    one runs, whether or not an earlier one rejected, and the result is the
    first rejection.  The model runs each promise to its end before it starts
    the next, so it fixes one of the orders in which the browser may deliver
    the callbacks. *)
Definition both (r1 r2 : Result unit) : Result unit :=
  match r1 with
  | Ok _ => r2
  | Err e => Err e
  end.

Definition promiseAll {A : Type} (start : A → IndexState → IndexState * Result unit)
  : list A → IndexState → IndexState * Result unit :=
  fix go (items : list A) (st : IndexState) :=
    match items with
    | [] => (st, Ok tt)
    | item :: items' =>
        let '(st1, r1) := start item st in
        let '(st2, r2) := go items' st1 in
        (st2, both r1 r2)
    end.

(** [readEntries] followed by [Promise.all(promises)]: [cb] is called on
    every batch until the token is cancelled or a batch is empty; [results]
    are the batches the reader still has, [failure] what it answers after
    them, and [promises] the outcome of the promises pushed so far. *)
Definition readEntries (cb : list WebKitEntry → IndexState → IndexState * Result unit)
  (failure : option Error)
  : list (list WebKitEntry) → Result unit → IndexState → IndexState * Result unit :=
  fix getEntries (results : list (list WebKitEntry)) (promises : Result unit)
      (st : IndexState) :=
    match results with
    | [] =>
        match failure with
        | Some e => (st, Err e)
        | None => ((poll st).1, promises)
        end
    | items :: results' =>
        let '(st0, cancelled) := poll st in
        if cancelled || bool_decide (items = []) then (st0, promises)
        else
          let '(st1, r1) := cb items st0 in
          getEntries results' (both promises r1) st1
    end.

Fixpoint indexEntry (targetUri : string) (entry : WebKitEntry) (st : IndexState)
  {struct entry} : IndexState * Result unit :=
  match checkCancelled st with
  | (st, Err e) => (st, Err e)
  | (st, Ok _) =>
      match entry with
      | WebKitFileEntry answer =>
          (* indexFileEntry *)
          match answer with
          | Ok file => (onContext (indexFile targetUri file) st, Ok tt)
          | Err e => (st, Err e)
          end
      | WebKitDirectoryEntry dirName batches failure =>
          (* indexDirectoryEntry *)
          match checkCancelled st with
          | (st, Err e) => (st, Err e)
          | (st, Ok _) =>
              let newTargetUri := URI_resolve targetUri dirName in
              let indexEntries (items : list WebKitEntry) (st : IndexState) :=
                match checkCancelled st with
                | (st, Err e) => (st, Err e)
                | (st, Ok _) => promiseAll (indexEntry newTargetUri) items st
                end in
              readEntries indexEntries failure batches (Ok tt) st
          end
      end
  end.

(** [indexEntry] on the result of [webkitGetAsEntry], which may be null. *)
Definition indexEntryOrNull (targetUri : string) (entry : option WebKitEntry)
  (st : IndexState) : IndexState * Result unit :=
  match entry with
  | None => checkCancelled st
  | Some entry => indexEntry targetUri entry st
  end.

Definition indexDataTransferItemList (targetUri : string)
  (items : list (option WebKitEntry)) (st : IndexState) : IndexState * Result unit :=
  match checkCancelled st with
  | (st, Err e) => (st, Err e)
  | (st, Ok _) => promiseAll (indexEntryOrNull targetUri) items st
  end.

Definition indexDataTransfer (targetUri : string) (dataTransfer : DataTransfer)
  (st : IndexState) : IndexState * Result unit :=
  match checkCancelled st with
  | (st, Err e) => (st, Err e)
  | (st, Ok _) =>
      match items dataTransfer with
      | Some items => indexDataTransferItemList targetUri items st
      | None => (onContext (indexFileList targetUri (files dataTransfer)) st, Ok tt)
      end
  end.

(** The indexing calls made on one context. *)
Inductive IndexCall :=
| IndexFile (targetUri : string) (file : File)
| IndexFileList (targetUri : string) (files : list (option File))
| IndexEntry (targetUri : string) (entry : option WebKitEntry)
| IndexDataTransfer (targetUri : string) (dataTransfer : DataTransfer).

Definition targetOf (c : IndexCall) : string :=
  match c with
  | IndexFile t _ | IndexFileList t _ | IndexEntry t _ | IndexDataTransfer t _ => t
  end.

Definition indexStep (c : IndexCall) (st : IndexState) : IndexState :=
  match c with
  | IndexFile t file => onContext (indexFile t file) st
  | IndexFileList t files => onContext (indexFileList t files) st
  | IndexEntry t entry => (indexEntryOrNull t entry st).1
  | IndexDataTransfer t dataTransfer => (indexDataTransfer t dataTransfer st).1
  end.

Definition indexRun (cs : list IndexCall) (st : IndexState) : IndexState :=
  foldl (λ st c, indexStep c st) st cs.

(** The sum of [entry.file.size] over the entries. *)
Definition sumSizes (es : list UploadEntry) : Z :=
  foldr (λ e acc, (size (file e) + acc)%Z) 0%Z es.

(** Where a file lies below an entry: the names of the directories from the
    entry down to the file entry that answers with the file. *)
Inductive inside : WebKitEntry → list string → File → Prop :=
| inside_file (file : File) : inside (WebKitFileEntry (Ok file)) [] file
| inside_directory (dirName : string) (batches : list (list WebKitEntry))
    (failure : option Error) (items : list WebKitEntry) (item : WebKitEntry)
    (dirs : list string) (file : File) :
    items ∈ batches → item ∈ items → inside item dirs file →
    inside (WebKitDirectoryEntry dirName batches failure) (dirName :: dirs) file.

(** Where a file of an indexing call lies: at the top for a file or a file
    list, below one of the entries otherwise. *)
Definition origin (c : IndexCall) (dirs : list string) (file : File) : Prop :=
  match c with
  | IndexFile _ f => dirs = [] ∧ file = f
  | IndexFileList _ fs => dirs = [] ∧ Some file ∈ fs
  | IndexEntry _ entry => ∃ e, entry = Some e ∧ inside e dirs file
  | IndexDataTransfer _ dataTransfer =>
      match items dataTransfer with
      | Some entries => ∃ e, Some e ∈ entries ∧ inside e dirs file
      | None => dirs = [] ∧ Some file ∈ files dataTransfer
      end
  end.

(** [c'] is [c] with more entries pushed, all satisfying [P], and their
    sizes added to the total. *)
Definition extends (P : UploadEntry → Prop) (c c' : Context) : Prop :=
  ∃ new, entries c' = entries c ++ new
       ∧ totalSize c' = (totalSize c + sumSizes new)%Z
       ∧ Forall P new.

(** The entries a directory reader hands out: the batches before the first
    empty one. *)
Fixpoint listed (batches : list (list WebKitEntry)) : list WebKitEntry :=
  match batches with
  | [] => []
  | items :: batches' =>
      if bool_decide (items = []) then [] else items ++ listed batches'
  end.

(** The upload entries of the files below an entry, for a target URI: a
    file entry that answers with its file gives one, at the target resolved
    with the name of the file; a directory gives those of the entries its
    reader hands out, for the target resolved with the name of the
    directory. *)
Fixpoint filesBelow (targetUri : string) (entry : WebKitEntry) : list UploadEntry :=
  match entry with
  | WebKitFileEntry (Ok file) => [{| file := file; uri := URI_resolve targetUri (name file) |}]
  | WebKitFileEntry (Err _) => []
  | WebKitDirectoryEntry dirName batches _ =>
      (fix below (batches : list (list WebKitEntry)) : list UploadEntry :=
         match batches with
         | [] => []
         | items :: batches' =>
             if bool_decide (items = []) then []
             else flat_map (filesBelow (URI_resolve targetUri dirName)) items
                  ++ below batches'
         end) batches
  end.

(** The upload entries of the files of a data transfer: those below its
    items when it has items, and otherwise those of its file list. *)
Definition transferred (targetUri : string) (dataTransfer : DataTransfer)
  : list UploadEntry :=
  match items dataTransfer with
  | Some entries =>
      flat_map (λ entry, match entry with
                         | Some entry => filesBelow targetUri entry
                         | None => []
                         end) entries
  | None =>
      (λ file, {| file := file; uri := URI_resolve targetUri (name file) |})
        <$> omap (λ file, file) (files dataTransfer)
  end.

(** [st'] is [st] with the entries [new] pushed, in this order, and their
    sizes added to the total; the token is as it was. *)
Definition pushed (new : list UploadEntry) (st st' : IndexState) : Prop :=
  polls st' = polls st
  ∧ entries (context st') = entries (context st) ++ new
  ∧ totalSize (context st') = (totalSize (context st) + sumSizes new)%Z.

End WithHost.
End Indexer.

(** *** The upload session *)

Module Session.

(** How an awaited call ends: it returns, it throws, or the promise it waits
    for is never settled. *)
Inductive Outcome (A : Type) :=
| Returned (a : A)
| Thrown (e : Error)
| Unsettled.
Arguments Returned {A} a.
Arguments Thrown {A} e.
Arguments Unsettled {A}.

(** A promise pushed to [promises]: [uploadServer.append(...).then(...)].
    While it waits for the acknowledgement it holds the [fileSlice.read] its
    callback will report. *)
Inductive Promise :=
| WaitingAck (read : Z)
| Fulfilled
| Rejected (e : Error).

(** What the session does to its collaborators, in order.  [AppendFailed] is
    not a call: it records that the rejection callback of the n-th append of
    the entry ran. *)
Inductive Action :=
| Report (done total : Z)
| ReadCall (file : File) (read : Z)
| OpenCall (uri content : string) (done : bool)
| AppendCall (id content : string) (done : bool)
| CloseCall (id : string)
| AppendFailed (n : nat) (e : Error).

(** What the event loop runs while [doUpload] is suspended in an [await]. *)
Inductive Event :=
| CancelRequested
| AppendSettled (n : nat) (r : Result unit).

(** The schedule of one entry: for every [await readFileSlice] the events
    delivered meanwhile and the error of the reader, if any; the same for
    [await open]; and the events delivered during [await Promise.all]. *)
Record ReadStep := {
  during_read : list Event;
  onerror : option Error;
}.

Record EntrySchedule := {
  reads : list ReadStep;
  during_open : list Event;
  open_result : Result string;
  during_all : list Event;
}.

(** The variables of [doUpload]: the token, [done], the locals of the entry
    in progress, and the actions so far. *)
Record State := {
  cancellationRequested : bool;
  done : Z;
  id : option string;
  readBytes : Z;
  someAppendFailed : option Error;
  promises : list Promise;
  log : list Action;
}.

(** The reads and sends among the actions. *)
Definition isTransfer (a : Action) : bool :=
  match a with
  | ReadCall _ _ | OpenCall _ _ _ | AppendCall _ _ _ => true
  | _ => false
  end.

Definition isOpenCall (a : Action) : bool :=
  match a with
  | OpenCall _ _ _ => true
  | _ => false
  end.

(** The error of the last failed acknowledgement among the actions. *)
Fixpoint lastFailure (l : list Action) : option Error :=
  match l with
  | [] => None
  | a :: l' =>
      match lastFailure l' with
      | Some e => Some e
      | None =>
          match a with
          | AppendFailed _ e => Some e
          | _ => None
          end
      end
  end.

(** The error of the first failed acknowledgement among the actions. *)
Fixpoint firstFailure (l : list Action) : option Error :=
  match l with
  | [] => None
  | AppendFailed _ e :: _ => Some e
  | _ :: l' => firstFailure l'
  end.

(** The chunks sent to the server, in order: the content and the done flag
    of every [open] and [append]. *)
Definition sentChunks (l : list Action) : list (string * bool) :=
  omap (λ a, match a with
             | OpenCall _ content done | AppendCall _ content done => Some (content, done)
             | _ => None
             end) l.

(** The first rejected promise of [promises], in the order of the array. *)
Fixpoint firstRejected (ps : list Promise) : option Error :=
  match ps with
  | [] => None
  | Rejected e :: _ => Some e
  | _ :: ps' => firstRejected ps'
  end.

Definition isFulfilled (p : Promise) : bool :=
  match p with
  | Fulfilled => true
  | _ => false
  end.

(** *** Predicates on the states and the actions of a session *)

(** Neither a read nor a send. *)
Definition idle (a : Action) : Prop := isTransfer a = false.

(** No read and no send after a failed acknowledgement. *)
Fixpoint quiet (l : list Action) : Prop :=
  match l with
  | [] => True
  | a :: l' => ((∃ n e, a = AppendFailed n e) → Forall idle l') ∧ quiet l'
  end.

(** What a suspension can do to the variables of [doUpload]: the log grows
    by reports and failed acknowledgements, [someAppendFailed] holds the
    last failure, the token stays cancelled once it is, and the rest is as
    before. *)
Definition window (s s1 : State) : Prop :=
  ∃ w, log s1 = log s ++ w
    ∧ Forall idle w
    ∧ Forall (λ a, isOpenCall a = false) w
    ∧ someAppendFailed s1 =
        match lastFailure w with
        | Some e => Some e
        | None => someAppendFailed s
        end
    ∧ id s1 = id s ∧ readBytes s1 = readBytes s ∧ done s1 = done s
    ∧ (promises s = [] → promises s1 = [] ∧ w = [])
    ∧ (cancellationRequested s = true → cancellationRequested s1 = true)
    ∧ (firstRejected (promises s) = None → someAppendFailed s1 = None →
       cancellationRequested s1 = false → firstRejected (promises s1) = None).

Definition notOpen (a : Action) : Prop := isOpenCall a = false.

(** The state at the head of the transfer loop of an entry whose actions so
    far are [new]: no acknowledgement has failed, no promise is rejected,
    [id] is set exactly if [open] was called and answered with it, and before
    that no append was sent. *)
Definition Head (sch : EntrySchedule) (l0 : list Action) (s : State) : Prop :=
  ∃ new, log s = l0 ++ new
    ∧ lastFailure new = None
    ∧ someAppendFailed s = None
    ∧ firstRejected (promises s) = None
    ∧ (id s = None → promises s = [] ∧ Forall notOpen new)
    ∧ (∀ i, id s = Some i →
         open_result sch = Ok i ∧ Exists (λ a, isOpenCall a = true) new)
    ∧ (0 ≤ readBytes s)%Z.

(** The state in which the [try] block of an entry is left with outcome
    [o]. *)
Definition Exit {A : Type} (sch : EntrySchedule) (l0 : list Action) (s : State)
  (o : Outcome A) : Prop :=
  ∃ new, log s = l0 ++ new
    ∧ quiet new
    ∧ (∀ i, id s = Some i →
         open_result sch = Ok i ∧ Exists (λ a, isOpenCall a = true) new)
    ∧ (id s = None → ∀ i, open_result sch = Ok i → Forall notOpen new)
    ∧ match o with
      | Thrown e =>
          lastFailure new = None ∨ lastFailure new = Some e
          ∨ ∃ step, step ∈ reads sch ∧ onerror step = Some e
      | _ => lastFailure new = None
      end.

(** While [Promise.all] is awaited: no failure recorded and no promise
    rejected so far. *)
Definition Waiting (sch : EntrySchedule) (l0 : list Action) (s : State) : Prop :=
  ∃ new, log s = l0 ++ new
    ∧ lastFailure new = None
    ∧ firstRejected (promises s) = None
    ∧ (∀ i, id s = Some i →
         open_result sch = Ok i ∧ Exists (λ a, isOpenCall a = true) new)
    ∧ (id s = None → ∀ i, open_result sch = Ok i → Forall notOpen new).

(** How one iteration of the [for] loop leaves the session: [new] are its
    actions. *)
Definition EntryExit (sch : EntrySchedule) (s s' : State) (o : Outcome unit) : Prop :=
  ∃ new, log s' = log s ++ new
    ∧ quiet new
    ∧ (∀ i, id s' = Some i →
         open_result sch = Ok i ∧ Exists (λ a, isOpenCall a = true) new)
    ∧ (id s' = None → ∀ i, open_result sch = Ok i → Forall notOpen new)
    ∧ match o with
      | Thrown e =>
          lastFailure new = None ∨ lastFailure new = Some e
          ∨ ∃ step, step ∈ reads sch ∧ onerror step = Some e
      | _ => lastFailure new = None
      end
    ∧ (o ≠ Unsettled → ∀ i, id s' = Some i → ∃ l, new = l ++ [CloseCall i]).

(** How the [for] loop leaves the session. *)
Definition SessionExit (schs : list EntrySchedule) (s' : State) (o : Outcome unit) : Prop :=
  quiet (log s')
  ∧ match o with
    | Thrown e =>
        lastFailure (log s') = None ∨ lastFailure (log s') = Some e
        ∨ ∃ sch step, sch ∈ schs ∧ step ∈ reads sch ∧ onerror step = Some e
    | _ => lastFailure (log s') = None
    end.

Section WithHost.
Context `{BrowserHost}.

Definition M (A : Type) : Type := State → State * Outcome A.

Definition ret {A} (a : A) : M A := λ s, (s, Returned a).

Definition bind {A B} (m : M A) (k : A → M B) : M B := λ s,
  match m s with
  | (s', Returned a) => k a s'
  | (s', Thrown e) => (s', Thrown e)
  | (s', Unsettled) => (s', Unsettled)
  end.

Notation "x <- m ;; k" := (bind m (λ x, k))
  (at level 100, m at next level, right associativity).
Notation "m ;; k" := (bind m (λ _, k))
  (at level 100, right associativity).

Definition throw {A} (e : Error) : M A := λ s, (s, Thrown e).
Definition never {A} : M A := λ s, (s, Unsettled).
Definition gets {A} (f : State → A) : M A := λ s, (s, Returned (f s)).
Definition modify (f : State → State) : M unit := λ s, (f s, Returned tt).

Definition settled {A} (r : Result A) : M A :=
  match r with
  | Ok a => ret a
  | Err e => throw e
  end.

Definition withLog (f : list Action → list Action) (s : State) : State :=
  {| cancellationRequested := cancellationRequested s; done := done s; id := id s;
     readBytes := readBytes s; someAppendFailed := someAppendFailed s;
     promises := promises s; log := f (log s) |}.

Definition withPromises (f : list Promise → list Promise) (s : State) : State :=
  {| cancellationRequested := cancellationRequested s; done := done s; id := id s;
     readBytes := readBytes s; someAppendFailed := someAppendFailed s;
     promises := f (promises s); log := log s |}.

Definition setCancelled (s : State) : State :=
  {| cancellationRequested := true; done := done s; id := id s;
     readBytes := readBytes s; someAppendFailed := someAppendFailed s;
     promises := promises s; log := log s |}.

Definition setId (i : string) (s : State) : State :=
  {| cancellationRequested := cancellationRequested s; done := done s; id := Some i;
     readBytes := readBytes s; someAppendFailed := someAppendFailed s;
     promises := promises s; log := log s |}.

Definition setReadBytes (n : Z) (s : State) : State :=
  {| cancellationRequested := cancellationRequested s; done := done s; id := id s;
     readBytes := n; someAppendFailed := someAppendFailed s;
     promises := promises s; log := log s |}.

Definition setSomeAppendFailed (e : Error) (s : State) : State :=
  {| cancellationRequested := cancellationRequested s; done := done s; id := id s;
     readBytes := readBytes s; someAppendFailed := Some e;
     promises := promises s; log := log s |}.

Definition addDone (n : Z) (s : State) : State :=
  {| cancellationRequested := cancellationRequested s; done := done s + n; id := id s;
     readBytes := readBytes s; someAppendFailed := someAppendFailed s;
     promises := promises s; log := log s |}.

(** The declarations at the head of the loop body:
    [let id; let readBytes = 0; let someAppendFailed; const promises = []]. *)
Definition enterEntry (s : State) : State :=
  {| cancellationRequested := cancellationRequested s; done := done s; id := None;
     readBytes := 0; someAppendFailed := None; promises := []; log := log s |}.

Definition emit (a : Action) : M unit := modify (withLog (λ l, l ++ [a])).

(** Modelled from the spec: [checkCancelled] of
    [@theia/core/lib/common/cancellation], which is not among the sources.
    The cancellation check rejects with the cancellation error, an error kind
    of its own, once the signal of the token is set. *)
Definition checkCancelled : M unit := λ s,
  if cancellationRequested s then (s, Thrown Cancelled) else (s, Returned tt).

Section WithTotal.
Variable total : Z.

(** Running one callback of the event loop.  An acknowledgement runs the
    callbacks given to [then] for that append: on success
    [checkCancelled(token)] and the progress report, on failure the
    assignment to [someAppendFailed] and the rethrow.  An acknowledgement for
    an append that was not sent or is already settled has no callback. *)
Definition deliver (ev : Event) (s : State) : State :=
  match ev with
  | CancelRequested => setCancelled s
  | AppendSettled n r =>
      match promises s !! n with
      | Some (WaitingAck read) =>
          match r with
          | Ok _ =>
              if cancellationRequested s then
                withPromises (λ ps, <[n := Rejected Cancelled]> ps) s
              else
                withPromises (λ ps, <[n := Fulfilled]> ps)
                  (withLog (λ l, l ++ [Report (done s + read) total]) s)
          | Err e =>
              withPromises (λ ps, <[n := Rejected e]> ps)
                (withLog (λ l, l ++ [AppendFailed n e]) (setSomeAppendFailed e s))
          end
      | _ => s
      end
  end.

(** Being suspended while the events are delivered. *)
Definition await (evs : list Event) : M unit :=
  modify (λ s, foldl (λ s ev, deliver ev s) s evs).

(** [await Promise.all(promises)]: rejects with the first rejection, resolves
    when every promise is fulfilled, and otherwise waits for the next
    event. *)
Fixpoint awaitAll (evs : list Event) (s : State) {struct evs} : State * Outcome unit :=
  match firstRejected (promises s) with
  | Some e => (s, Thrown e)
  | None =>
      if forallb isFulfilled (promises s) then (s, Returned tt)
      else
        match evs with
        | [] => (s, Unsettled)
        | ev :: evs' => awaitAll evs' (deliver ev s)
        end
  end.

(** The body of the [do ... while] loop; the result is the loop condition
    [readBytes < file.size].  [step] is what happens while the read is
    awaited. *)
Definition iteration (entry : UploadEntry) (sch : EntrySchedule) (step : ReadStep)
  : M bool :=
  offset <- gets readBytes ;;
  emit (ReadCall (file entry) offset) ;;
  await (during_read step) ;;
  fileSlice <- settled (Reader.readFileSlice (file entry) offset (onerror step)) ;;
  failed <- gets someAppendFailed ;;
  match failed with
  | Some e => throw e
  | None => ret tt
  end ;;
  checkCancelled ;;
  modify (setReadBytes (Reader.read fileSlice)) ;;
  readBytes <- gets readBytes ;;
  i <- gets id ;;
  match i with
  | None =>
      emit (OpenCall (uri entry) (Reader.content fileSlice)
              (bool_decide (size (file entry) ≤ readBytes)%Z)) ;;
      await (during_open sch) ;;
      i' <- settled (open_result sch) ;;
      modify (setId i') ;;
      checkCancelled ;;
      done <- gets done ;;
      emit (Report (done + Reader.read fileSlice) total)
  | Some i =>
      emit (AppendCall i (Reader.content fileSlice)
              (bool_decide (size (file entry) ≤ readBytes)%Z)) ;;
      modify (withPromises (λ ps, ps ++ [WaitingAck (Reader.read fileSlice)]))
  end ;;
  ret (bool_decide (readBytes < size (file entry))%Z).

(** The [do ... while (readBytes < file.size)] loop.  Each iteration takes
    the next step of the schedule; when the schedule has none, the read is
    never answered. *)
Fixpoint transfer (entry : UploadEntry) (sch : EntrySchedule) (steps : list ReadStep)
  : M unit :=
  match steps with
  | [] => never
  | step :: steps' =>
      again <- iteration entry sch step ;;
      if again : bool then transfer entry sch steps' else ret tt
  end.

(** The body of the [try]. *)
Definition tryBody (entry : UploadEntry) (sch : EntrySchedule) : M unit :=
  transfer entry sch (reads sch) ;;
  awaitAll (during_all sch) ;;
  modify (addDone (size (file entry))) ;;
  done <- gets done ;;
  emit (Report done total).

(** The [finally]: [if (id !== undefined) { this.uploadServer.close(id); }]. *)
Definition finallyClose (s : State) : State :=
  match id s with
  | Some i => withLog (λ l, l ++ [CloseCall i]) s
  | None => s
  end.

(** One iteration of [for (const entry of entries)]. *)
Definition uploadEntry (entry : UploadEntry) (sch : EntrySchedule) : M unit := λ s,
  match (done <- gets done ;; emit (Report done total)) s with
  | (s0, _) =>
      match tryBody entry sch (enterEntry s0) with
      | (s1, Unsettled) => (s1, Unsettled)
      | (s1, o) => (finallyClose s1, o)
      end
  end.

Fixpoint uploadEntries (entries : list UploadEntry) (schs : list EntrySchedule) : M unit :=
  match entries with
  | [] => ret tt
  | entry :: entries' =>
      match schs with
      | [] => never
      | sch :: schs' => uploadEntry entry sch ;; uploadEntries entries' schs'
      end
  end.

End WithTotal.

Definition start (cancelled : bool) : State :=
  {| cancellationRequested := cancelled; done := 0; id := None; readBytes := 0;
     someAppendFailed := None; promises := []; log := [] |}.

(** [doUpload].  [cancelled] is the state of the token at the call; the
    result is the actions of the call and the way its promise settles. *)
Definition doUpload (context : Indexer.Context) (cancelled : bool)
  (schs : list EntrySchedule) : list Action * Outcome FileUploadResult :=
  let result := {| uploaded := [] |} in
  match Indexer.entries context with
  | [] => ([], Returned result)
  | _ =>
      let total := Indexer.totalSize context in
      match uploadEntries total (Indexer.entries context) schs (start cancelled) with
      | (s, Returned _) => (log s ++ [Report total total], Returned result)
      | (s, Thrown e) => (log s, Thrown e)
      | (s, Unsettled) => (log s, Unsettled)
      end
  end.

(** [upload] with [params.source] set: index the data transfer into a fresh
    context, then [doUpload].  [polls] is the token during indexing. *)
Definition upload (targetUri : string) (source : Indexer.DataTransfer)
  (polls : option nat) (schs : list EntrySchedule)
  : list Action * Outcome FileUploadResult :=
  match Indexer.indexDataTransfer targetUri source
          {| Indexer.context := Indexer.emptyContext; Indexer.polls := polls |} with
  | (st, Err e) => ([], Thrown e)
  | (st, Ok _) =>
      doUpload (Indexer.context st) (bool_decide (Indexer.polls st = Some O)) schs
  end.

(** *** The progress of a session *)

(** A progress report that carries the total and a [done] between 0 and the
    total. *)
Definition withinTotal (total : Z) (a : Action) : Prop :=
  ∀ d t, a = Report d t → t = total ∧ (0 ≤ d ≤ total)%Z.

(** The variables of [doUpload] while an entry is uploaded: [done] and the
    size of the file stay within the total, every pending acknowledgement
    holds an offset within the file, and the reports so far are within the
    total. *)
Definition Progress (total : Z) (entry : UploadEntry) (s : State) : Prop :=
  (0 ≤ done s)%Z ∧ (done s + size (file entry) ≤ total)%Z
  ∧ Forall (λ p, ∀ r, p = WaitingAck r → (0 ≤ r ≤ size (file entry))%Z) (promises s)
  ∧ Forall (withinTotal total) (log s).

(** *** The requests of a session *)

(** The requests to the server among the actions. *)
Definition isServerCall (a : Action) : bool :=
  match a with
  | OpenCall _ _ _ | AppendCall _ _ _ | CloseCall _ => true
  | _ => false
  end.

Definition serverCalls (l : list Action) : list Action :=
  List.filter isServerCall l.

(** The done flag sent with a slice: [readBytes >= file.size]. *)
Definition lastSlice (entry : UploadEntry) (slice : Reader.FileSlice) : bool :=
  bool_decide (size (file entry) ≤ Reader.read slice)%Z.

(** The requests that send slices of an entry under the id [i]: [append]
    for each, and for a whole entry [open] for the first slice and [append]
    for the others. *)
Definition appendRequests (entry : UploadEntry) (i : string)
  (slices : list Reader.FileSlice) : list Action :=
  (λ slice, AppendCall i (Reader.content slice) (lastSlice entry slice)) <$> slices.

Definition chunkRequests (entry : UploadEntry) (i : string)
  (slices : list Reader.FileSlice) : list Action :=
  match slices with
  | [] => []
  | first :: rest =>
      OpenCall (uri entry) (Reader.content first) (lastSlice entry first)
        :: appendRequests entry i rest
  end.

(** The id a schedule lets [open] return; the empty string when it lets
    [open] fail. *)
Definition idOf (sch : EntrySchedule) : string :=
  match open_result sch with
  | Ok i => i
  | Err _ => ""
  end.

(** The requests of an entry that is uploaded to the end. *)
Definition entryRequests (entry : UploadEntry) (i : string) : list Action :=
  chunkRequests entry i (Reader.slices (file entry)) ++ [CloseCall i].

(** The requests of a session that uploads every entry to the end, each
    under the id its schedule lets [open] return. *)
Definition sessionRequests (entries : list UploadEntry) (schs : list EntrySchedule)
  : list Action :=
  concat (zip_with (λ entry sch, entryRequests entry (idOf sch)) entries schs).

(** A schedule on which nothing goes wrong for an entry read in at most
    [n] slices: no read fails, the token is left alone, [open] returns [i],
    and the appends are acknowledged, in the order they were sent, while
    [Promise.all] is awaited. *)
Definition answeredAll (i : string) (n : nat) : EntrySchedule :=
  {| reads := replicate n {| during_read := []; onerror := None |};
     during_open := [];
     open_result := Ok i;
     during_all := (λ k, AppendSettled k (Ok tt)) <$> seq 0 (n - 1) |}.

(** The number of iterations [Reader.readSlices] allows for a file. *)
Definition sliceBound (f : File) : nat := S (Z.to_nat (size f / maxChunkSize)).

End WithHost.
End Session.

(** ** The upload session over a web socket

    [doUpload] of the web socket variant.  The handlers it installs on the
    socket and on the token are run by the event loop; the body of [onopen]
    is suspended at every [await], and the schedule says which handlers run
    meanwhile, what the reader answers and what [socket.bufferedAmount]
    reads. *)

Module SocketSession.
Import Session (Outcome, Returned, Thrown, Unsettled).

(** What [socket.send] is given: the two kinds of JSON text and the
    content of a slice. *)
Inductive Frame :=
| TotalFrame (total : Z)
| EntryFrame (uri : string) (size : Z)
| ContentFrame (content : list byte).

(** [JSON.parse(data)] of a message, by the fields the handler reads; a
    field that is absent is [None]. *)
Record Response := {
  response_done : option Z;
  response_ok : option bool;
  response_error : option string;
}.

(** What the session does, in order.  [Resolve] and [Reject] are the calls
    of [deferredUpload.resolve] and [deferredUpload.reject], [Close] the calls
    of [socket.close]. *)
Inductive Action :=
| Send (frame : Frame)
| ReadCall (file : File) (read : Z)
| Timeout
| Report (done total : Z)
| Resolve (result : FileUploadResult)
| Reject (e : Error)
| Close
| ConsoleError.

(** What the event loop runs: the listener of the token, [onmessage],
    [onclose] and [onerror]. *)
Inductive Event :=
| CancelRequested
| Message (response : Response)
| SocketClosed (code : Z) (reason : string)
| SocketError (e : Error).

(** One test of [while (socket.bufferedAmount > maxChunkSize * 2)]: the
    value read, and the events delivered during the timeout if the body is
    entered. *)
Record PollStep := {
  bufferedAmount : Z;
  during_timeout : list Event;
}.

(** One iteration of the sending loop: the events delivered while the read
    is awaited, the error of the reader, if any, and the tests of the
    buffer; after the last of them the buffer is found drained. *)
Record ChunkStep := {
  during_read : list Event;
  onerror : option Error;
  polls : list PollStep;
}.

(** The token, [socket.readyState] (1 is open, 2 closing, 3 closed) and the
    actions so far. *)
Record State := {
  cancellationRequested : bool;
  readyState : Z;
  log : list Action;
}.

Definition withLog (f : list Action → list Action) (s : State) : State :=
  {| cancellationRequested := cancellationRequested s; readyState := readyState s;
     log := f (log s) |}.

(** [socket.close()]: an open socket starts closing. *)
Definition socketClose (s : State) : State :=
  {| cancellationRequested := cancellationRequested s;
     readyState := if (readyState s =? 1)%Z then 2 else readyState s;
     log := log s ++ [Close] |}.

(** [if (socket.readyState === 1) { socket.close(); }] *)
Definition closeIfOpen (s : State) : State :=
  if (readyState s =? 1)%Z then socketClose s else s.

(** The truth value of a field: a number other than 0, [true], a string
    that is not empty. *)
Definition truthyNumber (v : option Z) : bool :=
  match v with
  | Some n => negb (n =? 0)%Z
  | None => false
  end.

Definition truthyString (v : option string) : bool :=
  match v with
  | Some t => negb (String.eqb t "")
  | None => false
  end.

Section WithTotal.
Variable total : Z.
Variable result : FileUploadResult.

Definition onmessage (response : Response) (s : State) : State :=
  if truthyNumber (response_done response) then
    withLog (λ l, l ++ [Report (default 0%Z (response_done response)) total]) s
  else
    socketClose
      (if default false (response_ok response) then
         withLog (λ l, l ++ [Resolve result]) s
       else if truthyString (response_error response) then
         withLog (λ l, l ++ [Reject (Failure (default "" (response_error response)))]) s
       else withLog (λ l, l ++ [ConsoleError]) s).

(** [new Error(String(reason || code))] *)
Definition onclose (code : Z) (reason : string) (s : State) : State :=
  {| cancellationRequested := cancellationRequested s; readyState := 3;
     log := log s ++ [Reject (Failure (if String.eqb reason "" then pretty code
                                        else reason))] |}.

Definition deliver (ev : Event) (s : State) : State :=
  match ev with
  | CancelRequested =>
      closeIfOpen
        {| cancellationRequested := true; readyState := readyState s;
           log := log s ++ [Reject Cancelled] |}
  | Message response => onmessage response s
  | SocketClosed code reason => onclose code reason s
  | SocketError e => withLog (λ l, l ++ [Reject e]) s
  end.

Definition M (A : Type) : Type := State → State * Outcome A.

Definition ret {A} (a : A) : M A := λ s, (s, Returned a).

Definition bind {A B} (m : M A) (k : A → M B) : M B := λ s,
  match m s with
  | (s', Returned a) => k a s'
  | (s', Thrown e) => (s', Thrown e)
  | (s', Unsettled) => (s', Unsettled)
  end.

Notation "x <- m ;; k" := (bind m (λ x, k))
  (at level 100, m at next level, right associativity).
Notation "m ;; k" := (bind m (λ _, k))
  (at level 100, right associativity).

Definition never {A} : M A := λ s, (s, Unsettled).

Definition settled {A} (r : Result A) : M A := λ s,
  match r with
  | Ok a => (s, Returned a)
  | Err e => (s, Thrown e)
  end.

Definition emit (a : Action) : M unit := λ s, (withLog (λ l, l ++ [a]) s, Returned tt).

(** Being suspended while the events are delivered. *)
Definition await (evs : list Event) : M unit := λ s,
  (foldl (λ s ev, deliver ev s) s evs, Returned tt).

(** Modelled from the spec: [checkCancelled] of
    [@theia/core/lib/common/cancellation], which is not among the sources.
    The cancellation check rejects with the cancellation error, an error kind
    of its own, once the signal of the token is set. *)
Definition checkCancelled : M unit := λ s,
  if cancellationRequested s then (s, Thrown Cancelled) else (s, Returned tt).

(** [while (socket.bufferedAmount > maxChunkSize * 2) {
       await new Promise(resolve => setTimeout(resolve));
       checkCancelled(token); }] *)
Fixpoint drain (steps : list PollStep) : M unit :=
  match steps with
  | [] => ret tt
  | step :: steps' =>
      if (maxChunkSize * 2 <? bufferedAmount step)%Z then
        emit Timeout ;;
        await (during_timeout step) ;;
        checkCancelled ;;
        drain steps'
      else ret tt
  end.

(** The [do ... while (readBytes < file.size)] loop.  Each iteration takes
    the next step of the schedule; when the schedule has none, the read is
    never answered. *)
Fixpoint transfer (file : File) (steps : list ChunkStep) (readBytes : Z) : M unit :=
  match steps with
  | [] => never
  | step :: steps' =>
      emit (ReadCall file readBytes) ;;
      await (during_read step) ;;
      fileSlice <- settled (SocketReader.readFileSlice file readBytes (onerror step)) ;;
      checkCancelled ;;
      emit (Send (ContentFrame (SocketReader.content fileSlice))) ;;
      drain (polls step) ;;
      if (SocketReader.read fileSlice <? size file)%Z
      then transfer file steps' (SocketReader.read fileSlice)
      else ret tt
  end.

(** The body of [for (const entry of entries)]. *)
Definition sendEntry (entry : UploadEntry) (steps : list ChunkStep) : M unit :=
  emit (Send (EntryFrame (uri entry) (size (file entry)))) ;;
  if (size (file entry) =? 0)%Z then ret tt else transfer (file entry) steps 0.

(** The loop over the entries; an entry without a schedule has none of its
    reads answered. *)
Fixpoint sendEntries (entries : list UploadEntry) (schs : list (list ChunkStep)) : M unit :=
  match entries with
  | [] => ret tt
  | entry :: entries' =>
      sendEntry entry (default [] (head schs)) ;;
      sendEntries entries' (tail schs)
  end.

(** The body of the [try] of [onopen]. *)
Definition sender (entries : list UploadEntry) (schs : list (list ChunkStep)) : M unit :=
  emit (Send (TotalFrame total)) ;;
  sendEntries entries schs.

(** [onopen]: the [try] and its [catch]. *)
Definition onopen (entries : list UploadEntry) (schs : list (list ChunkStep))
  (s : State) : State :=
  match sender entries schs s with
  | (s', Thrown e) => closeIfOpen (withLog (λ l, l ++ [Reject e]) s')
  | (s', _) => s'
  end.

End WithTotal.

(** How [doUpload] answers: with the result at once, or with the promise of
    [deferredUpload], in which case [actions] is what the call does. *)
Inductive Upload :=
| ReturnedResult (result : FileUploadResult)
| OverSocket (actions : list Action).

(** [doUpload].  [cancelled] is the state of the token at the call;
    [before] are the events delivered while the socket connects, [opens]
    says whether it does, and [after] are the events delivered once [onopen]
    has come to its end or is suspended for good. *)
Definition doUpload (context : Indexer.Context) (cancelled : bool)
  (before : list Event) (opens : bool) (schs : list (list ChunkStep))
  (after : list Event) : Upload :=
  let result := {| uploaded := [] |} in
  match Indexer.entries context with
  | [] => ReturnedResult result
  | _ =>
      let total := Indexer.totalSize context in
      let s0 := {| cancellationRequested := cancelled; readyState := 0; log := [] |} in
      let s1 := foldl (λ s ev, deliver total result ev s) s0 before in
      let s2 :=
        if opens then
          onopen total result (Indexer.entries context) schs
            {| cancellationRequested := cancellationRequested s1; readyState := 1;
               log := log s1 |}
        else s1 in
      OverSocket (log (foldl (λ s ev, deliver total result ev s) s2 after))
  end.

(** The frames among the actions. *)
Definition frames (l : list Action) : list Frame :=
  omap (λ a, match a with Send frame => Some frame | _ => None end) l.

(** The frames of an entry sent to the end: the header, and the content of
    every slice of the file. *)
Definition entryFrames (entry : UploadEntry) : list Frame :=
  EntryFrame (uri entry) (size (file entry))
    :: (ContentFrame ∘ SocketReader.content <$> SocketReader.slices (file entry)).

(** The frames of a session that sends every entry to the end. *)
Definition sessionFrames (total : Z) (entries : list UploadEntry) : list Frame :=
  TotalFrame total :: concat (entryFrames <$> entries).

Definition isContent (frame : Frame) : bool :=
  match frame with
  | ContentFrame _ => true
  | _ => false
  end.

(** The events a step of the schedule delivers, and those of a whole
    schedule of the sender. *)
Definition stepEvents (step : ChunkStep) : list Event :=
  during_read step ++ flat_map during_timeout (polls step).

Definition scheduled (schs : list (list ChunkStep)) : list Event :=
  flat_map (flat_map stepEvents) schs.

(** A message that makes [onmessage] call [deferredUpload.resolve]: [ok]
    is true, and [done] is absent or 0. *)
Definition okMessage (response : Response) : Prop :=
  response_ok response = Some true ∧ truthyNumber (response_done response) = false.

(** Every call of [deferredUpload.resolve] between [s] and [s'] is due to
    a message among [evs]. *)
Definition resolvedBy (evs : list Event) (s s' : State) : Prop :=
  ∀ result, Resolve result ∈ log s' →
    Resolve result ∈ log s ∨ ∃ response, Message response ∈ evs ∧ okMessage response.

End SocketSession.

(** ** The ffmpeg library of Electron

    [electron-ffmpeg-lib.js]: where the ffmpeg library lies in a
    distribution of Electron. *)

(** [process.platform], and [require.resolve], which throws when the module
    is not found. *)
Class NodeProcess := {
  process_platform : string;
  require_resolve : string → Result string;
}.

Module ElectronFfmpegLib.
Section WithHost.
Context `{NodeHost} `{NodeProcess}.

Record File := {
  name : string;
  folder : option string;
}.

(** [if (!platform) platform = process.platform]: a platform that is not
    given, or is the empty string, is the one of the process. *)
Definition orProcessPlatform (platform : option string) : string :=
  match platform with
  | Some p => if String.eqb p "" then process_platform else p
  | None => process_platform
  end.

Definition libffmpeg (platform : option string) : Result File :=
  let platform := orProcessPlatform platform in
  if String.eqb platform "darwin" then
    Ok {| name := "libffmpeg.dylib";
          folder := Some "Electron.app/Contents/Frameworks/Electron Framework.framework/Libraries/" |}
  else if String.eqb platform "win32" then
    Ok {| name := "ffmpeg.dll"; folder := None |}
  else if String.eqb platform "linux" then
    Ok {| name := "libffmpeg.so"; folder := None |}
  else Err (Failure (process_platform +:+ " is not supported")).

Definition libffmpegRelativePath (platform : option string) : Result string :=
  match libffmpeg platform with
  | Ok libffmpeg => Ok (default "" (folder libffmpeg) +:+ name libffmpeg)
  | Err e => Err e
  end.

(** [if (!electronDist) electronDist =
       path.dirname(require.resolve('electron/dist/electron'))] *)
Definition orResolvedDist (electronDist : option string) : Result string :=
  let resolved :=
    match require_resolve "electron/dist/electron" with
    | Ok p => Ok (path_dirname p)
    | Err e => Err e
    end in
  match electronDist with
  | Some d => if String.eqb d "" then resolved else Ok d
  | None => resolved
  end.

Definition libffmpegAbsolutePath (platform electronDist : option string)
  : Result string :=
  match orResolvedDist electronDist with
  | Ok electronDist =>
      match libffmpegRelativePath platform with
      | Ok relativePath => Ok (path_join electronDist relativePath)
      | Err e => Err e
      end
  | Err e => Err e
  end.

End WithHost.
End ElectronFfmpegLib.

(** ** A concrete host

    Base64 as [base64-js] and Node produce and read it, POSIX paths without
    normalisation, and URIs resolved by appending a segment.  The examples
    are run on this host. *)

Module Sample.

Definition alphabet : list ascii :=
  String.list_ascii_of_string
    "ABCDEFGHIJKLMNOPQRSTUVWXYZabcdefghijklmnopqrstuvwxyz0123456789+/".

Definition sextet (n : N) : ascii := nth (N.to_nat n) alphabet "="%char.

Fixpoint indexOf (c : ascii) (l : list ascii) : option N :=
  match l with
  | [] => None
  | x :: l' => if bool_decide (x = c) then Some 0%N else N.succ <$> indexOf c l'
  end.

Definition toByte (n : N) : byte := default "000"%byte (Byte.of_N n).

Fixpoint encode (bs : list byte) : list ascii :=
  match bs with
  | [] => []
  | [a] =>
      let a := Byte.to_N a in
      [sextet (a / 4); sextet (a mod 4 * 16); "="%char; "="%char]
  | [a; b] =>
      let a := Byte.to_N a in
      let b := Byte.to_N b in
      [sextet (a / 4); sextet (a mod 4 * 16 + b / 16); sextet (b mod 16 * 4); "="%char]
  | a :: b :: c :: rest =>
      let a := Byte.to_N a in
      let b := Byte.to_N b in
      let c := Byte.to_N c in
      sextet (a / 4) :: sextet (a mod 4 * 16 + b / 16)
        :: sextet (b mod 16 * 4 + c / 64) :: sextet (c mod 64) :: encode rest
  end%N.

Fixpoint decode (cs : list ascii) : list byte :=
  match cs with
  | a :: b :: c :: d :: rest =>
      match indexOf a alphabet, indexOf b alphabet with
      | Some a, Some b =>
          toByte (a * 4 + b / 16)
            :: match indexOf c alphabet with
               | None => []
               | Some c =>
                   toByte (b mod 16 * 16 + c / 4)
                     :: match indexOf d alphabet with
                        | None => []
                        | Some d => [toByte (c mod 4 * 64 + d)]
                        end
               end
      | _, _ => []
      end ++ decode rest
  | _ => []
  end%N.

Definition fromByteArray (bs : list byte) : string := String.string_of_list_ascii (encode bs).
Definition toByteArray (s : string) : list byte := decode (String.list_ascii_of_string s).

Fixpoint fromSlash (l : list ascii) : list ascii :=
  match l with
  | [] => []
  | c :: l' => if bool_decide (c = "/"%char) then l else fromSlash l'
  end.

(** Everything before the last ["/"]. *)
Definition dirname (p : string) : string :=
  String.string_of_list_ascii
    (reverse (drop 1 (fromSlash (reverse (String.list_ascii_of_string p))))).

Definition fsPath (uri : string) : string :=
  if String.prefix "file://" uri then String.substring 7 (String.length uri - 7) uri
  else uri.

#[global] Instance node : NodeHost := {|
  FileUri_fsPath := fsPath;
  path_dirname := dirname;
  path_join := λ a b, a +:+ "/" +:+ b;
  base64_bytes := toByteArray;
|}.

#[global] Instance browser : BrowserHost := {|
  base64_fromByteArray := fromByteArray;
  URI_resolve := λ u segment, u +:+ "/" +:+ segment;
|}.

(** A Linux process with Electron installed below [/app]. *)
#[global] Instance process : NodeProcess := {|
  process_platform := "linux";
  require_resolve := λ module, Ok ("/app/node_modules/" +:+ module);
|}.

End Sample.

(** ** Examples

    The inputs of the examples below, on the concrete host. *)

Module Examples.
Import Server Indexer Session.

(** The upload of the scenario with three chunks: [open], then two [append]s,
    the second with the done flag. *)
Definition threeChunks : list Call :=
  [Open "file:///w/a.txt" "YWJj" false "000102030405060708090a0b0c0d0e0f";
   Append "upload_000102030405060708090a0b0c0d0e0f" "ZGVm" false;
   Append "upload_000102030405060708090a0b0c0d0e0f" "Zw==" true].

(** An upload that is opened and then closed before it is finalized. *)
Definition openedAndClosed : list Call :=
  [Open "file:///w/a.txt" "YWJj" false "000102030405060708090a0b0c0d0e0f";
   Close "upload_000102030405060708090a0b0c0d0e0f"].

(** An upload in progress on the event loop, nothing pending. *)
Definition opened : list Interleaved.Event :=
  [Interleaved.Request
     (Open "file:///w/a.txt" "YWJj" false "000102030405060708090a0b0c0d0e0f");
   Interleaved.Settle 0 None].






(** A dropped directory [d] that holds the file [a.txt]. *)
Definition droppedDirectory : WebKitEntry :=
  WebKitDirectoryEntry "d"
    [[WebKitFileEntry (Ok {| name := "a.txt"; bytes := ["a"]%byte |})]] None.

Definition quietRead : ReadStep := {| during_read := []; onerror := None |}.

(** The scenario of the empty file: one read, and [open] answered. *)
Definition emptyFile : File := {| name := "empty.txt"; bytes := [] |}.

Definition emptyDrop : Indexer.DataTransfer :=
  {| Indexer.items := None; Indexer.files := [Some emptyFile] |}.

Definition answered : EntrySchedule :=
  {| reads := [quietRead]; during_open := []; open_result := Ok "upload_000102030405060708090a0b0c0d0e0f";
     during_all := [] |}.

(** A file of three full chunks and one byte, and a schedule in which the
    two appends sent so far are answered with different errors while the
    fourth chunk is read. *)
Definition fourChunks : File :=
  {| name := "big.bin"; bytes := replicate (Z.to_nat (3 * 65536 + 1)) "000"%byte |}.

Definition fourChunksContext : Indexer.Context :=
  {| Indexer.totalSize := size fourChunks;
     Indexer.entries := [{| file := fourChunks; uri := "file:///w/big.bin" |}] |}.

Definition twoFailures : EntrySchedule :=
  {| reads := [quietRead; quietRead; quietRead;
               {| during_read := [AppendSettled 0 (Err (Failure "first"));
                                  AppendSettled 1 (Err (Failure "second"))];
                  onerror := None |}];
     during_open := []; open_result := Ok "upload_000102030405060708090a0b0c0d0e0f"; during_all := [] |}.

(** Two small files; the token is cancelled while [open] for the first one
    is pending. *)
Definition fileA : File := {| name := "a.txt"; bytes := ["a"; "b"; "c"]%byte |}.

Definition fileB : File := {| name := "b.txt"; bytes := ["d"; "e"]%byte |}.

Definition twoFiles : Indexer.Context :=
  {| Indexer.totalSize := 5;
     Indexer.entries := [{| file := fileA; uri := "file:///w/a.txt" |};
                         {| file := fileB; uri := "file:///w/b.txt" |}] |}.

Definition cancelledInOpen : EntrySchedule :=
  {| reads := [quietRead]; during_open := [CancelRequested];
     open_result := Ok "upload_000102030405060708090a0b0c0d0e0f"; during_all := [] |}.

(** The two small files uploaded without a fault: the ids the server
    returns, and the schedules on which every request is answered. *)
Definition twoIds : list string :=
  ["upload_000102030405060708090a0b0c0d0e0f"; "upload_f0e0d0c0b0a090807060504030201000"].

Definition twoAnswered : list EntrySchedule :=
  zip_with (λ entry i, answeredAll i (sliceBound (file entry)))
    (Indexer.entries twoFiles) twoIds.

(** The web socket variant with the token cancelled: an empty file, then
    the file [a.txt], whose first read is answered. *)
Definition emptyThenA : list UploadEntry :=
  [{| file := emptyFile; uri := "file:///w/empty.txt" |};
   {| file := fileA; uri := "file:///w/a.txt" |};
   {| file := fileB; uri := "file:///w/b.txt" |}].

Definition oneRead : list (list SocketSession.ChunkStep) :=
  [[]; [{| SocketSession.during_read := []; SocketSession.onerror := None;
           SocketSession.polls := [] |}]].

Definition cancelledSocket : SocketSession.State :=
  {| SocketSession.cancellationRequested := true; SocketSession.readyState := 1;
     SocketSession.log := [] |}.

(** An upload of [a.txt] over the web socket: the read is answered, the
    server reports the three bytes and says ok, and the socket closes. *)
Definition onlyA : Indexer.Context :=
  {| Indexer.totalSize := 3;
     Indexer.entries := [{| file := fileA; uri := "file:///w/a.txt" |}] |}.

Definition okThenClosed : list SocketSession.Event :=
  [SocketSession.Message
     {| SocketSession.response_done := Some 3%Z; SocketSession.response_ok := None;
        SocketSession.response_error := None |};
   SocketSession.Message
     {| SocketSession.response_done := None; SocketSession.response_ok := Some true;
        SocketSession.response_error := None |};
   SocketSession.SocketClosed 1000 ""].

(** The listing of a directory with the files [a.txt] and [b.txt], handed
    out in one batch, and handed out one by one by a reader that would go on
    after an empty batch. *)
Definition inOneBatch : list (list WebKitEntry) :=
  [[WebKitFileEntry (Ok fileA); WebKitFileEntry (Ok fileB)]].

Definition oneByOne : list (list WebKitEntry) :=
  [[WebKitFileEntry (Ok fileA)]; [WebKitFileEntry (Ok fileB)]; [];
   [WebKitFileEntry (Ok fileA)]].

(** A drop of the directory [d] and of a null item. *)
Definition directoryDrop : Indexer.DataTransfer :=
  {| Indexer.items := Some [Some droppedDirectory; None]; Indexer.files := [] |}.

End Examples.

(** * Properties *)

(** ** The server: registry and staged writer *)

Section ServerFacts.
Context `{NodeHost}.
Import Server.

Lemma call_dispose_spec (u : NodeFileUpload) (d : Fs.Disk) :
  call_dispose u d =
    match dispose u with
    | UnlinkUploadPath => delete (uploadPath u) d
    | PromiseResolve => d
    end.
Proof.
  unfold call_dispose, Fs.unlink. destruct (dispose u); [|done].
  destruct (d !! uploadPath u) eqn:E; [done|]. by rewrite delete_id.
Qed.

Lemma close_spec (i : string) (s : State) :
  close i s =
    ({| uploads := uploads s;
        disk := match uploads s !! i with
                | Some u => call_dispose u (disk s)
                | None => disk s
                end |}, Ok tt).
Proof. unfold close. destruct (uploads s !! i); [done|]. by destruct s. Qed.

(** The move of [rename] finds the temporary file whenever the chunk of the
    same request has just been written. *)
Lemma rename_after_write (u : NodeFileUpload) (d : Fs.Disk) (data : list byte) :
  d !! uploadPath u = Some data →
  rename u d =
    Ok ({| id := id u; fsPath := fsPath u; uploadPath := uploadPath u;
           dispose := PromiseResolve |},
        <[fsPath u := data]> (delete (uploadPath u) d)).
Proof. intros E. unfold rename, Fs.move. by rewrite E. Qed.

Lemma finish_done (u : NodeFileUpload) (s : State) (data : list byte) :
  disk s !! uploadPath u = Some data →
  finish u true s =
    ({| uploads := <[id u := {| id := id u; fsPath := fsPath u;
                                uploadPath := uploadPath u;
                                dispose := PromiseResolve |}]> (uploads s);
        disk := <[fsPath u := data]> (delete (uploadPath u) (disk s)) |}, Ok tt).
Proof.
  intros E. unfold finish. rewrite (rename_after_write _ _ _ E).
  rewrite close_spec. cbn. rewrite lookup_insert_eq.
  by rewrite call_dispose_spec.
Qed.

Lemma open_spec (uri content : string) (done : bool) (hex : string) (s : State) :
  let u := newNodeFileUpload (FileUri_fsPath uri) hex in
  open uri content done hex s =
    (if done then
       {| uploads := <[id u := {| id := id u; fsPath := fsPath u;
                                   uploadPath := uploadPath u;
                                   dispose := PromiseResolve |}]> (uploads s);
          disk := <[fsPath u := base64_bytes content]>
                    (delete (uploadPath u) (disk s)) |}
     else
       {| uploads := <[id u := u]> (uploads s);
          disk := <[uploadPath u := base64_bytes content]> (disk s) |},
     Ok (id u)).
Proof.
  intros u. unfold open. fold u. destruct done.
  - erewrite finish_done; last by (cbn; unfold create, Fs.outputFile; apply lookup_insert_eq).
    cbn. unfold create, Fs.outputFile.
    by rewrite insert_insert_eq, delete_insert_eq.
  - done.
Qed.

Lemma append_spec (i content : string) (done : bool) (s : State) (u : NodeFileUpload) :
  uploads s !! i = Some u →
  let data := default [] (disk s !! uploadPath u) ++ base64_bytes content in
  append i content done s =
    (if done then
       {| uploads := <[id u := {| id := id u; fsPath := fsPath u;
                                   uploadPath := uploadPath u;
                                   dispose := PromiseResolve |}]> (uploads s);
          disk := <[fsPath u := data]> (delete (uploadPath u) (disk s)) |}
     else
       {| uploads := uploads s; disk := <[uploadPath u := data]> (disk s) |},
     Ok tt).
Proof.
  intros E data. unfold append. rewrite E. destruct done.
  - erewrite finish_done; last by (cbn; unfold append_upload, Fs.appendFile; apply lookup_insert_eq).
    cbn. unfold append_upload, Fs.appendFile. fold data.
    by rewrite delete_insert_eq.
  - done.
Qed.

Lemma append_unknown (i content : string) (done : bool) (s : State) :
  uploads s !! i = None →
  append i content done s = (s, Err (Failure ("upload '" +:+ i +:+ "' does not exist"))).
Proof. intros E. unfold append. by rewrite E. Qed.

Lemma step_wellFormed (c : Call) (s : State) :
  wellFormed s → wellFormed (step c s).
Proof.
  unfold wellFormed.
  intros Hwf. destruct c as [uri content done hex|i content done|i]; simpl.
  - rewrite open_spec. simpl.
    destruct done; simpl; intros j u; rewrite lookup_insert;
      (case_decide; [intros [= <-]; by subst|by apply Hwf]).
  - destruct (uploads s !! i) as [u|] eqn:E.
    + rewrite (append_spec _ _ _ _ _ E). simpl.
      destruct done; simpl; [|done].
      destruct (Hwf _ _ E) as [Hid Hpath].
      intros j v; rewrite lookup_insert.
      case_decide; [intros [= <-]; by subst|by apply Hwf].
    + by rewrite append_unknown.
  - by rewrite close_spec.
Qed.

Lemma reachable_wellFormed (s : State) : reachable s → wellFormed s.
Proof.
  intros (d & cs & ->). induction cs as [|c cs IH] using rev_ind.
  - intros i u. simpl. by rewrite lookup_empty.
  - unfold run. rewrite foldl_app. simpl. by apply step_wellFormed.
Qed.


End ServerFacts.

(** No request removes an id from the registry: [close] only calls
    [dispose], and the closure that deletes the map entry is pushed to
    [toDispose], which nothing but [dispose()] of the server runs. *)
Lemma registry_never_shrinks `{NodeHost} (c : Server.Call) (s : Server.State) (i : string) :
  is_Some (Server.uploads s !! i) → is_Some (Server.uploads (Server.step c s) !! i).
Proof.
  intros Hi. destruct c as [uri content done hex|j content done|j]; simpl.
  - rewrite open_spec. destruct done; simpl; rewrite lookup_insert; by case_decide.
  - destruct (Server.uploads s !! j) as [u|] eqn:E; last by rewrite append_unknown.
    rewrite (append_spec _ _ _ _ _ E). destruct done; simpl; [|done].
    rewrite lookup_insert; by case_decide.
  - by rewrite close_spec.
Qed.

Lemma step_registry `{NodeHost} (c : Server.Call) (s : Server.State) (i : string) :
  Server.wellFormed s →
  is_Some (Server.uploads (Server.step c s) !! i) ↔
    is_Some (Server.uploads s !! i)
    ∨ ∃ uri content flag hex, c = Server.Open uri content flag hex ∧ i = "upload_" +:+ hex.
Proof.
  intros Hwf. destruct c as [uri content flag hex|j content flag|j]; simpl.
  - rewrite open_spec.
    assert (Hins : ∀ u, is_Some (<["upload_" +:+ hex := u]> (Server.uploads s) !! i) ↔
              is_Some (Server.uploads s !! i)
              ∨ ∃ uri' content' flag' hex',
                  Server.Open uri content flag hex = Server.Open uri' content' flag' hex'
                  ∧ i = "upload_" +:+ hex').
    { intros u. rewrite lookup_insert. case_decide as Hi.
      - split; [|by eauto]. intros _. right. by exists uri, content, flag, hex.
      - split; [by left|]. intros [?|(? & ? & ? & ? & [= <- <- <- <-] & ->)]; done. }
    destruct flag; simpl; apply Hins.
  - assert (Hno : ¬ ∃ uri content' flag' hex,
              Server.Append j content flag = Server.Open uri content' flag' hex
              ∧ i = "upload_" +:+ hex) by (by intros (? & ? & ? & ? & ? & _)).
    destruct (Server.uploads s !! j) as [u|] eqn:E.
    + rewrite (append_spec _ _ _ _ _ E). destruct (Hwf _ _ E) as [Hid _].
      destruct flag; simpl; [|tauto].
      rewrite Hid, lookup_insert. case_decide as Hi; [|tauto].
      subst i. rewrite E. split; [by left|by eauto].
    + rewrite append_unknown by done. tauto.
  - rewrite close_spec. simpl. split; [by left|].
    intros [?|(? & ? & ? & ? & ? & _)]; done.
Qed.

(** The registry of a server holds exactly the ids that [open] has created:
    no [append] and no [close] ever removes one. *)
Lemma registry_ids `{NodeHost} (cs : list Server.Call) (d : Fs.Disk) (i : string) :
  is_Some (Server.uploads (Server.run cs (Server.init d)) !! i) ↔
    ∃ uri content flag hex, Server.Open uri content flag hex ∈ cs ∧ i = "upload_" +:+ hex.
Proof.
  induction cs as [|c cs IH] using rev_ind.
  - simpl. rewrite lookup_empty. split; [by intros [? ?]|].
    intros (? & ? & ? & ? & Hin & _). by apply elem_of_nil in Hin.
  - unfold Server.run. rewrite foldl_app. simpl.
    rewrite step_registry by (apply reachable_wellFormed; by exists d, cs).
    fold (Server.run cs (Server.init d)). rewrite IH. split.
    + intros [(uri & content & flag & hex & Hin & ->)|(uri & content & flag & hex & -> & ->)];
        exists uri, content, flag, hex; (split; [|done]); apply elem_of_app.
      * by left.
      * right. by apply list_elem_of_singleton.
    + intros (uri & content & flag & hex & Hin & ->).
      apply elem_of_app in Hin as [Hin|Hin%list_elem_of_singleton].
      * left. by exists uri, content, flag, hex.
      * right. by exists uri, content, flag, hex.
Qed.

(** An id that was never opened is not in the registry; [append] on it throws
    and leaves the state, the disk included, as it was. *)
Lemma append_never_opened `{NodeHost} (i content : string) (done : bool) (s : Server.State) :
  Server.uploads s !! i = None →
  ∃ e, Server.append i content done s = (s, Err e).
Proof. intros E. eexists. by apply append_unknown. Qed.

Section ServerExamples.
Import Server Examples.

(** C2. After the finalizing [append] of the three-chunk upload the file is at
    its destination and the temporary file is gone, but the registry still
    maps the id to the record of the upload.  After an upload that was opened
    is closed, the temporary file is gone and the registry still maps the id
    to the record, whose [dispose] is still the one that unlinks. *)
Theorem finalized_record_stays_registered :
  let s := run threeChunks (init ∅) in
  let s' := run openedAndClosed (init ∅) in
  disk s !! "/w/a.txt" = Some ["a"; "b"; "c"; "d"; "e"; "f"; "g"]%byte
  ∧ disk s !! "/w/upload_000102030405060708090a0b0c0d0e0f" = None
  ∧ uploads s !! "upload_000102030405060708090a0b0c0d0e0f" =
      Some {| id := "upload_000102030405060708090a0b0c0d0e0f"; fsPath := "/w/a.txt";
              uploadPath := "/w/upload_000102030405060708090a0b0c0d0e0f";
              dispose := PromiseResolve |}
  ∧ disk s' = ∅
  ∧ uploads s' !! "upload_000102030405060708090a0b0c0d0e0f" =
      Some {| id := "upload_000102030405060708090a0b0c0d0e0f"; fsPath := "/w/a.txt";
              uploadPath := "/w/upload_000102030405060708090a0b0c0d0e0f";
              dispose := UnlinkUploadPath |}.
Proof. vm_compute. done. Qed.

(** C4. [append] on an id that was opened and then closed does not throw: it
    finds the record and writes the chunk to the temporary path, which exists
    again afterwards. *)
Theorem append_after_close_writes :
  let s := run openedAndClosed (init ∅) in
  disk s = ∅
  ∧ (append "upload_000102030405060708090a0b0c0d0e0f" "ZGVm" false s).2 = Ok tt
  ∧ disk (append "upload_000102030405060708090a0b0c0d0e0f" "ZGVm" false s).1
      !! "/w/upload_000102030405060708090a0b0c0d0e0f"
      = Some ["d"; "e"; "f"]%byte.
Proof. vm_compute. done. Qed.


End ServerExamples.

(** ** The server: the handlers on the event loop *)

Section InterleavedFacts.
Context `{NodeHost}.
Import Server Interleaved.

Lemma events_cons (ev : Event) (evs : list Event) (s : State) :
  run (ev :: evs) s = run evs (step ev s).
Proof. done. Qed.

Lemma events_app (evs1 evs2 : list Event) (s : State) :
  run (evs1 ++ evs2) s = run evs2 (run evs1 s).
Proof. unfold run. by rewrite foldl_app. Qed.

Lemma written_record (t : Task) (a : Action) (s : State) :
  written t s → written t (record a s).
Proof.
  intros (q & Hq & Hin). exists q. split; [done|]. simpl. apply elem_of_app. by left.
Qed.

Lemma wellFormed_record (a : Action) (s : State) :
  wellFormed s → wellFormed (record a s).
Proof.
  intros (W1 & W2 & W3). split; [done|]. split; [done|].
  intros k t Hk. destruct (W3 k t Hk) as (Hu & Hr & Hren).
  split; [done|]. split; [done|].
  intros Hp. destruct (Hren Hp) as [Hd Hw]. split; [done|]. by apply written_record.
Qed.

Lemma wellFormed_start (t : Task) (s : State) :
  wellFormed s →
  (∃ u, objects s !! upload t = Some u ∧ id u = idOf (call t)) →
  requests s !! request t = Some (call t) →
  (point t = AtRename → doneOf (call t) = true ∧ written t s) →
  wellFormed (start t s).
Proof.
  intros (W1 & W2 & W3) Hu Hr Hren. split; [done|]. split; [done|].
  intros k t' Hk. simpl in Hk. apply lookup_app_Some in Hk as [Hk|[_ Hk]].
  - apply (W3 k t' Hk).
  - apply list_lookup_singleton_Some in Hk as [_ <-]. done.
Qed.

Lemma wellFormed_call_dispose (n : nat) (c : Call) (r : nat) (s : State) :
  wellFormed s →
  (∃ u, objects s !! r = Some u ∧ id u = idOf c) →
  requests s !! n = Some c →
  wellFormed (call_dispose n c r s).
Proof.
  intros Hwf (u & Hu & Hid) Hn. unfold call_dispose. rewrite Hu.
  destruct (dispose u); [|done].
  apply wellFormed_start; simpl; [done|by exists u|done|done].
Qed.

Lemma wellFormed_close (n : nat) (c : Call) (i : string) (s : State) :
  wellFormed s → i = idOf c → requests s !! n = Some c →
  wellFormed (close n c i s).
Proof.
  intros Hwf -> Hn. unfold close.
  destruct (uploads s !! idOf c) as [r|] eqn:E; [|done].
  apply wellFormed_call_dispose; [done| |done].
  destruct Hwf as (W1 & _). apply (W1 _ _ E).
Qed.

Lemma receive_wellFormed (c : Call) (s : State) :
  wellFormed s → wellFormed (receive c s).
Proof.
  intros Hwf.
  set (s0 := {| objects := objects s; uploads := uploads s; disk := disk s;
                pending := pending s; requests := requests s ++ [c]; log := log s |}).
  assert (Hwf0 : wellFormed s0).
  { destruct Hwf as (W1 & W2 & W3). split; [done|]. split; [done|].
    intros k t Hk. destruct (W3 k t Hk) as (Hu & Hr & Hren).
    split; [done|]. split; [|done]. simpl. by apply lookup_app_l_Some. }
  assert (Hn : requests s0 !! length (requests s) = Some c).
  { simpl. rewrite lookup_app_r by done. by rewrite Nat.sub_diag. }
  unfold receive. fold s0.
  destruct c as [uri content done hex|i content done|i].
  - set (u := newNodeFileUpload (FileUri_fsPath uri) hex).
    apply wellFormed_start; simpl.
    + destruct Hwf0 as (W1 & W2 & W3). split; [|split]; simpl.
      * intros i r. rewrite lookup_insert. case_decide as Hi.
        -- intros [= <-]. exists u. split; [|done].
           rewrite lookup_app_r by done. by rewrite Nat.sub_diag.
        -- intros Hr. destruct (W1 i r Hr) as (v & Hv & Hid).
           exists v. split; [by apply lookup_app_l_Some|done].
      * intros r v Hv. apply lookup_app_Some in Hv as [Hv|[_ Hv]]; [by apply (W2 r)|].
        apply list_lookup_singleton_Some in Hv as [_ <-]. done.
      * intros k t Hk. destruct (W3 k t Hk) as ((v & Hv & Hid) & Hr & Hren).
        split; [|done]. exists v. split; [by apply lookup_app_l_Some|done].
    + exists u. split; [|done]. rewrite lookup_app_r by done. by rewrite Nat.sub_diag.
    + done.
    + done.
  - destruct (uploads s0 !! i) as [r|] eqn:E.
    + apply wellFormed_start; simpl; [done| |done|done].
      destruct Hwf0 as (W1 & _). apply (W1 _ _ E).
    + by apply wellFormed_record.
  - apply wellFormed_record. by apply wellFormed_close.
Qed.

Lemma settle_wellFormed (k : nat) (failure : option Error) (s : State) :
  wellFormed s → wellFormed (settle k failure s).
Proof.
  intros Hwf. unfold settle.
  destruct (pending s !! k) as [t|] eqn:Ek; [|done].
  destruct (objects s !! upload t) as [u|] eqn:Eu; [|done].
  destruct (proj2 (proj2 Hwf) k t Ek) as ((u' & Eu' & Hid) & Hreq & Hren).
  rewrite Eu in Eu'. injection Eu' as <-.
  set (result := perform t u failure (disk s)).
  set (s1 := {| objects := objects s; uploads := uploads s; disk := disk s;
                pending := delete k (pending s); requests := requests s;
                log := log s ++ [Settled t (failureOf result)] |}).
  assert (Hwf1 : wellFormed s1).
  { destruct Hwf as (W1 & W2 & W3). split; [done|]. split; [done|].
    intros k' t' Hk'. simpl in Hk'.
    assert (Hin : ∃ j, pending s !! j = Some t').
    { destruct (decide (k' < k)) as [Hlt|Hge].
      - exists k'. by rewrite list_lookup_delete_lt in Hk'.
      - exists (S k'). rewrite list_lookup_delete_ge in Hk' by lia. done. }
    destruct Hin as [j Hj]. destruct (W3 j t' Hj) as (Hu & Hr & Hren').
    split; [done|]. split; [done|].
    intros Hp. destruct (Hren' Hp) as [Hd (q & Hq & Hw)]. split; [done|].
    exists q. split; [done|]. simpl. apply elem_of_app. by left. }
  assert (Hdisk : ∀ d, wellFormed
            {| objects := objects s1; uploads := uploads s1; disk := d;
               pending := pending s1; requests := requests s1; log := log s1 |}).
  { intros d. destruct Hwf1 as (W1 & W2 & W3). split; [done|]. split; [done|].
    intros k' t' Hk'. destruct (W3 k' t' Hk') as (Hu & Hr & Hren').
    split; [done|]. split; [done|].
    intros Hp. destruct (Hren' Hp) as [Hd (q & Hq & Hw)]. split; [done|]. by exists q. }
  unfold resume. destruct result as [d|e] eqn:Er.
  - assert (Hwritten : point t = AtCreate ∨ point t = AtAppend →
        wellFormed
          (if doneOf (call t)
           then start {| request := request t; call := call t; upload := upload t;
                         point := AtRename |}
                  {| objects := objects s1; uploads := uploads s1; disk := d;
                     pending := pending s1; requests := requests s1; log := log s1 |}
           else record (Answered (request t) (Ok (returned (call t) u)))
                  {| objects := objects s1; uploads := uploads s1; disk := d;
                     pending := pending s1; requests := requests s1; log := log s1 |})).
    { intros Hq. destruct (doneOf (call t)) eqn:Ed.
      - apply wellFormed_start; simpl; [apply Hdisk|by exists u|done|].
        intros _. split; [done|]. exists (point t). split; [done|]. simpl.
        apply elem_of_app. right. apply list_elem_of_singleton. by destruct t.
      - apply wellFormed_record, Hdisk. }
    destruct (point t) eqn:Ep.
    + apply Hwritten. by left.
    + apply Hwritten. by right.
    + apply wellFormed_record. apply wellFormed_close; [|done|done].
      destruct (Hdisk d) as (W1 & W2 & W3). split; [|split]; simpl.
      * intros i r Hr. destruct (W1 i r Hr) as (v & Hv & Hidv). simpl in Hv.
        destruct (decide (r = upload t)) as [->|Hne].
        -- exists (finalized u). rewrite list_lookup_insert_eq by (by eapply lookup_lt_Some).
           split; [done|]. simpl. rewrite Eu in Hv. by injection Hv as <-.
        -- exists v. by rewrite list_lookup_insert_ne.
      * intros r v. destruct (decide (r = upload t)) as [->|Hne].
        -- rewrite list_lookup_insert_eq by (by eapply lookup_lt_Some).
           intros [= <-]. simpl. by apply (W2 (upload t)).
        -- rewrite list_lookup_insert_ne by done. apply W2.
      * intros k' t' Hk'. destruct (W3 k' t' Hk') as ((v & Hv & Hidv) & Hr & Hren').
        split; [|done]. simpl in Hv.
        destruct (decide (upload t' = upload t)) as [Heq|Hne].
        -- exists (finalized u). rewrite Heq.
           rewrite list_lookup_insert_eq by (by eapply lookup_lt_Some).
           split; [done|]. simpl. rewrite Heq, Eu in Hv. by injection Hv as <-.
        -- exists v. by rewrite list_lookup_insert_ne.
    + apply Hdisk.
  - destruct (point t); try by apply wellFormed_record. done.
Qed.

Lemma init_wellFormed (d : Fs.Disk) : wellFormed (init d).
Proof.
  split; [|split]; simpl.
  - intros i r. by rewrite lookup_empty.
  - intros r u. by rewrite lookup_nil.
  - intros k t. by rewrite lookup_nil.
Qed.

Lemma step_loop_wellFormed (ev : Event) (s : State) :
  wellFormed s → wellFormed (step ev s).
Proof. destruct ev; [apply receive_wellFormed|apply settle_wellFormed]. Qed.

Lemma run_wellFormed (evs : list Event) (s : State) :
  wellFormed s → wellFormed (run evs s).
Proof.
  revert s. induction evs as [|ev evs IH]; intros s Hwf; [done|].
  rewrite events_cons. by apply IH, step_loop_wellFormed.
Qed.

Lemma loop_wellFormed (s : State) : reachable s → wellFormed s.
Proof. intros (d & evs & ->). apply run_wellFormed, init_wellFormed. Qed.

Lemma call_dispose_disk (n : nat) (c : Call) (r : nat) (s : State) :
  disk (call_dispose n c r s) = disk s.
Proof. unfold call_dispose. destruct (objects s !! r) as [u|]; [|done]. by destruct (dispose u). Qed.

Lemma close_disk (n : nat) (c : Call) (i : string) (s : State) :
  disk (close n c i s) = disk s.
Proof. unfold close. destruct (uploads s !! i); [apply call_dispose_disk|done]. Qed.

(** The arrival of a request changes no file: the handler runs up to the
    call of [fs-extra] it awaits, and that call has yet to settle. *)
Lemma receive_disk (c : Call) (s : State) : disk (receive c s) = disk s.
Proof.
  unfold receive. destruct c as [uri content done hex|i content done|i]; simpl.
  - done.
  - by destruct (uploads s !! i).
  - by rewrite close_disk.
Qed.




End InterleavedFacts.

Section InterleavedOneAtATime.
Context `{NodeHost}.
Import Server Interleaved.

Lemma atomic_lookup (s : State) (i : string) :
  Server.uploads (atomic s) !! i = uploads s !! i ≫= (λ r, objects s !! r).
Proof. unfold atomic. simpl. apply lookup_omap. Qed.

Lemma settle_at (k : nat) (t : Task) (u : NodeFileUpload) (failure : option Error)
  (s : State) :
  pending s !! k = Some t → objects s !! upload t = Some u →
  settle k failure s =
    resume t u (perform t u failure (disk s))
      {| objects := objects s; uploads := uploads s; disk := disk s;
         pending := delete k (pending s); requests := requests s;
         log := log s ++ [Settled t (failureOf (perform t u failure (disk s)))] |}.
Proof. intros Hk Hu. unfold settle. by rewrite Hk, Hu. Qed.

Lemma settle_idle (k : nat) (failure : option Error) (s : State) :
  pending s = [] → settle k failure s = s.
Proof. intros Hp. unfold settle. by rewrite Hp, lookup_nil. Qed.

Lemma answers_record (a : Action) (s : State) :
  answers (record a s) =
    answers s ++ match a with Answered n r => [(n, r)] | Settled _ _ => [] end.
Proof.
  unfold answers. simpl. rewrite omap_app. f_equal. by destruct a.
Qed.

Lemma handled_open (uri content : string) (done : bool) (hex : string) (s : State) :
  wellFormed s → pending s = [] →
  let c := Open uri content done hex in
  let u := newNodeFileUpload (FileUri_fsPath uri) hex in
  let s1 := step (Request c) s in
  let s2 := step (Settle 0 None) s1 in
  let s3 := step (Settle 0 None) s2 in
  disk s2 = <[uploadPath u := base64_bytes content]> (disk s)
  ∧ atomic s3 = Server.step c (atomic s)
  ∧ pending s3 = []
  ∧ requests s3 = requests s ++ [c]
  ∧ answers s3 = answers s ++ [(length (requests s), Ok (Some (id u)))].
Proof.
  intros (W1 & W2 & W3) Hp c u s1 s2 s3.
  set (r := length (objects s)).
  set (n := length (requests s)).
  set (t := {| request := n; call := c; upload := r; point := AtCreate |}).
  assert (Hs1 : s1 = {| objects := objects s ++ [u]; uploads := <[id u := r]> (uploads s);
                        disk := disk s; pending := [t]; requests := requests s ++ [c];
                        log := log s |}).
  { subst s1. unfold step, receive, start. simpl. by rewrite Hp. }
  assert (Hr : (objects s ++ [u]) !! r = Some u).
  { rewrite lookup_app_r by done. subst r. by rewrite Nat.sub_diag. }
  assert (Hups : omap (λ r', (objects s ++ [u]) !! r') (uploads s)
                 = omap (λ r', objects s !! r') (uploads s)).
  { apply map_eq. intros i. rewrite !lookup_omap.
    destruct (uploads s !! i) as [r'|] eqn:E; [|done]. simpl.
    destruct (W1 _ _ E) as (v & Hv & _). rewrite Hv. by apply lookup_app_l_Some. }
  assert (Hups' : omap (λ r', <[r := finalized u]> (objects s ++ [u]) !! r') (uploads s)
                 = omap (λ r', objects s !! r') (uploads s)).
  { apply map_eq. intros i. rewrite !lookup_omap.
    destruct (uploads s !! i) as [r'|] eqn:E; [|done]. simpl.
    destruct (W1 _ _ E) as (v & Hv & _). rewrite Hv.
    rewrite list_lookup_insert_ne; [by apply lookup_app_l_Some|].
    apply lookup_lt_Some in Hv. subst r. lia. }
  assert (Hlen : r < length (objects s ++ [u])).
  { rewrite length_app. simpl. subst r. lia. }
  change (Server.step c (atomic s)) with (open uri content done hex (atomic s)).1.
  rewrite open_spec. fold u.
  subst s2 s3. rewrite Hs1. cbn [step].
  rewrite (settle_at 0 t u); [|done|done].
  unfold resume, perform, create, Fs.outputFile. simpl.
  destruct done; simpl.
  - set (t' := {| request := n; call := c; upload := r; point := AtRename |}).
    rewrite (settle_at 0 t' u); [|done|done].
    unfold resume, perform, Fs.move. simpl. rewrite lookup_insert_eq. simpl.
    unfold close, call_dispose. simpl. rewrite lookup_insert_eq.
    rewrite list_lookup_insert_eq by done. simpl.
    split; [done|]. split.
    { unfold atomic. simpl. f_equal.
      - rewrite omap_insert. rewrite list_lookup_insert_eq by done. by rewrite Hups'.
      - by rewrite delete_insert_eq. }
    split; [done|]. split; [done|].
    rewrite answers_record. unfold answers. simpl. rewrite !omap_app. simpl.
    by rewrite !app_nil_r.
  - rewrite settle_idle by done.
    split; [done|]. split.
    { unfold atomic. simpl. f_equal.
      rewrite omap_insert, Hr. by rewrite Hups. }
    split; [done|]. split; [done|].
    rewrite answers_record. unfold answers. simpl. rewrite !omap_app. simpl.
    by rewrite !app_nil_r.
Qed.

Lemma handled_append (i content : string) (done : bool) (s : State) :
  wellFormed s → pending s = [] →
  let c := Append i content done in
  let s1 := step (Request c) s in
  let s2 := step (Settle 0 None) s1 in
  let s3 := step (Settle 0 None) s2 in
  disk s2 =
    match Server.uploads (atomic s) !! i with
    | Some u => <[uploadPath u := default [] (disk s !! uploadPath u) ++ base64_bytes content]>
                  (disk s)
    | None => disk s
    end
  ∧ atomic s3 = Server.step c (atomic s)
  ∧ pending s3 = []
  ∧ requests s3 = requests s ++ [c]
  ∧ answers s3 =
      answers s ++ [(length (requests s),
                     match Server.uploads (atomic s) !! i with
                     | Some _ => Ok None
                     | None => Err (Failure ("upload '" +:+ i +:+ "' does not exist"))
                     end)].
Proof.
  intros (W1 & W2 & W3) Hp c s1 s2 s3.
  set (n := length (requests s)).
  change (Server.step c (atomic s)) with (append i content done (atomic s)).1.
  pose proof (atomic_lookup s i) as Hat.
  destruct (uploads s !! i) as [r|] eqn:E; cbn [mbind option_bind] in Hat.
  - destruct (W1 _ _ E) as (u & Hu & Hid). rewrite Hu in Hat. rewrite Hat.
    rewrite (append_spec _ _ _ _ _ Hat). clear Hat. subst i.
    set (t := {| request := n; call := c; upload := r; point := AtAppend |}).
    assert (Hs1 : s1 = {| objects := objects s; uploads := uploads s;
                          disk := disk s; pending := [t]; requests := requests s ++ [c];
                          log := log s |}).
    { subst s1. unfold step, receive, start. simpl. by rewrite E, Hp. }
    assert (Hlen : r < length (objects s)) by (by eapply lookup_lt_Some).
    assert (Hups' : omap (λ r', <[r := finalized u]> (objects s) !! r') (uploads s)
                   = <[id u := finalized u]> (omap (λ r', objects s !! r') (uploads s))).
    { apply map_eq. intros j. rewrite lookup_insert, !lookup_omap. case_decide as Hj.
      - subst j. rewrite E. simpl. by rewrite list_lookup_insert_eq.
      - destruct (uploads s !! j) as [r'|] eqn:E'; [|done]. simpl.
        destruct (W1 _ _ E') as (v & Hv & Hidv).
        rewrite list_lookup_insert_ne; [done|].
        intros ->. rewrite Hu in Hv. injection Hv as <-. congruence. }
    subst s2 s3. rewrite Hs1. cbn [step].
    rewrite (settle_at 0 t u); [|done|done].
    unfold resume, perform, append_upload, Fs.appendFile. simpl.
    destruct done; simpl.
    + set (t' := {| request := n; call := c; upload := r; point := AtRename |}).
      rewrite (settle_at 0 t' u); [|done|done].
      unfold resume, perform, Fs.move. simpl. rewrite lookup_insert_eq. simpl.
      unfold close, call_dispose. simpl. rewrite E.
      rewrite list_lookup_insert_eq by done. simpl.
      split; [done|]. split.
      { unfold atomic. simpl. f_equal; [by rewrite Hups'|]. by rewrite delete_insert_eq. }
      split; [done|]. split; [done|].
      rewrite answers_record. unfold answers. simpl. rewrite !omap_app. simpl.
      by rewrite !app_nil_r.
    + rewrite settle_idle by done.
      split; [done|]. split; [done|]. split; [done|]. split; [done|].
      rewrite answers_record. unfold answers. simpl. rewrite !omap_app. simpl.
      by rewrite !app_nil_r.
  - rewrite Hat. rewrite append_unknown by done.
    assert (Hs1 : s1 = record (Answered n (Err (Failure ("upload '" +:+ i +:+ "' does not exist"))))
                         {| objects := objects s; uploads := uploads s;
                            disk := disk s; pending := pending s;
                            requests := requests s ++ [c]; log := log s |}).
    { subst s1. unfold step, receive. simpl. by rewrite E. }
    subst s2 s3. rewrite Hs1. cbn [step].
    rewrite !settle_idle by done.
    split; [done|]. split; [done|]. split; [done|]. split; [done|].
    by rewrite answers_record.
Qed.

Lemma handled_close (i : string) (s : State) :
  wellFormed s → pending s = [] →
  let c := Close i in
  let s1 := step (Request c) s in
  let s2 := step (Settle 0 None) s1 in
  let s3 := step (Settle 0 None) s2 in
  answers s1 = answers s ++ [(length (requests s), Ok None)]
  ∧ disk s2 = Server.disk (Server.step c (atomic s))
  ∧ atomic s3 = Server.step c (atomic s)
  ∧ pending s3 = []
  ∧ requests s3 = requests s ++ [c]
  ∧ answers s3 = answers s ++ [(length (requests s), Ok None)].
Proof.
  intros (W1 & W2 & W3) Hp c s1 s2 s3.
  set (n := length (requests s)).
  change (Server.step c (atomic s)) with (Server.close i (atomic s)).1.
  rewrite close_spec. cbn [fst Server.disk].
  pose proof (atomic_lookup s i) as Hat.
  set (s0 := {| objects := objects s; uploads := uploads s;
                disk := disk s; pending := pending s;
                requests := requests s ++ [c]; log := log s |}).
  assert (Hidle : ∀ s', s1 = record (Answered n (Ok None)) s' → pending s' = [] →
            answers s' = answers s → disk s' = disk s → atomic s' = atomic s →
            requests s' = requests s ++ [c] →
            answers s1 = answers s ++ [(n, Ok None)]
            ∧ disk s2 = disk s ∧ atomic s3 = atomic s ∧ pending s3 = []
            ∧ requests s3 = requests s ++ [c]
            ∧ answers s3 = answers s ++ [(n, Ok None)]).
  { intros s' Hs1 Hp' Ha Hd Hat' Hr. subst s2 s3. rewrite Hs1. cbn [step].
    rewrite !settle_idle by done. rewrite answers_record, Ha.
    split; [done|]. split; [done|]. split; [done|]. done. }
  destruct (uploads s !! i) as [r|] eqn:E; cbn [mbind option_bind] in Hat.
  - destruct (W1 _ _ E) as (u & Hu & Hid). rewrite Hu in Hat. rewrite Hat.
    rewrite call_dispose_spec.
    destruct (dispose u) eqn:Ed.
    + set (t := {| request := n; call := c; upload := r; point := Unawaited |}).
      assert (Hs1 : s1 = record (Answered n (Ok None))
                           {| objects := objects s; uploads := uploads s;
                              disk := disk s; pending := [t];
                              requests := requests s ++ [c]; log := log s |}).
      { subst s1. unfold step, receive, close, call_dispose, start. simpl.
        by rewrite E, Hu, Ed, Hp. }
      subst s2 s3. rewrite Hs1. cbn [step]. rewrite answers_record.
      split; [done|].
      rewrite (settle_at 0 t u); [|done|done].
      unfold resume, perform, Fs.unlink. simpl.
      destruct (disk s !! uploadPath u) as [data|] eqn:Edisk; simpl.
      * rewrite settle_idle by done.
        split; [done|]. split; [done|]. split; [done|]. split; [done|].
        unfold answers. simpl. rewrite !omap_app. simpl. by rewrite !app_nil_r.
      * rewrite settle_idle by done. rewrite delete_id by done.
        split; [done|]. split; [by destruct s|]. split; [done|]. split; [done|].
        unfold answers. simpl. rewrite !omap_app. simpl. by rewrite !app_nil_r.
    + assert (Hs1 : s1 = record (Answered n (Ok None)) s0).
      { subst s1. unfold step, receive, close, call_dispose. simpl. by rewrite E, Hu, Ed. }
      by destruct (Hidle s0 Hs1) as (? & ? & Hat3 & ? & ? & ?).
  - rewrite Hat.
    assert (Hs1 : s1 = record (Answered n (Ok None)) s0).
    { subst s1. unfold step, receive, close. simpl. by rewrite E. }
    by destruct (Hidle s0 Hs1) as (? & ? & Hat3 & ? & ? & ?).
Qed.

(** [Server] is the server on the event loop when requests are handled one
    at a time and no call fails: handling a request that way is the step of
    [Server], and the request is answered as there. *)
Lemma handled_step (c : Call) (s : State) :
  wellFormed s → pending s = [] →
  let s' := run (handled c) s in
  atomic s' = Server.step c (atomic s)
  ∧ pending s' = []
  ∧ wellFormed s'
  ∧ requests s' = requests s ++ [c]
  ∧ ∃ a, answers s' = answers s ++ [(length (requests s), a)]
      ∧ plain a = Server.answer c (atomic s).
Proof.
  intros Hwf Hp s'.
  assert (Hwf' : wellFormed s') by (by apply run_wellFormed).
  subst s'. unfold handled, run. cbn [foldl].
  destruct c as [uri content done hex|i content done|i].
  - destruct (handled_open uri content done hex s Hwf Hp) as (_ & Hat & Hp' & Hr & Ha).
    split; [done|]. split; [done|]. split; [done|]. split; [done|].
    eexists. split; [done|]. cbn [Server.answer plain]. by rewrite open_spec.
  - destruct (handled_append i content done s Hwf Hp) as (_ & Hat & Hp' & Hr & Ha).
    split; [done|]. split; [done|]. split; [done|]. split; [done|].
    eexists. split; [done|]. cbn [Server.answer].
    destruct (Server.uploads (atomic s) !! i) as [u|] eqn:E.
    + by rewrite (append_spec _ _ _ _ _ E).
    + by rewrite append_unknown.
  - destruct (handled_close i s Hwf Hp) as (_ & _ & Hat & Hp' & Hr & Ha).
    split; [done|]. split; [done|]. split; [done|]. split; [done|].
    eexists. split; [done|]. cbn [Server.answer]. by rewrite close_spec.
Qed.

Lemma oneAtATime_cons (c : Call) (cs : list Call) :
  oneAtATime (c :: cs) = handled c ++ oneAtATime cs.
Proof. done. Qed.

Lemma oneAtATime_run (cs : list Call) (s : State) :
  wellFormed s → pending s = [] →
  let s' := run (oneAtATime cs) s in
  atomic s' = Server.run cs (atomic s)
  ∧ pending s' = []
  ∧ wellFormed s'
  ∧ requests s' = requests s ++ cs
  ∧ ∃ al, answers s' = answers s ++ al
      ∧ al.*1 = seq (length (requests s)) (length cs)
      ∧ plain <$> al.*2 = Server.answers cs (atomic s).
Proof.
  revert s. induction cs as [|c cs IH]; intros s Hwf Hp; cbv zeta.
  { simpl. rewrite app_nil_r. split; [done|]. split; [done|]. split; [done|].
    split; [done|]. exists []. by rewrite app_nil_r. }
  rewrite oneAtATime_cons, events_app.
  destruct (handled_step c s Hwf Hp) as (Hat & Hp' & Hwf' & Hr & a & Ha & Hpl).
  destruct (IH _ Hwf' Hp') as (Hat2 & Hp2 & Hwf2 & Hr2 & al & Ha2 & Hn & Hpl2).
  split; [by rewrite Hat2, Hat|]. split; [done|]. split; [done|].
  split; [by rewrite Hr2, Hr, <- app_assoc|].
  exists ((length (requests s), a) :: al).
  split; [by rewrite Ha2, Ha, <- app_assoc|].
  split.
  - rewrite fmap_cons, Hn, Hr, length_app. simpl. f_equal. f_equal. lia.
  - rewrite !fmap_cons. cbn [snd Server.answers]. by rewrite Hpl, Hpl2, Hat.
Qed.

(** Handling a request that way leaves a path as it is until the last call
    of the handler settles, unless it is the temporary path of the upload the
    request works on. *)
Lemma handled_elsewhere (c : Call) (s : State) (p : string) :
  wellFormed s → pending s = [] →
  (∀ u, uploadOf c (atomic s) = Some u → p ≠ uploadPath u) →
  disk (step (Request c) s) !! p = disk s !! p
  ∧ disk (step (Settle 0 None) (step (Request c) s)) !! p = disk s !! p.
Proof.
  intros Hwf Hp Hne. split; [cbn [step]; by rewrite receive_disk|].
  destruct c as [uri content done hex|i content done|i].
  - destruct (handled_open uri content done hex s Hwf Hp) as (-> & _).
    apply lookup_insert_ne. intros Heq. by apply (Hne _ eq_refl).
  - destruct (handled_append i content done s Hwf Hp) as (-> & _).
    cbn [uploadOf] in Hne. destruct (Server.uploads (atomic s) !! i) as [u|] eqn:E; [|done].
    apply lookup_insert_ne. intros Heq. by apply (Hne _ eq_refl).
  - destruct (handled_close i s Hwf Hp) as (_ & -> & _).
    change (Server.step (Close i) (atomic s)) with (Server.close i (atomic s)).1.
    rewrite close_spec. cbn [fst Server.disk]. cbn [uploadOf] in Hne.
    destruct (Server.uploads (atomic s) !! i) as [u|] eqn:E; [|done].
    rewrite call_dispose_spec. destruct (dispose u); [|done].
    apply lookup_delete_ne. intros Heq. by apply (Hne _ eq_refl).
Qed.

End InterleavedOneAtATime.

Section InterleavedLog.
Context `{NodeHost}.
Import Server Interleaved.

Lemma close_log (n : nat) (c : Call) (i : string) (s : State) :
  log (close n c i s) = log s ∧ uploads (close n c i s) = uploads s
  ∧ requests (close n c i s) = requests s
  ∧ ∀ k t, pending (close n c i s) !! k = Some t →
      pending s !! k = Some t ∨ request t = n.
Proof.
  unfold close, call_dispose.
  destruct (uploads s !! i) as [r|]; [|by auto].
  destruct (objects s !! r) as [u|]; [|by auto].
  destruct (dispose u); [|by auto].
  simpl. split; [done|]. split; [done|]. split; [done|].
  intros k t Hk. apply lookup_app_Some in Hk as [Hk|[_ Hk]]; [by left|].
  apply list_lookup_singleton_Some in Hk as [_ <-]. by right.
Qed.

(** What the arrival of a request adds to the log, and what it starts. *)
Lemma receive_log (c : Call) (s : State) :
  log (receive c s) =
    log s ++ match c with
             | Open _ _ _ _ => []
             | Append i _ _ =>
                 if uploads s !! i is Some _ then []
                 else [Answered (length (requests s))
                         (Err (Failure ("upload '" +:+ i +:+ "' does not exist")))]
             | Close _ => [Answered (length (requests s)) (Ok None)]
             end
  ∧ requests (receive c s) = requests s ++ [c]
  ∧ (∀ i, is_Some (uploads (receive c s) !! i) ↔
       is_Some (uploads s !! i)
       ∨ ∃ uri content done hex, c = Open uri content done hex ∧ i = "upload_" +:+ hex)
  ∧ (∀ k t, pending (receive c s) !! k = Some t →
       pending s !! k = Some t
       ∨ (request t = length (requests s)
          ∧ ∀ i content done, c = Append i content done → is_Some (uploads s !! i))).
Proof.
  unfold receive. destruct c as [uri content flag hex|i content flag|i].
  - simpl. split; [by rewrite app_nil_r|]. split; [done|]. split.
    + intros i. rewrite lookup_insert. case_decide as Hi.
      * subst i. split; [|by eauto]. intros _. right. by exists uri, content, flag, hex.
      * split; [by left|]. intros [?|(? & ? & ? & ? & [= <- <- <- <-] & ->)]; done.
    + intros k t Hk. apply lookup_app_Some in Hk as [Hk|[_ Hk]]; [by left|].
      apply list_lookup_singleton_Some in Hk as [_ <-]. right. done.
  - simpl. destruct (uploads s !! i) as [r|] eqn:E; simpl.
    + split; [by rewrite app_nil_r|]. split; [done|]. split.
      * intros j. split; [by left|]. intros [?|(? & ? & ? & ? & ? & _)]; done.
      * intros k t Hk. apply lookup_app_Some in Hk as [Hk|[_ Hk]]; [by left|].
        apply list_lookup_singleton_Some in Hk as [_ <-]. right. split; [done|].
        intros ? ? ? [= <- <- <-]. by rewrite E.
    + split; [done|]. split; [done|]. split; [|by left].
      intros j. split; [by left|]. intros [?|(? & ? & ? & ? & ? & _)]; done.
  - set (s0 := {| objects := objects s; uploads := uploads s; disk := disk s;
                  pending := pending s; requests := requests s ++ [Close i]; log := log s |}).
    destruct (close_log (length (requests s)) (Close i) i s0) as (Hl & Hu & Hr & Hp).
    simpl. rewrite Hl, Hu, Hr. split; [done|]. split; [done|]. split.
    + intros j. split; [by left|]. intros [?|(? & ? & ? & ? & ? & _)]; done.
    + intros k t Hk. destruct (Hp k t Hk) as [?|?]; [by left|right].
      split; [done|]. by intros.
Qed.

(** What the settling of a call adds to the log, and what it starts. *)
Lemma settle_log (k : nat) (failure : option Error) (s : State) (t : Task)
  (u : NodeFileUpload) :
  pending s !! k = Some t → objects s !! upload t = Some u →
  (∃ fl new, log (settle k failure s) = log s ++ Settled t fl :: new
     ∧ ∀ a, a ∈ new → ∃ r, a = Answered (request t) r
         ∧ ∀ e, r = Err e → fl = Some e ∧ point t ≠ Unawaited)
  ∧ requests (settle k failure s) = requests s
  ∧ uploads (settle k failure s) = uploads s
  ∧ (∀ k' t', pending (settle k failure s) !! k' = Some t' →
       ∃ j t0, pending s !! j = Some t0 ∧ request t' = request t0).
Proof.
  intros Hk Hu. rewrite (settle_at k t u) by done.
  set (result := perform t u failure (disk s)).
  assert (Hdel : ∀ k' t', delete k (pending s) !! k' = Some t' →
            ∃ j t0, pending s !! j = Some t0 ∧ request t' = request t0).
  { intros k' t' Hk'. destruct (decide (k' < k)).
    - exists k', t'. by rewrite list_lookup_delete_lt in Hk'.
    - exists (S k'), t'. rewrite list_lookup_delete_ge in Hk' by lia. done. }
  assert (Hsnoc : ∀ (l : list Task) q k' t',
            (l ++ [{| request := request t; call := call t; upload := upload t;
                       point := q |}]) !! k' = Some t' →
            (∀ j t0, l !! j = Some t0 → ∃ j' t1, pending s !! j' = Some t1
                        ∧ request t0 = request t1) →
            ∃ j t0, pending s !! j = Some t0 ∧ request t' = request t0).
  { intros l q k' t' Hk' Hl. apply lookup_app_Some in Hk' as [Hk'|[_ Hk']]; [by eapply Hl|].
    apply list_lookup_singleton_Some in Hk' as [_ <-]. by exists k, t. }
  assert (Hwrite : point t = AtCreate ∨ point t = AtAppend → ∀ d,
    let s1 := {| objects := objects s; uploads := uploads s; disk := d;
                 pending := delete k (pending s); requests := requests s;
                 log := log s ++ [Settled t None] |} in
    let s' := if doneOf (call t)
              then start {| request := request t; call := call t; upload := upload t;
                            point := AtRename |} s1
              else record (Answered (request t) (Ok (returned (call t) u))) s1 in
    (∃ fl new, log s' = log s ++ Settled t fl :: new
       ∧ ∀ a, a ∈ new → ∃ r, a = Answered (request t) r
           ∧ ∀ e, r = Err e → fl = Some e ∧ point t ≠ Unawaited)
    ∧ requests s' = requests s
    ∧ uploads s' = uploads s
    ∧ (∀ k' t', pending s' !! k' = Some t' →
         ∃ j t0, pending s !! j = Some t0 ∧ request t' = request t0)).
  { intros Hq d s1 s'. subst s'. destruct (doneOf (call t)); simpl.
    - split.
      { exists None, []. split; [done|]. intros a Ha. by apply elem_of_nil in Ha. }
      split; [done|]. split; [done|]. intros k' t' Hk'. by eapply Hsnoc.
    - split.
      { exists None, [Answered (request t) (Ok (returned (call t) u))].
        split; [by rewrite <- app_assoc|].
        intros a ->%list_elem_of_singleton. eexists. split; [done|done]. }
      by auto. }
  unfold resume. destruct result as [d|e] eqn:Er.
  - destruct (point t) eqn:Ep.
    + apply Hwrite. by left.
    + apply Hwrite. by right.
    + set (s2 := {| objects := _; uploads := _; disk := _; pending := _;
                    requests := _; log := _ |}).
      destruct (close_log (request t) (call t) (id u) s2) as (Hl & Hu' & Hr & Hp).
      simpl. rewrite Hl, Hu', Hr. simpl.
      split.
      { exists None, [Answered (request t) (Ok (returned (call t) u))].
        split; [by rewrite <- app_assoc|].
        intros a ->%list_elem_of_singleton. eexists. split; [done|done]. }
      split; [done|]. split; [done|].
      intros k' t' Hk'. destruct (Hp k' t' Hk') as [Hold|Hreq].
      * by apply (Hdel k').
      * exists k, t. done.
    + simpl. split; [|by auto].
      exists None, []. split; [done|]. intros a Ha. by apply elem_of_nil in Ha.
  - assert (Hans : point t ≠ Unawaited →
      let s' := record (Answered (request t) (Err e))
                  {| objects := objects s; uploads := uploads s; disk := disk s;
                     pending := delete k (pending s); requests := requests s;
                     log := log s ++ [Settled t (Some e)] |} in
      (∃ fl new, log s' = log s ++ Settled t fl :: new
         ∧ ∀ a, a ∈ new → ∃ r, a = Answered (request t) r
             ∧ ∀ e, r = Err e → fl = Some e ∧ point t ≠ Unawaited)
      ∧ requests s' = requests s
      ∧ uploads s' = uploads s
      ∧ (∀ k' t', pending s' !! k' = Some t' →
           ∃ j t0, pending s !! j = Some t0 ∧ request t' = request t0)).
    { intros Hq. simpl. split; [|by auto].
      exists (Some e), [Answered (request t) (Err e)].
      split; [by rewrite <- app_assoc|].
      intros a ->%list_elem_of_singleton. eexists. split; [done|].
      by intros e' [= <-]. }
    destruct (point t) eqn:Ep; simpl.
    + by apply Hans.
    + by apply Hans.
    + by apply Hans.
    + split; [|by auto]. exists (Some e), []. split; [done|].
      intros a Ha. by apply elem_of_nil in Ha.
Qed.

End InterleavedLog.

Section InterleavedCalls.
Context `{NodeHost}.
Import Server Interleaved.











End InterleavedCalls.

Section InterleavedStages.
Context `{NodeHost}.
Import Server Interleaved.
Variables (uri hex : string) (chunks : list string) (before : option (list byte)).

#[local] Abbreviation u := (newNodeFileUpload (FileUri_fsPath uri) hex).
#[local] Abbreviation i := ("upload_" +:+ hex).

#[local] Instance byte_eq_decision : EqDecision byte := Byte.byte_eq_dec.
















End InterleavedStages.

Section InterleavedSpared.
Context `{NodeHost}.
Import Server Interleaved.


End InterleavedSpared.

Section InterleavedClaim.
Context `{NodeHost}.
Import Server Interleaved.


End InterleavedClaim.

Section InterleavedExamples.
Import Server Interleaved Examples.



End InterleavedExamples.

(** ** The chunked reader *)

Section ReaderFacts.
Context `{BrowserHost}.

#[local] Ltac Zify.zify_post_hook ::= Z.to_euclidean_division_equations.

Lemma Blob_slice_inside (b : list byte) (lo hi : Z) :
  (0 ≤ lo)%Z → (lo ≤ hi)%Z → (hi ≤ Z.of_nat (length b))%Z →
  Blob_slice b lo hi = take (Z.to_nat (hi - lo)) (drop (Z.to_nat lo) b).
Proof.
  intros Hlo Hle Hhi. unfold Blob_slice, Blob_relative.
  destruct (Z.ltb_spec lo 0); [lia|]. destruct (Z.ltb_spec hi 0); [lia|].
  do 2 f_equal; lia.
Qed.

(** A read inside the file that the reader does not fail: the next chunk. *)
Lemma readFileSlice_inside (file : File) (r : Z) :
  (0 ≤ r)%Z → (r < size file)%Z →
  let n := Z.min maxChunkSize (size file - r) in
  Reader.readFileSlice file r None =
    Ok {| Reader.content :=
            base64_fromByteArray (take (Z.to_nat n) (drop (Z.to_nat r) (bytes file)));
          Reader.read := r + n |}.
Proof.
  intros Hr Hlt n. unfold Reader.readFileSlice.
  destruct (Z.eqb_spec (size file) 0); [lia|]. simpl.
  destruct (Z.eqb_spec (size file - r) 0); [lia|].
  fold n. rewrite Blob_slice_inside by (unfold n, maxChunkSize, size in *; lia).
  by replace (r + n - r)%Z with n by lia.
Qed.

Lemma slicesOf_length (r : Z) (pieces : list (list byte)) :
  length (Reader.slicesOf r pieces) = length pieces.
Proof. revert r. induction pieces as [|p ps IH]; intros r; simpl; [done|]. by rewrite IH. Qed.

Lemma slicesOf_content (r : Z) (pieces : list (list byte)) :
  Reader.content <$> Reader.slicesOf r pieces = base64_fromByteArray <$> pieces.
Proof. revert r. induction pieces as [|p ps IH]; intros r; simpl; [done|]. by rewrite IH. Qed.

Lemma slicesOf_last (r : Z) (pieces : list (list byte)) :
  pieces ≠ [] →
  Reader.read <$> last (Reader.slicesOf r pieces)
    = Some (r + Z.of_nat (length (concat pieces)))%Z.
Proof.
  revert r. induction pieces as [|p ps IH]; intros r Hne; [done|].
  destruct ps as [|q qs].
  - simpl. rewrite app_nil_r. done.
  - change (Reader.slicesOf r (p :: q :: qs)) with
      ({| Reader.content := base64_fromByteArray p;
          Reader.read := (r + Z.of_nat (length p))%Z |}
         :: Reader.slicesOf (r + Z.of_nat (length p)) (q :: qs)).
    rewrite last_cons.
    specialize (IH (r + Z.of_nat (length p))%Z ltac:(done)).
    destruct (last (Reader.slicesOf (r + Z.of_nat (length p)) (q :: qs))) as [x|] eqn:E; [|done].
    simpl in IH |- *. injection IH as ->.
    f_equal. rewrite (length_app p). lia.
Qed.

Lemma readSlicesFrom_spec (fuel : nat) (file : File) (r : Z) :
  (0 ≤ r)%Z → (r < size file)%Z →
  (size file - r ≤ Z.of_nat fuel * maxChunkSize)%Z →
  ∃ pieces,
    Reader.readSlicesFrom fuel file r = Some (Ok (Reader.slicesOf r pieces))
    ∧ concat pieces = drop (Z.to_nat r) (bytes file)
    ∧ Z.of_nat (length pieces) = ((size file - r + maxChunkSize - 1) / maxChunkSize)%Z
    ∧ Forall (λ p, (Z.of_nat (length p) ≤ maxChunkSize)%Z) pieces
    ∧ (∀ k p, pieces !! k = Some p → S k < length pieces →
              Z.of_nat (length p) = maxChunkSize)
    ∧ pieces ≠ [].
Proof.
  revert r. induction fuel as [|fuel IH]; intros r Hr Hlt Hfuel.
  { unfold maxChunkSize in *. lia. }
  cbn [Reader.readSlicesFrom]. rewrite readFileSlice_inside by done.
  cbn [Reader.read].
  set (n := Z.min maxChunkSize (size file - r)).
  set (piece := take (Z.to_nat n) (drop (Z.to_nat r) (bytes file))).
  assert (Hlen : Z.of_nat (length piece) = n).
  { unfold piece. rewrite length_take, length_drop.
    unfold n, size, maxChunkSize in *. lia. }
  destruct (Z.ltb_spec (r + n) (size file)) as [Hmore|Hlast].
  - assert (Hn : n = maxChunkSize) by (unfold n in *; lia).
    destruct (IH (r + n)%Z) as (ps & Hrun & Hcat & Hcount & Hmax & Hfull & Hne).
    { unfold maxChunkSize in *; lia. } { done. } { unfold maxChunkSize in *; lia. }
    exists (piece :: ps). rewrite Hrun. cbn [Reader.slicesOf]. rewrite Hlen.
    split; [done|]. split.
    { change (concat (piece :: ps)) with (piece ++ concat ps). rewrite Hcat.
      unfold piece. replace (Z.to_nat (r + n)) with (Z.to_nat r + Z.to_nat n)%nat by lia.
      rewrite <- drop_drop. apply take_drop. }
    split.
    { cbn [length]. rewrite Nat2Z.inj_succ, Hcount, Hn. unfold maxChunkSize in *. lia. }
    split; [constructor; [lia|done]|].
    split; [|done].
    intros [|k] p; cbn [length]; simpl.
    + intros [= <-] _. lia.
    + intros Hp Hk. apply (Hfull k p Hp). lia.
  - exists [piece]. cbn [Reader.slicesOf]. rewrite Hlen.
    split; [done|]. split.
    { simpl. rewrite app_nil_r. unfold piece. apply take_ge.
      rewrite length_drop. unfold size, n in *. lia. }
    split.
    { simpl. unfold n, maxChunkSize in *. lia. }
    split; [repeat constructor; unfold n; lia|].
    split; [|done].
    intros k p _. simpl. lia.
Qed.

(** C8. Reading a file slice by slice from offset 0 until the returned offset
    reaches the size ends, and gives ceil(size / 65536) slices, one empty
    slice when the size is 0.  The slices are the encodings of consecutive
    pieces of the file: every piece has at most 65536 bytes, every piece but
    the last has exactly 65536, and the pieces concatenated are the bytes of
    the file.  The last slice returns the size as its offset. *)
Theorem readSlices_chunks (file : File) :
  ∃ slices pieces,
    Reader.readSlices file = Some (Ok slices)
    ∧ Z.of_nat (length slices) =
        (if size file =? 0 then 1 else (size file + maxChunkSize - 1) / maxChunkSize)%Z
    ∧ Reader.content <$> slices =
        (if (size file =? 0)%Z then [""] else base64_fromByteArray <$> pieces)
    ∧ concat pieces = bytes file
    ∧ length pieces = length slices
    ∧ Forall (λ p, (Z.of_nat (length p) ≤ maxChunkSize)%Z) pieces
    ∧ (∀ k p, pieces !! k = Some p → S k < length pieces →
              Z.of_nat (length p) = maxChunkSize)
    ∧ Reader.read <$> last slices = Some (size file).
Proof.
  destruct (Z.eqb_spec (size file) 0) as [Hz|Hnz].
  - exists [{| Reader.content := ""; Reader.read := 0 |}], [[]].
    unfold Reader.readSlices. rewrite Hz.
    cbn [Reader.readSlicesFrom]. unfold Reader.readFileSlice. rewrite Hz.
    simpl. split; [done|]. split; [done|]. split; [done|].
    split. { unfold size in Hz. destruct (bytes file); [done|simpl in Hz; lia]. }
    split; [done|].
    split; [constructor; [simpl; unfold maxChunkSize; lia|constructor]|].
    split; [|done]. intros k p _. simpl. lia.
  - assert (Hpos : (0 < size file)%Z) by (unfold size in *; lia).
    destruct (readSlicesFrom_spec (S (Z.to_nat (size file / maxChunkSize))) file 0)
      as (ps & Hrun & Hcat & Hcount & Hmax & Hfull & Hne).
    { done. } { done. } { unfold maxChunkSize in *. lia. }
    exists (Reader.slicesOf 0 ps), ps. unfold Reader.readSlices.
    split; [done|]. rewrite slicesOf_length.
    split. { rewrite Hcount. f_equal. lia. }
    split; [apply slicesOf_content|].
    split; [by rewrite Hcat|].
    split; [done|]. split; [done|]. split; [done|].
    rewrite slicesOf_last by done. rewrite Hcat. simpl. done.
Qed.

(** C9, as amended.  The reader of the request/response variant answers a
    read of an empty file at offset 0 with the empty content and offset 0,
    while the reader of the web socket variant rejects it; both readers
    reject a read at the end of a file that is not empty. *)
Theorem readFileSlice_at_the_end (file : File) (onerror : option Error) :
  ((size file = 0)%Z →
     Reader.readFileSlice file 0 onerror = Ok {| Reader.content := ""; Reader.read := 0 |}
     ∧ SocketReader.readFileSlice file 0 onerror = Err (Failure "nothing to read"))
  ∧ ((size file ≠ 0)%Z →
     Reader.readFileSlice file (size file) onerror = Err (Failure "nothing to read")
     ∧ SocketReader.readFileSlice file (size file) onerror = Err (Failure "nothing to read")).
Proof.
  split.
  - intros Hz. unfold Reader.readFileSlice, SocketReader.readFileSlice.
    rewrite Hz. done.
  - intros Hnz. unfold Reader.readFileSlice, SocketReader.readFileSlice.
    destruct (Z.eqb_spec (size file) 0); [done|]. simpl.
    by rewrite Z.sub_diag.
Qed.

End ReaderFacts.

Section ReaderExamples.

(** C9, the claim as it was stated: the reader of the web socket variant does
    not answer a read of the empty file at offset 0, it rejects it. *)
Lemma socket_reader_rejects_empty_file :
  ¬ (SocketReader.readFileSlice {| name := "empty.txt"; bytes := [] |} 0 None
     = Ok {| SocketReader.content := []; SocketReader.read := 0 |}).
Proof. vm_compute. discriminate. Qed.

Lemma readFileSlice_at_the_end_witness :
  (Reader.readFileSlice {| name := "empty.txt"; bytes := [] |} 0 None
     = Ok {| Reader.content := ""; Reader.read := 0 |}
   ∧ SocketReader.readFileSlice {| name := "empty.txt"; bytes := [] |} 0 None
     = Err (Failure "nothing to read"))
  ∧ (Reader.readFileSlice {| name := "a.txt"; bytes := ["a"; "b"; "c"]%byte |} 3 None
     = Err (Failure "nothing to read")
   ∧ SocketReader.readFileSlice {| name := "a.txt"; bytes := ["a"; "b"; "c"]%byte |} 3 None
     = Err (Failure "nothing to read")).
Proof.
  split.
  - apply (proj1 (readFileSlice_at_the_end
                    {| name := "empty.txt"; bytes := [] |} None)).
    reflexivity.
  - apply (proj2 (readFileSlice_at_the_end
                    {| name := "a.txt"; bytes := ["a"; "b"; "c"]%byte |} None)).
    vm_compute. discriminate.
Defined.

End ReaderExamples.

(** ** The entry indexer *)

Section IndexerFacts.
Context `{BrowserHost}.
Import Indexer.

Lemma sumSizes_app (es1 es2 : list UploadEntry) :
  sumSizes (es1 ++ es2) = (sumSizes es1 + sumSizes es2)%Z.
Proof.
  induction es1 as [|e es1 IH]; simpl; [done|].
  unfold sumSizes in *. simpl. rewrite IH. lia.
Qed.

Lemma extends_refl (P : UploadEntry → Prop) (c : Context) : extends P c c.
Proof. exists []. rewrite app_nil_r. split; [done|]. split; [simpl; lia|done]. Qed.

Lemma extends_trans (P : UploadEntry → Prop) (c1 c2 c3 : Context) :
  extends P c1 c2 → extends P c2 c3 → extends P c1 c3.
Proof.
  intros (n1 & E1 & T1 & F1) (n2 & E2 & T2 & F2). exists (n1 ++ n2).
  rewrite E2, E1, T2, T1, sumSizes_app, app_assoc.
  split; [done|]. split; [lia|]. by apply Forall_app.
Qed.

Lemma extends_mono (P Q : UploadEntry → Prop) (c c' : Context) :
  (∀ e, P e → Q e) → extends P c c' → extends Q c c'.
Proof.
  intros HPQ (new & E & T & F). exists new. split; [done|]. split; [done|].
  eapply Forall_impl; eauto.
Qed.

Lemma poll_context (st : IndexState) : context (poll st).1 = context st.
Proof. unfold poll. by destruct (polls st) as [[|n]|]. Qed.

Lemma checkCancelled_context (st : IndexState) :
  context (checkCancelled st).1 = context st.
Proof.
  unfold checkCancelled. pose proof (poll_context st) as Hp.
  by destruct (poll st).
Qed.

Lemma indexFile_extends (t : string) (f : File) (c : Context) :
  extends (λ e, file e = f ∧ uri e = URI_resolve t (name f)) c (indexFile t f c).
Proof.
  exists [{| file := f; uri := URI_resolve t (name f) |}].
  split; [done|]. split; [simpl; lia|]. by constructor.
Qed.

Lemma indexFileList_extends (t : string) (fs : list (option File)) (c : Context) :
  extends (λ e, Some (file e) ∈ fs ∧ uri e = URI_resolve t (name (file e)))
    c (indexFileList t fs c).
Proof.
  unfold indexFileList. revert c.
  induction fs as [|f fs IH] using rev_ind; intros c; [apply extends_refl|].
  rewrite foldl_app. simpl.
  eapply extends_trans.
  { eapply extends_mono; [|apply IH]. intros e [Hin Hu]. split; [|done].
    apply elem_of_app. by left. }
  destruct f as [f|]; [|apply extends_refl].
  eapply extends_mono; [|apply indexFile_extends].
  intros e [-> Hu]. split; [|done]. apply elem_of_app. right. by apply list_elem_of_singleton.
Qed.

Lemma promiseAll_extends {A : Type} (Q : A → UploadEntry → Prop)
  (start : A → IndexState → IndexState * Result unit) (items : list A) (st : IndexState) :
  (∀ item st, item ∈ items → extends (Q item) (context st) (context (start item st).1)) →
  extends (λ e, ∃ item, item ∈ items ∧ Q item e)
    (context st) (context (promiseAll start items st).1).
Proof.
  revert st. induction items as [|item items IH]; intros st Hstart; simpl.
  { apply extends_refl. }
  destruct (start item st) as [st1 r1] eqn:E1.
  destruct (promiseAll start items st1) as [st2 r2] eqn:E2. simpl.
  eapply extends_trans.
  - eapply extends_mono; [|apply (Hstart item st); by left].
    intros e He. exists item. split; [by left|done].
  - rewrite E1. simpl.
    eapply extends_mono; [|specialize (IH st1); rewrite E2 in IH; apply IH].
    + intros e (it & Hin & He). exists it. split; [by right|done].
    + intros it st' Hin. apply Hstart. by right.
Qed.

Lemma readEntries_extends (Q : list WebKitEntry → UploadEntry → Prop)
  (cb : list WebKitEntry → IndexState → IndexState * Result unit)
  (failure : option Error) (batches : list (list WebKitEntry))
  (promises : Result unit) (st : IndexState) :
  (∀ items st, items ∈ batches → extends (Q items) (context st) (context (cb items st).1)) →
  extends (λ e, ∃ items, items ∈ batches ∧ Q items e)
    (context st) (context (readEntries cb failure batches promises st).1).
Proof.
  revert promises st. induction batches as [|items batches IH]; intros promises st Hcb; simpl.
  { destruct failure; simpl; [|rewrite poll_context]; apply extends_refl. }
  pose proof (poll_context st) as Hp.
  destruct (poll st) as [st0 cancelled]. simpl in Hp.
  destruct (cancelled || bool_decide (items = [])).
  { simpl. rewrite Hp. apply extends_refl. }
  destruct (cb items st0) as [st1 r1] eqn:E1.
  rewrite <- Hp. eapply extends_trans.
  - eapply extends_mono; [|apply (Hcb items st0); by left].
    intros e He. exists items. split; [by left|done].
  - rewrite E1. simpl.
    eapply extends_mono; [|apply IH].
    + intros e (it & Hin & He). exists it. split; [by right|done].
    + intros it st' Hin. apply Hcb. by right.
Qed.

Lemma WebKitEntry_nested_ind (P : WebKitEntry → Prop) :
  (∀ answer, P (WebKitFileEntry answer)) →
  (∀ dirName batches failure,
     Forall (Forall P) batches → P (WebKitDirectoryEntry dirName batches failure)) →
  ∀ entry, P entry.
Proof.
  intros Hfile Hdir. fix IH 1. intros [answer|dirName batches failure].
  - apply Hfile.
  - apply Hdir. induction batches as [|items batches IHb]; constructor; [|done].
    induction items as [|item items IHi]; constructor; [apply IH|done].
Qed.

(** Every entry that [indexEntry] pushes is a file below the entry, at the
    target URI resolved with the names of the directories down to the file
    and then with the name of the file. *)
Lemma indexEntry_extends (entry : WebKitEntry) :
  ∀ (t : string) (st : IndexState),
    extends (λ e, ∃ dirs, inside entry dirs (file e)
                   ∧ uri e = URI_resolve (foldl URI_resolve t dirs) (name (file e)))
      (context st) (context (indexEntry t entry st).1).
Proof.
  induction entry as [answer|dirName batches failure IH] using WebKitEntry_nested_ind;
    intros t st; simpl.
  - pose proof (checkCancelled_context st) as Hc.
    destruct (checkCancelled st) as [st0 [[]|e]]; simpl in *; rewrite <- Hc;
      [|apply extends_refl].
    destruct answer as [f|e]; simpl; [|apply extends_refl].
    eapply extends_mono; [|apply indexFile_extends].
    intros e [<- Hu]. exists []. split; [constructor|done].
  - pose proof (checkCancelled_context st) as Hc.
    destruct (checkCancelled st) as [st0 [[]|e]]; simpl in *; rewrite <- Hc;
      [|apply extends_refl].
    pose proof (checkCancelled_context st0) as Hc0.
    destruct (checkCancelled st0) as [st1 [[]|e]]; simpl in *; rewrite <- Hc0;
      [|apply extends_refl].
    eapply extends_mono; [|apply (readEntries_extends
      (λ items e, ∃ item dirs, item ∈ items ∧ inside item dirs (file e)
         ∧ uri e = URI_resolve (foldl URI_resolve (URI_resolve t dirName) dirs)
                     (name (file e))))].
    + intros e (items & Hitems & item & dirs & Hitem & Hin & Hu).
      exists (dirName :: dirs). split; [|done]. by econstructor.
    + intros items st' Hitems.
      pose proof (checkCancelled_context st') as Hc'.
      destruct (checkCancelled st') as [st'' [[]|e]]; simpl in *; rewrite <- Hc';
        [|apply extends_refl].
      eapply extends_mono; [|apply (promiseAll_extends
        (λ item e, ∃ dirs, inside item dirs (file e)
           ∧ uri e = URI_resolve (foldl URI_resolve (URI_resolve t dirName) dirs)
                       (name (file e))))].
      * intros e (item & Hitem & dirs & Hin & Hu). by exists item, dirs.
      * intros item st3 Hitem.
        rewrite Forall_forall in IH. specialize (IH items Hitems).
        rewrite Forall_forall in IH. by apply IH.
Qed.

Lemma indexEntryOrNull_extends (t : string) (entry : option WebKitEntry) (st : IndexState) :
  extends (λ e, ∃ w dirs, entry = Some w ∧ inside w dirs (file e)
                 ∧ uri e = URI_resolve (foldl URI_resolve t dirs) (name (file e)))
    (context st) (context (indexEntryOrNull t entry st).1).
Proof.
  destruct entry as [w|]; simpl.
  - eapply extends_mono; [|apply indexEntry_extends].
    intros e (dirs & Hin & Hu). by exists w, dirs.
  - rewrite checkCancelled_context. apply extends_refl.
Qed.

Lemma indexStep_extends (c : IndexCall) (st : IndexState) :
  extends (λ e, ∃ dirs, origin c dirs (file e)
                 ∧ uri e = URI_resolve (foldl URI_resolve (targetOf c) dirs) (name (file e)))
    (context st) (context (indexStep c st)).
Proof.
  destruct c as [t f|t fs|t entry|t dt]; simpl.
  - eapply extends_mono; [|apply indexFile_extends].
    intros e [Hf Hu]. exists []. simpl. by rewrite Hf.
  - eapply extends_mono; [|apply indexFileList_extends].
    intros e [Hf Hu]. by exists [].
  - eapply extends_mono; [|apply indexEntryOrNull_extends].
    intros e (w & dirs & -> & Hin & Hu). exists dirs. split; [by exists w|done].
  - unfold indexDataTransfer.
    pose proof (checkCancelled_context st) as Hc.
    destruct (checkCancelled st) as [st0 [[]|e]]; simpl in *; rewrite <- Hc;
      [|apply extends_refl].
    destruct (items dt) as [entries|] eqn:Eitems.
    + unfold indexDataTransferItemList.
      pose proof (checkCancelled_context st0) as Hc0.
      destruct (checkCancelled st0) as [st1 [[]|e]]; simpl in *; rewrite <- Hc0;
        [|apply extends_refl].
      eapply extends_mono; [|apply (promiseAll_extends
        (λ item e, ∃ w dirs, item = Some w ∧ inside w dirs (file e)
           ∧ uri e = URI_resolve (foldl URI_resolve t dirs) (name (file e))))].
      * intros e (item & Hitem & w & dirs & -> & Hin & Hu).
        exists dirs. split; [by exists w|done].
      * intros item st2 _. apply indexEntryOrNull_extends.
    + simpl. eapply extends_mono; [|apply indexFileList_extends].
      intros e [Hf Hu]. by exists [].
Qed.

(** C10, as amended.  After any indexing calls on a fresh context, whatever
    the token does, [totalSize] is the sum of the sizes of the files of the
    entries, and the URI of every entry is the target URI of the call that
    pushed it, resolved with the names of the directories from the dropped
    entry down to the file and then with the name of the file; for
    [indexFile] and [indexFileList] there are no such directories. *)
Theorem indexing_invariant (calls : list IndexCall) (token : option nat) :
  let st := indexRun calls {| context := emptyContext; polls := token |} in
  totalSize (context st) = sumSizes (entries (context st))
  ∧ Forall (λ e, ∃ c dirs, c ∈ calls ∧ origin c dirs (file e)
                  ∧ uri e = URI_resolve (foldl URI_resolve (targetOf c) dirs)
                              (name (file e)))
      (entries (context st)).
Proof.
  intros st.
  assert (Hext : extends
    (λ e, ∃ c dirs, c ∈ calls ∧ origin c dirs (file e)
            ∧ uri e = URI_resolve (foldl URI_resolve (targetOf c) dirs) (name (file e)))
    emptyContext (context st)).
  { subst st. induction calls as [|c calls IH] using rev_ind; [apply extends_refl|].
    unfold indexRun. rewrite foldl_app. simpl.
    eapply extends_trans.
    - eapply extends_mono; [|apply IH].
      intros e (c' & dirs & Hin & Ho & Hu). exists c', dirs.
      split; [apply elem_of_app; by left|done].
    - eapply extends_mono; [|apply indexStep_extends].
      intros e (dirs & Ho & Hu). exists c, dirs.
      split; [|done]. apply elem_of_app. right. by apply list_elem_of_singleton. }
  destruct Hext as (new & E & T & F). simpl in E, T.
  rewrite E, T. split; [lia|done].
Qed.

End IndexerFacts.

Section IndexerExamples.
Import Indexer Examples.

(** C10, the claim as it was stated: the entry of a file in a dropped
    directory is not at the target URI resolved with the name of the file. *)
Lemma directory_entry_not_at_target :
  let st := indexRun [IndexEntry "file:///w" (Some droppedDirectory)]
              {| context := emptyContext; polls := None |} in
  ¬ Forall (λ e, uri e = URI_resolve "file:///w" (name (file e)))
      (entries (context st)).
Proof.
  intros st Hall. vm_compute in Hall.
  apply Forall_cons in Hall as [Hhead _]. discriminate Hhead.
Qed.

End IndexerExamples.

(** ** The upload session *)

Section SessionFacts.
Context `{BrowserHost}.
Import Session.

Lemma lastFailure_app (l1 l2 : list Action) :
  lastFailure (l1 ++ l2) =
    match lastFailure l2 with
    | Some e => Some e
    | None => lastFailure l1
    end.
Proof.
  induction l1 as [|a l1 IH]; simpl.
  - by destruct (lastFailure l2).
  - rewrite IH. by destruct (lastFailure l2).
Qed.

Lemma lastFailure_None (l : list Action) (n : nat) (e : Error) :
  lastFailure l = None → AppendFailed n e ∉ l.
Proof.
  induction l as [|a l IH]; simpl; intros Hl Hin.
  - by apply elem_of_nil in Hin.
  - destruct (lastFailure l) eqn:E; [done|].
    apply elem_of_cons in Hin as [<-|Hin]; [done|]. by apply IH.
Qed.

Lemma quiet_idle (l : list Action) : Forall idle l → quiet l.
Proof.
  induction 1 as [|a l Ha Hl IH]; simpl; [done|]. by split.
Qed.

Lemma quiet_app (l w : list Action) : quiet l → Forall idle w → quiet (l ++ w).
Proof.
  intros Hl Hw. induction l as [|a l IH]; simpl.
  - by apply quiet_idle.
  - destruct Hl as [Ha Hl]. split; [|by apply IH].
    intros Hf. apply Forall_app. split; [by apply Ha|done].
Qed.

Lemma quiet_noFailure (l : list Action) : lastFailure l = None → quiet l.
Proof.
  induction l as [|a l IH]; simpl; [done|].
  destruct (lastFailure l) eqn:E; [done|]. intros Ha.
  split; [|by apply IH]. intros (n & e & ->). done.
Qed.

Lemma quiet_snoc_call (l : list Action) (a : Action) :
  lastFailure l = None → quiet (l ++ [a]).
Proof.
  induction l as [|b l IH]; simpl.
  - intros _. split; [|done]. intros _. constructor.
  - destruct (lastFailure l) eqn:E; [done|]. intros Hb.
    split; [|by apply IH]. intros (n & e & ->). done.
Qed.

(** [quiet] in the words of the claim: whatever follows a failed
    acknowledgement in the log is neither a read nor a send. *)
Lemma quiet_split (l l1 l2 : list Action) (n : nat) (e : Error) :
  quiet l → l = l1 ++ AppendFailed n e :: l2 → Forall idle l2.
Proof.
  intros Hq ->. induction l1 as [|a l1 IH]; simpl in Hq.
  - destruct Hq as [Hq _]. apply Hq. eauto.
  - destruct Hq as [_ Hq]. by apply IH.
Qed.

Lemma firstRejected_insert_fulfilled (ps : list Promise) (n : nat) :
  firstRejected ps = None → firstRejected (<[n := Fulfilled]> ps) = None.
Proof.
  revert n. induction ps as [|p ps IH]; intros n; simpl; [done|].
  destruct n as [|n]; simpl.
  - by destruct p.
  - destruct p; try done; apply IH.
Qed.

Lemma firstRejected_insert_rejected (ps : list Promise) (n : nat) (e : Error) :
  firstRejected ps = None → n < length ps →
  firstRejected (<[n := Rejected e]> ps) = Some e.
Proof.
  revert n. induction ps as [|p ps IH]; intros n; simpl; [lia|].
  destruct n as [|n]; simpl; [done|].
  destruct p; try done; intros Hps Hn; apply IH; (done || lia).
Qed.

Lemma firstRejected_snoc_waiting (ps : list Promise) (r : Z) :
  firstRejected (ps ++ [WaitingAck r]) = firstRejected ps.
Proof. induction ps as [|p ps IH]; simpl; [done|]. by destruct p. Qed.

Lemma window_refl (s : State) : window s s.
Proof.
  exists []. rewrite app_nil_r. simpl. repeat split; try done.
Qed.

Lemma window_trans (s s1 s2 : State) : window s s1 → window s1 s2 → window s s2.
Proof.
  intros (w1 & L1 & I1 & O1 & F1 & Id1 & R1 & D1 & P1 & C1 & J1)
         (w2 & L2 & I2 & O2 & F2 & Id2 & R2 & D2 & P2 & C2 & J2).
  exists (w1 ++ w2). rewrite L2, L1, app_assoc, lastFailure_app.
  split; [done|]. split; [by apply Forall_app|]. split; [by apply Forall_app|].
  split. { rewrite F2, F1. by destruct (lastFailure w2). }
  split; [congruence|]. split; [congruence|]. split; [congruence|].
  split. { intros Hp. destruct (P1 Hp) as [Hp1 ->]. destruct (P2 Hp1) as [Hp2 ->]. done. }
  split; [by auto|].
  intros Hrej Hsaf Hcan. apply J2; [|done|done].
  rewrite F2 in Hsaf. destruct (lastFailure w2); [done|].
  apply J1; [done|done|].
  destruct (cancellationRequested s1) eqn:E; [|done]. by rewrite C2 in Hcan.
Qed.

Variable total : Z.

#[local] Ltac no_promise :=
  match goal with
  | Hp : promises ?s = [], E : promises ?s !! _ = Some _ |- _ => by rewrite Hp in E
  end.

Lemma deliver_window (ev : Event) (s : State) : window s (deliver total ev s).
Proof.
  destruct ev as [|n r]; simpl.
  - exists []. rewrite app_nil_r. simpl. repeat split; try done.
  - destruct (promises s !! n) as [[rd| |e]|] eqn:E; try apply window_refl.
    destruct r as [[]|e].
    + destruct (cancellationRequested s) eqn:Ec.
      * exists []. rewrite app_nil_r. simpl.
        repeat split; try done; try no_promise; congruence.
      * exists [Report (done s + rd) total]. simpl.
        repeat split; try done; try (by repeat constructor); try no_promise.
        intros ? _ _. by apply firstRejected_insert_fulfilled.
    + exists [AppendFailed n e]. simpl.
      repeat split; try done; try (by repeat constructor); no_promise.
Qed.

Lemma await_window (evs : list Event) (s : State) :
  window s (foldl (λ s ev, deliver total ev s) s evs).
Proof.
  revert s. induction evs as [|ev evs IH]; intros s; simpl; [apply window_refl|].
  eapply window_trans; [apply deliver_window|apply IH].
Qed.

(** One event while [Promise.all] is awaited and no promise is rejected yet:
    afterwards still none is, and no failure was recorded, or one is, and the
    only failure recorded, if any, is its error. *)
Lemma deliver_all (ev : Event) (s : State) :
  firstRejected (promises s) = None →
  ∃ w, log (deliver total ev s) = log s ++ w
    ∧ Forall idle w
    ∧ Forall (λ a, isOpenCall a = false) w
    ∧ id (deliver total ev s) = id s
    ∧ ((firstRejected (promises (deliver total ev s)) = None ∧ lastFailure w = None)
       ∨ ∃ e, firstRejected (promises (deliver total ev s)) = Some e
              ∧ (lastFailure w = None ∨ lastFailure w = Some e)).
Proof.
  intros Hrej. destruct ev as [|n r]; simpl.
  - exists []. rewrite app_nil_r. simpl. repeat split; try done. by left.
  - destruct (promises s !! n) as [[rd| |e]|] eqn:E;
      try (exists []; rewrite app_nil_r; simpl; repeat split; try done; by left).
    assert (Hn : n < length (promises s)) by (by eapply lookup_lt_Some).
    destruct r as [[]|e].
    + destruct (cancellationRequested s) eqn:Ec.
      * exists []. rewrite app_nil_r. simpl. repeat split; try done.
        right. exists Cancelled. split; [|by left].
        by apply firstRejected_insert_rejected.
      * exists [Report (done s + rd) total]. simpl. repeat split; try done.
        -- by repeat constructor.
        -- by repeat constructor.
        -- left. split; [|done]. by apply firstRejected_insert_fulfilled.
    + exists [AppendFailed n e]. simpl. repeat split; try done.
      * by repeat constructor.
      * by repeat constructor.
      * right. exists e. split; [|by right].
        by apply firstRejected_insert_rejected.
Qed.

Lemma readFileSlice_cases (f : File) (r : Z) (oe : option Error) :
  (0 ≤ r)%Z → (r = 0 ∨ r < size f)%Z →
  match Reader.readFileSlice f r oe with
  | Ok fileSlice => (r ≤ Reader.read fileSlice)%Z
  | Err e => oe = Some e
  end.
Proof.
  intros Hr Hlt. unfold Reader.readFileSlice.
  destruct (Z.eqb_spec (size f) 0) as [Hz|Hnz]; simpl.
  - destruct (Z.eqb_spec r 0); [simpl; lia|]. lia.
  - assert (r < size f)%Z by (unfold size in *; lia).
    destruct (Z.eqb_spec (size f - r) 0); [lia|].
    destruct oe; [done|]. simpl. unfold maxChunkSize. lia.
Qed.

Lemma iteration_spec (entry : UploadEntry) (sch : EntrySchedule) (step : ReadStep)
  (l0 : list Action) (s : State) :
  Head sch l0 s →
  (readBytes s = 0 ∨ readBytes s < size (file entry))%Z →
  step ∈ reads sch →
  match iteration total entry sch step s with
  | (s', Returned again) =>
      Head sch l0 s' ∧ (again = true → (readBytes s' < size (file entry))%Z)
  | (s', o) => Exit sch l0 s' o
  end.
Proof.
  intros (new & Hlog & Hfail & Hsaf & Hrej & Hnone & Hsome & Hread) Hrange Hstep.
  unfold iteration, bind, gets, emit, modify, await, settled, ret, throw, checkCancelled.
  simpl.
  set (s0 := withLog (λ l, l ++ [ReadCall (file entry) (readBytes s)]) s).
  destruct (await_window (during_read step) s0)
    as (w & Lw & Iw & Ow & Fw & Idw & Rw & Dw & Pw & Cw & Jw).
  set (sA := foldl (λ s ev, deliver total ev s) s0 (during_read step)) in *.
  simpl in Lw, Fw, Idw, Rw, Dw, Pw, Cw, Jw. rewrite Hsaf in Fw.
  rewrite Hlog, <- !app_assoc in Lw.
  pose proof (readFileSlice_cases (file entry) (readBytes s) (onerror step) Hread Hrange)
    as Hslice.
  assert (Hq : quiet (new ++ [ReadCall (file entry) (readBytes s)] ++ w)).
  { rewrite app_assoc. apply quiet_app; [by apply quiet_snoc_call|done]. }
  assert (HsomeA : ∀ i, id sA = Some i →
            open_result sch = Ok i
            ∧ Exists (λ a, isOpenCall a = true)
                (new ++ [ReadCall (file entry) (readBytes s)] ++ w)).
  { intros i Hi. rewrite Idw in Hi. destruct (Hsome i Hi) as [Ho Hex].
    split; [done|]. apply Exists_app. by left. }
  assert (HnoneA : id sA = None →
            Forall notOpen (new ++ [ReadCall (file entry) (readBytes s)] ++ w)).
  { intros Hi. rewrite Idw in Hi. destruct (Hnone Hi) as [_ Hno].
    rewrite !Forall_app. repeat split; [done| |done]. by repeat constructor. }
  assert (HfailA : lastFailure w = None →
            lastFailure (new ++ [ReadCall (file entry) (readBytes s)] ++ w) = None).
  { intros Hfw. by rewrite !lastFailure_app, Hfw, Hfail. }
  assert (HlastA : lastFailure (new ++ [ReadCall (file entry) (readBytes s)] ++ w)
            = lastFailure w).
  { rewrite !lastFailure_app, Hfail. simpl. by destruct (lastFailure w). }
  assert (HemptyA : w = [] →
            new ++ [ReadCall (file entry) (readBytes s)] ++ w
            = new ++ [ReadCall (file entry) (readBytes s)]).
  { by intros ->. }
  set (newA := new ++ [ReadCall (file entry) (readBytes s)] ++ w) in *.
  clearbody newA.
  destruct (Reader.readFileSlice (file entry) (readBytes s) (onerror step))
    as [a|e] eqn:Eslice.
  2:{ (* the read fails *)
    exists newA. split; [done|]. split; [done|]. split; [done|].
    split; [by auto|]. right. right. by exists step. }
  destruct (someAppendFailed sA) as [e|] eqn:EsafA.
  { (* an acknowledgement failed while the read was pending *)
    exists newA. split; [done|]. split; [done|]. split; [done|].
    split; [by auto|]. right. left.
    rewrite HlastA. by destruct (lastFailure w). }
  assert (Hfw : lastFailure w = None) by (by destruct (lastFailure w)).
  specialize (HfailA Hfw).
  destruct (cancellationRequested sA) eqn:EcA.
  { (* cancelled while the read was pending *)
    exists newA. split; [done|]. split; [done|]. split; [done|].
    split; [by auto|]. by left. }
  assert (HrejA : firstRejected (promises sA) = None) by (by apply Jw).
  destruct (id sA) as [i|] eqn:EidA.
  { (* a further chunk: append *)
    split.
    - exists (newA ++ [AppendCall i (Reader.content a)
                         (bool_decide (size (file entry) ≤ Reader.read a)%Z)]).
      cbn [log withLog withPromises setReadBytes someAppendFailed promises id readBytes].
      rewrite EidA.
      split; [by rewrite Lw, <- !app_assoc|].
      split. { by rewrite lastFailure_app. }
      split; [done|]. split; [by rewrite firstRejected_snoc_waiting|].
      split; [done|]. split; [|lia].
      intros j Hj. destruct (HsomeA j Hj) as [Ho Hex]. split; [done|].
      apply Exists_app. by left.
    - intros Hagain.
      cbn [log withLog withPromises setReadBytes someAppendFailed promises id readBytes].
      by apply bool_decide_eq_true in Hagain. }
  (* the first chunk: open *)
  assert (HpA : promises sA = []).
  { apply Pw. apply Hnone. by rewrite <- Idw. }
  set (s1 := withLog (λ l, l ++ [OpenCall (uri entry) (Reader.content a)
                (bool_decide (size (file entry) ≤ Reader.read a)%Z)])
               (setReadBytes (Reader.read a) sA)).
  destruct (await_window (during_open sch) s1)
    as (w2 & Lw2 & Iw2 & Ow2 & Fw2 & Idw2 & Rw2 & Dw2 & Pw2 & Cw2 & Jw2).
  set (sB := foldl (λ s ev, deliver total ev s) s1 (during_open sch)) in *.
  cbn [log withLog withPromises setReadBytes someAppendFailed promises id readBytes
       s1 done cancellationRequested]
    in Lw2, Fw2, Idw2, Rw2, Dw2, Pw2, Cw2, Jw2.
  destruct (Pw2 HpA) as [HpB ->]. rewrite app_nil_r in Lw2. simpl in Fw2.
  rewrite Lw, <- app_assoc in Lw2.
  set (newB := newA ++ [OpenCall (uri entry) (Reader.content a)
                 (bool_decide (size (file entry) ≤ Reader.read a)%Z)]) in *.
  assert (Hopen : Exists (λ a, isOpenCall a = true) newB).
  { apply Exists_app. right. by constructor. }
  assert (HfailB : lastFailure newB = None).
  { unfold newB. by rewrite lastFailure_app. }
  clearbody newB.
  destruct (open_result sch) as [i'|e] eqn:Eopen.
  2:{ (* open fails *)
    exists newB. split; [done|].
    split; [by apply quiet_noFailure|].
    split. { intros j Hj. by rewrite Idw2, EidA in Hj. }
    split; [intros _ j Hj; congruence|]. by left. }
  destruct (cancellationRequested sB) eqn:EcB.
  { (* cancelled while open was pending *)
    exists newB. split; [done|].
    split; [by apply quiet_noFailure|].
    split. { intros j [= <-]. done. }
    split; [done|]. by left. }
  split.
  - exists (newB ++ [Report (done (setId i' sB) + Reader.read a) total]).
    cbn [log withLog withPromises setId someAppendFailed promises id readBytes].
    split; [by rewrite Lw2, <- !app_assoc|].
    split. { by rewrite lastFailure_app. }
    split; [by rewrite Fw2, EsafA|]. split; [by rewrite HpB|].
    split; [done|]. split; [|rewrite Rw2; lia].
    intros j [= <-]. split; [done|]. apply Exists_app. by left.
  - intros Hagain.
    cbn [log withLog withPromises setId someAppendFailed promises id readBytes].
    rewrite Rw2. by apply bool_decide_eq_true in Hagain.
Qed.

(** The transfer loop and the reader agree: when nothing happens while the
    loop is suspended, no read fails and [open] is answered, the loop sends
    the slices that repeated calls of [readFileSlice] return, each with the
    done flag [readBytes >= file.size]. *)
Lemma transfer_sends_slices (entry : UploadEntry) (sch : EntrySchedule) (i : string)
  (fuel : nat) (slices : list Reader.FileSlice) (s : State) :
  during_open sch = [] → open_result sch = Ok i →
  someAppendFailed s = None → cancellationRequested s = false →
  Reader.readSlicesFrom fuel (file entry) (readBytes s) = Some (Ok slices) →
  ∃ s', transfer total entry sch
          (replicate fuel {| during_read := []; onerror := None |}) s
        = (s', Returned tt)
    ∧ sentChunks (log s') =
        sentChunks (log s)
        ++ ((λ slice, (Reader.content slice,
                       bool_decide (size (file entry) ≤ Reader.read slice)%Z))
              <$> slices).
Proof.
  intros Hevs Hopen. revert slices s.
  induction fuel as [|fuel IH]; intros slices s Hsaf Hcan Hread; [done|].
  cbn [Reader.readSlicesFrom] in Hread.
  destruct (Reader.readFileSlice (file entry) (readBytes s) None) as [slice|e] eqn:Eslice;
    [|done].
  cbn [replicate transfer]. unfold bind at 1.
  assert (Hit : ∃ s1,
    iteration total entry sch {| during_read := []; onerror := None |} s
      = (s1, Returned (bool_decide (Reader.read slice < size (file entry))%Z))
    ∧ someAppendFailed s1 = None ∧ cancellationRequested s1 = false
    ∧ readBytes s1 = Reader.read slice
    ∧ sentChunks (log s1) =
        sentChunks (log s)
        ++ [(Reader.content slice,
             bool_decide (size (file entry) ≤ Reader.read slice)%Z)]).
  { unfold iteration, bind, gets, emit, modify, await, settled, ret, throw, checkCancelled.
    simpl. rewrite Eslice. simpl. rewrite Hsaf. simpl. rewrite Hcan. simpl.
    destruct (id s) as [j|] eqn:Eid; simpl.
    - eexists. split; [reflexivity|]. simpl.
      repeat split; try done.
      unfold sentChunks. rewrite !omap_app. simpl. by rewrite app_nil_r.
    - rewrite Hevs, Hopen. simpl. rewrite Hcan.
      eexists. split; [reflexivity|]. simpl.
      repeat split; try done.
      unfold sentChunks. rewrite !omap_app. simpl. by rewrite !app_nil_r. }
  destruct Hit as (s1 & -> & Hsaf1 & Hcan1 & Hread1 & Hsent1).
  destruct (Z.ltb_spec (Reader.read slice) (size (file entry))) as [Hmore|Hlast].
  - rewrite bool_decide_eq_true_2 by done.
    destruct (Reader.readSlicesFrom fuel (file entry) (Reader.read slice))
      as [[rest|e]|] eqn:Erest; [|done|done].
    injection Hread as <-.
    rewrite <- Hread1 in Erest.
    destruct (IH rest s1 Hsaf1 Hcan1 Erest) as (s' & Hrun & Hsent).
    exists s'. split; [done|].
    rewrite Hsent, Hsent1, fmap_cons, <- app_assoc. done.
  - rewrite bool_decide_eq_false_2 by lia.
    injection Hread as <-. exists s1. split; [done|]. by rewrite Hsent1.
Qed.

Lemma Head_Exit {A : Type} (sch : EntrySchedule) (l0 : list Action) (s : State)
  (o : Outcome A) :
  Head sch l0 s → Exit sch l0 s o.
Proof.
  intros (new & Hlog & Hfail & Hsaf & Hrej & Hnone & Hsome & Hread).
  exists new. split; [done|]. split; [by apply quiet_noFailure|].
  split; [done|]. split; [intros Hi _ _; by apply Hnone|].
  destruct o; [done|by left|done].
Qed.

Lemma transfer_spec (entry : UploadEntry) (sch : EntrySchedule) (steps : list ReadStep)
  (l0 : list Action) (s : State) :
  Head sch l0 s →
  (readBytes s = 0 ∨ readBytes s < size (file entry))%Z →
  (∀ step, step ∈ steps → step ∈ reads sch) →
  match transfer total entry sch steps s with
  | (s', Returned _) => Head sch l0 s'
  | (s', o) => Exit sch l0 s' o
  end.
Proof.
  revert s. induction steps as [|step steps IH]; intros s Hhead Hrange Hsteps; simpl.
  - by apply Head_Exit.
  - unfold bind.
    pose proof (iteration_spec entry sch step l0 s Hhead Hrange
                  (Hsteps step ltac:(by left))) as Hit.
    destruct (iteration total entry sch step s) as [s' [again|e|]]; [|done|done].
    destruct Hit as [Hhead' Hagain]. destruct again.
    + apply IH; [done|right; by apply Hagain|]. intros st Hst. apply Hsteps. by right.
    + done.
Qed.

Lemma awaitAll_rejected (evs : list Event) (s : State) (e : Error) :
  firstRejected (promises s) = Some e → awaitAll total evs s = (s, Thrown e).
Proof. intros Hrej. destruct evs; simpl; by rewrite Hrej. Qed.

Lemma Head_Waiting (sch : EntrySchedule) (l0 : list Action) (s : State) :
  Head sch l0 s → Waiting sch l0 s.
Proof.
  intros (new & Hlog & Hfail & Hsaf & Hrej & Hnone & Hsome & Hread).
  exists new. split; [done|]. split; [done|]. split; [done|]. split; [done|].
  intros Hi _ _. by apply Hnone.
Qed.

Lemma Waiting_Exit (sch : EntrySchedule) (l0 : list Action) (s : State) (o : Outcome unit) :
  Waiting sch l0 s → Exit sch l0 s o.
Proof.
  intros (new & Hlog & Hfail & Hrej & Hsome & Hnone).
  exists new. split; [done|]. split; [by apply quiet_noFailure|].
  split; [done|]. split; [done|].
  destruct o; [done|by left|done].
Qed.

Lemma awaitAll_spec (sch : EntrySchedule) (evs : list Event) (l0 : list Action) (s : State) :
  Waiting sch l0 s →
  match awaitAll total evs s with
  | (s', Returned _) => Waiting sch l0 s'
  | (s', o) => Exit sch l0 s' o
  end.
Proof.
  revert s. induction evs as [|ev evs IH]; intros s Hw;
    pose proof Hw as (new & Hlog & Hfail & Hrej & Hsome & Hnone);
    simpl; rewrite Hrej.
  - destruct (forallb isFulfilled (promises s)); [done|]. by apply Waiting_Exit.
  - destruct (forallb isFulfilled (promises s)); [done|].
    destruct (deliver_all ev s Hrej) as (w & Lw & Iw & Ow & Idw & Hcases).
    assert (HsomeD : ∀ i, id (deliver total ev s) = Some i →
              open_result sch = Ok i ∧ Exists (λ a, isOpenCall a = true) (new ++ w)).
    { intros i Hi. rewrite Idw in Hi. destruct (Hsome i Hi). split; [done|].
      apply Exists_app. by left. }
    assert (HnoneD : id (deliver total ev s) = None →
              ∀ i, open_result sch = Ok i → Forall notOpen (new ++ w)).
    { intros Hi i Ho. rewrite Idw in Hi. apply Forall_app. split; [by eapply Hnone|done]. }
    destruct Hcases as [[Hrej' Hfw]|(e & Hrej' & Hfw)].
    + apply IH. exists (new ++ w).
      split; [by rewrite Lw, Hlog, app_assoc|].
      split; [by rewrite lastFailure_app, Hfw|]. done.
    + rewrite (awaitAll_rejected _ _ _ Hrej').
      exists (new ++ w). split; [by rewrite Lw, Hlog, app_assoc|].
      split; [apply quiet_app; [by apply quiet_noFailure|done]|].
      split; [done|]. split; [done|].
      rewrite lastFailure_app. destruct Hfw as [->| ->]; [by left|by right; left].
Qed.

Lemma tryBody_spec (entry : UploadEntry) (sch : EntrySchedule) (l0 : list Action)
  (s : State) :
  Head sch l0 s → readBytes s = 0%Z →
  match tryBody total entry sch s with
  | (s', o) => Exit sch l0 s' o
  end.
Proof.
  intros Hhead Hzero. unfold tryBody, bind.
  pose proof (transfer_spec entry sch (reads sch) l0 s Hhead (or_introl Hzero)
                ltac:(done)) as Ht.
  destruct (transfer total entry sch (reads sch) s) as [s1 [[]|e|]]; [|done|done].
  pose proof (awaitAll_spec sch (during_all sch) l0 s1 (Head_Waiting _ _ _ Ht)) as Ha.
  destruct (awaitAll total (during_all sch) s1) as [s2 [[]|e|]]; [|done|done].
  destruct Ha as (new & Hlog & Hfail & Hrej & Hsome & Hnone).
  unfold modify, gets, emit. simpl.
  exists (new ++ [Report (done s2 + size (file entry)) total]).
  cbn [log id withLog addDone].
  split; [by rewrite Hlog, app_assoc|].
  split; [apply quiet_noFailure; by rewrite lastFailure_app|].
  split. { intros i Hi. destruct (Hsome i Hi). split; [done|]. apply Exists_app. by left. }
  split. { intros Hi i Ho. apply Forall_app. split; [by eapply Hnone|by repeat constructor]. }
  by rewrite lastFailure_app.
Qed.

Lemma uploadEntry_spec (entry : UploadEntry) (sch : EntrySchedule) (s : State) :
  EntryExit sch s (uploadEntry total entry sch s).1 (uploadEntry total entry sch s).2.
Proof.
  unfold uploadEntry, bind, gets, emit, modify. simpl.
  set (s0 := enterEntry (withLog (λ l, l ++ [Report (done s) total]) s)).
  assert (Hhead : Head sch (log s) s0).
  { exists [Report (done s) total]. simpl. repeat split; try done.
    by repeat constructor. }
  pose proof (tryBody_spec entry sch (log s) s0 Hhead eq_refl) as Hbody.
  destruct (tryBody total entry sch s0) as [s1 o].
  destruct Hbody as (new & Hlog & Hq & Hsome & Hnone & Ho).
  assert (Hfinally : EntryExit sch s (finallyClose s1) o).
  { unfold finallyClose. destruct (id s1) as [i|] eqn:Ei.
    - exists (new ++ [CloseCall i]). cbn [log id withLog]. rewrite Ei.
      split; [by rewrite Hlog, app_assoc|].
      split; [apply quiet_app; [done|by repeat constructor]|].
      split. { intros j Hj. destruct (Hsome j Hj). split; [done|].
               apply Exists_app. by left. }
      split; [done|].
      split. { rewrite lastFailure_app. simpl. done. }
      intros _ j [= <-]. by exists new.
    - exists new. rewrite Ei.
      repeat split; try done; try (match goal with Hi : id _ = Some _ |- _ => by destruct (Hsome _ Hi) end). }
  destruct o as [[]|e|]; simpl; [done|done|].
  exists new. repeat split; try done; try (match goal with Hi : id _ = Some _ |- _ => by destruct (Hsome _ Hi) end).
Qed.

Lemma quiet_app_l (l w : list Action) : lastFailure l = None → quiet w → quiet (l ++ w).
Proof.
  intros Hl Hw. induction l as [|a l IH]; simpl; [done|].
  simpl in Hl. destruct (lastFailure l) eqn:E; [done|].
  split; [|by apply IH]. intros (n & e & ->). done.
Qed.

Lemma SessionExit_cons (sch : EntrySchedule) (schs : list EntrySchedule) (s' : State)
  (o : Outcome unit) :
  SessionExit schs s' o → SessionExit (sch :: schs) s' o.
Proof.
  intros [Hq Ho]. split; [done|]. destruct o as [[]|e|]; [done| |done].
  destruct Ho as [?|[?|(sch' & step & Hin & Hstep & He)]]; [by left|by right; left|].
  right. right. exists sch', step. split; [by right|done].
Qed.

Lemma uploadEntries_spec (es : list UploadEntry) (schs : list EntrySchedule) (s : State) :
  lastFailure (log s) = None →
  SessionExit schs (uploadEntries total es schs s).1 (uploadEntries total es schs s).2.
Proof.
  revert schs s. induction es as [|entry es IH]; intros schs s Hs; simpl.
  { split; [by apply quiet_noFailure|done]. }
  destruct schs as [|sch schs]; simpl.
  { split; [by apply quiet_noFailure|done]. }
  unfold bind.
  pose proof (uploadEntry_spec entry sch s) as Hentry.
  destruct (uploadEntry total entry sch s) as [s1 o]. simpl in Hentry.
  destruct Hentry as (new & Hlog & Hq & _ & _ & Ho & _).
  assert (Hq1 : quiet (log s1)) by (rewrite Hlog; by apply quiet_app_l).
  assert (Hl1 : lastFailure (log s1) = lastFailure new).
  { rewrite Hlog, lastFailure_app, Hs. by destruct (lastFailure new). }
  destruct o as [[]|e|]; simpl.
  - apply SessionExit_cons, IH. by rewrite Hl1.
  - split; [done|]. rewrite Hl1.
    destruct Ho as [?|[?|(step & Hstep & He)]]; [by left|by right; left|].
    right. right. exists sch, step. split; [by left|done].
  - split; [done|]. by rewrite Hl1.
Qed.

Lemma uploadEntries_thrown (es : list UploadEntry) (schs : list EntrySchedule)
  (s s' : State) (err : Error) :
  uploadEntries total es schs s = (s', Thrown err) →
  ∃ before entry after schs1 sch schs2 s1,
    es = before ++ entry :: after
    ∧ schs = schs1 ++ sch :: schs2
    ∧ length schs1 = length before
    ∧ uploadEntries total before schs1 s = (s1, Returned tt)
    ∧ uploadEntry total entry sch s1 = (s', Thrown err).
Proof.
  revert schs s. induction es as [|entry es IH]; intros schs s; simpl; [done|].
  destruct schs as [|sch schs]; simpl; [done|]. unfold bind.
  destruct (uploadEntry total entry sch s) as [s1 [[]|e|]] eqn:E; [| |done].
  - intros Hrest.
    destruct (IH _ _ Hrest) as (before & entry' & after & schs1 & sch' & schs2 & s2
                                  & -> & -> & Hlen & Hbefore & Hthrow).
    exists (entry :: before), entry', after, (sch :: schs1), sch', schs2, s2.
    simpl. unfold bind. rewrite E, Hbefore, Hlen. done.
  - intros [= <- <-]. by exists [], entry, es, [], sch, schs, s.
Qed.

Lemma uploadEntries_stops (before after : list UploadEntry) (entry : UploadEntry)
  (schs1 schs2 : list EntrySchedule) (sch : EntrySchedule) (s s1 s2 : State) (err : Error) :
  length schs1 = length before →
  uploadEntries total before schs1 s = (s1, Returned tt) →
  uploadEntry total entry sch s1 = (s2, Thrown err) →
  uploadEntries total (before ++ entry :: after) (schs1 ++ sch :: schs2) s
    = (s2, Thrown err).
Proof.
  revert schs1 s. induction before as [|b before IH]; intros schs1 s Hlen Hbefore Hthrow.
  - destruct schs1; [|done]. simpl in *. unfold bind.
    injection Hbefore as <-. by rewrite Hthrow.
  - destruct schs1 as [|sch1 schs1]; [done|]. simpl in *. unfold bind in *.
    destruct (uploadEntry total b sch1 s) as [s' [[]|e|]]; [|done|done].
    apply IH; [lia|done|done].
Qed.

End SessionFacts.

Section SessionClaims.
Context `{BrowserHost}.
Import Session.

Lemma firstFailure_Some (l : list Action) (e : Error) :
  firstFailure l = Some e → ∃ n, AppendFailed n e ∈ l.
Proof.
  induction l as [|a l IH]; simpl; [done|]. intros Hf.
  destruct a; try (destruct (IH Hf) as [m Hm]; exists m; by right).
  injection Hf as <-. exists n. by left.
Qed.

(** [doUpload] in terms of the [for] loop. *)
Lemma doUpload_unfold (context : Indexer.Context) (cancelled : bool)
  (schs : list EntrySchedule) :
  Indexer.entries context ≠ [] →
  doUpload context cancelled schs =
    match uploadEntries (Indexer.totalSize context) (Indexer.entries context) schs
            (start cancelled) with
    | (s, Returned _) =>
        (log s ++ [Report (Indexer.totalSize context) (Indexer.totalSize context)],
         Returned {| uploaded := [] |})
    | (s, Thrown e) => (log s, Thrown e)
    | (s, Unsettled) => (log s, Unsettled)
    end.
Proof. unfold doUpload. by destruct (Indexer.entries context). Qed.

(** Whatever the entries and the schedule, a call that resolves resolves with
    an empty [uploaded] list. *)
Lemma doUpload_uploaded (context : Indexer.Context) (cancelled : bool)
  (schs : list EntrySchedule) (result : FileUploadResult) :
  (doUpload context cancelled schs).2 = Returned result → uploaded result = [].
Proof.
  destruct (Indexer.entries context) as [|entry es] eqn:Ees.
  - unfold doUpload. rewrite Ees. simpl. by intros [= <-].
  - rewrite doUpload_unfold by (by rewrite Ees).
    destruct (uploadEntries (Indexer.totalSize context) (Indexer.entries context)
                schs (start cancelled)) as [s [[]|e|]]; simpl; [|done|done].
    by intros [= <-].
Qed.

(** C6, as amended.  In the actions of a call nothing that follows a failed
    acknowledgement is a read or a send.  A call in which an acknowledgement
    failed rejects, with the error of the last acknowledgement that failed
    or with the error of a read that failed.  So when no read fails and the
    last failure carries the error of the first one, as it does when only one
    acknowledgement fails, the call rejects with the first failure. *)
Theorem append_failure_stops_and_rejects (context : Indexer.Context) (cancelled : bool)
  (schs : list EntrySchedule) :
  let log := (doUpload context cancelled schs).1 in
  let outcome := (doUpload context cancelled schs).2 in
  (∀ l1 n e l2, log = l1 ++ AppendFailed n e :: l2 →
     Forall (λ a, isTransfer a = false) l2)
  ∧ (∀ n e, AppendFailed n e ∈ log →
       ∃ e', outcome = Thrown e'
         ∧ (lastFailure log = Some e'
            ∨ ∃ sch step, sch ∈ schs ∧ step ∈ reads sch ∧ onerror step = Some e'))
  ∧ ((∀ sch step, sch ∈ schs → step ∈ reads sch → onerror step = None) →
     lastFailure log = firstFailure log →
     ∀ e, firstFailure log = Some e → outcome = Thrown e).
Proof.
  intros log outcome.
  assert (Hexit : quiet log
    ∧ match outcome with
      | Thrown e =>
          lastFailure log = None ∨ lastFailure log = Some e
          ∨ ∃ sch step, sch ∈ schs ∧ step ∈ reads sch ∧ onerror step = Some e
      | _ => lastFailure log = None
      end).
  { subst log outcome. destruct (Indexer.entries context) as [|entry es] eqn:Ees.
    - unfold doUpload. rewrite Ees. simpl. done.
    - rewrite doUpload_unfold by (by rewrite Ees).
      pose proof (uploadEntries_spec (Indexer.totalSize context)
                    (Indexer.entries context) schs (start cancelled) eq_refl)
        as [Hq Ho].
      destruct (uploadEntries (Indexer.totalSize context) (Indexer.entries context)
                  schs (start cancelled)) as [s [[]|e|]]; simpl in *; [|done|done].
      split; [apply quiet_app; [done|by repeat constructor]|].
      by rewrite lastFailure_app. }
  destruct Hexit as [Hq Ho].
  assert (Hrejects : ∀ n e, AppendFailed n e ∈ log →
            ∃ e', outcome = Thrown e'
              ∧ (lastFailure log = Some e'
                 ∨ ∃ sch step, sch ∈ schs ∧ step ∈ reads sch ∧ onerror step = Some e')).
  { intros n e Hin.
    destruct outcome as [r|e'|];
      try (by apply (lastFailure_None _ n e) in Ho).
    exists e'. split; [done|].
    destruct Ho as [Ho|[Ho|Ho]]; [|by left|by right].
    by apply (lastFailure_None _ n e) in Ho. }
  split; [intros l1 n e l2 Hsplit; by eapply quiet_split|].
  split; [done|].
  intros Hreads Hsame e Hfirst.
  destruct (firstFailure_Some _ _ Hfirst) as [n Hin].
  destruct (Hrejects n e Hin) as (e' & -> & [Hlast|(sch & step & Hsch & Hstep & He)]).
  - rewrite Hsame, Hfirst in Hlast. by injection Hlast as ->.
  - by rewrite (Hreads sch step Hsch Hstep) in He.
Qed.

(** C7.  When the call rejects, some entry left its [try] block by an
    exception, after the entries before it were transferred.  The actions of
    the call end with those of that entry, whatever entries follow it: no
    read or send is made for them.  The [id] of that entry is set exactly
    if its [open] was called and answered with the id, and then the last
    action of the call is [close] of that id. *)
Theorem close_on_abnormal_exit (context : Indexer.Context) (cancelled : bool)
  (schs : list EntrySchedule) (err : Error) :
  (doUpload context cancelled schs).2 = Thrown err →
  let total := Indexer.totalSize context in
  ∃ before entry after schs1 sch schs2 s1 s2 new,
    Indexer.entries context = before ++ entry :: after
    ∧ schs = schs1 ++ sch :: schs2
    ∧ length schs1 = length before
    ∧ uploadEntries total before schs1 (start cancelled) = (s1, Returned tt)
    ∧ uploadEntry total entry sch s1 = (s2, Thrown err)
    ∧ log s2 = log s1 ++ new
    ∧ (doUpload context cancelled schs).1 = log s2
    ∧ (∀ after' schs2',
         doUpload {| Indexer.totalSize := total;
                     Indexer.entries := before ++ entry :: after' |}
           cancelled (schs1 ++ sch :: schs2') = (log s2, Thrown err))
    ∧ (∀ i, open_result sch = Ok i → Exists (λ a, isOpenCall a = true) new →
            id s2 = Some i)
    ∧ (∀ i, id s2 = Some i →
            open_result sch = Ok i
            ∧ Exists (λ a, isOpenCall a = true) new
            ∧ ∃ l, (doUpload context cancelled schs).1 = l ++ [CloseCall i]).
Proof.
  intros Hthrown total.
  destruct (Indexer.entries context) as [|entry0 es0] eqn:Ees.
  { unfold doUpload in Hthrown. by rewrite Ees in Hthrown. }
  rewrite doUpload_unfold in Hthrown |- * by (by rewrite Ees).
  fold total in Hthrown |- *. rewrite Ees in Hthrown |- *.
  destruct (uploadEntries total (entry0 :: es0) schs (start cancelled))
    as [s2 [[]|e|]] eqn:Erun; simpl in Hthrown; [done| |done].
  injection Hthrown as ->.
  destruct (uploadEntries_thrown _ _ _ _ _ _ Erun)
    as (before & entry & after & schs1 & sch & schs2 & s1
        & Hes & Hschs & Hlen & Hbefore & Hentry).
  pose proof (uploadEntry_spec total entry sch s1) as Hexit.
  rewrite Hentry in Hexit. simpl in Hexit.
  destruct Hexit as (new & Hlog & Hq & Hsome & Hnone & Ho & Hclose).
  exists before, entry, after, schs1, sch, schs2, s1, s2, new.
  split; [done|]. split; [done|]. split; [done|]. split; [done|]. split; [done|].
  split; [done|]. split; [done|].
  split.
  { intros after' schs2'. rewrite doUpload_unfold; simpl.
    - by rewrite (uploadEntries_stops total before after' entry schs1 schs2' sch
                    _ s1 s2 err Hlen Hbefore Hentry).
    - by destruct before. }
  split.
  { intros i Hopen Hex. destruct (id s2) as [j|] eqn:Ej.
    - destruct (Hsome j eq_refl) as [Hj _]. congruence.
    - specialize (Hnone eq_refl i Hopen).
      apply Exists_exists in Hex as (a & Hin & Ha).
      rewrite Forall_forall in Hnone. specialize (Hnone a Hin).
      unfold notOpen in Hnone. congruence. }
  intros i Hi. destruct (Hsome i Hi) as [Hopen Hex].
  split; [done|]. split; [done|].
  destruct (Hclose ltac:(done) i Hi) as [l ->].
  exists (log s1 ++ l). simpl. by rewrite Hlog, app_assoc.
Qed.

End SessionClaims.

Section SessionExamples.
Import Session Examples.

(** C1. Uploading the empty file [empty.txt] to [file:///w] makes one [open]
    call with the empty content and the done flag, closes the upload and
    resolves; the [uploaded] list of the result is empty, it does not hold
    the URI of the file. *)
Theorem empty_file_uploaded_list_is_empty :
  upload "file:///w" emptyDrop None [answered] =
    ([Report 0 0; ReadCall emptyFile 0; OpenCall "file:///w/empty.txt" "" true;
      Report 0 0; Report 0 0; CloseCall "upload_000102030405060708090a0b0c0d0e0f"; Report 0 0],
     Returned {| uploaded := [] |})
  ∧ uploaded {| uploaded := [] |} ≠ ["file:///w/empty.txt"].
Proof. split; [by vm_compute|done]. Qed.

(** C6, the claim as it was stated: the call does not always reject with the
    first failure.  Here the first acknowledgement that fails carries
    ["first"], and the call rejects with ["second"]. *)
Lemma second_failure_rejects :
  let log := (doUpload fourChunksContext false [twoFailures]).1 in
  let outcome := (doUpload fourChunksContext false [twoFailures]).2 in
  ¬ (∀ e, firstFailure log = Some e → outcome = Thrown e).
Proof.
  intros log outcome Hclaim.
  specialize (Hclaim (Failure "first")).
  assert (Hfirst : firstFailure log = Some (Failure "first")) by (by vm_compute).
  specialize (Hclaim Hfirst).
  assert (Houtcome : outcome = Thrown (Failure "second")) by (by vm_compute).
  congruence.
Qed.

Lemma append_failure_stops_and_rejects_witness :
  ∃ e', (doUpload fourChunksContext false [twoFailures]).2 = Thrown e'
    ∧ (lastFailure (doUpload fourChunksContext false [twoFailures]).1 = Some e'
       ∨ ∃ sch step, sch ∈ [twoFailures] ∧ step ∈ reads sch ∧ onerror step = Some e').
Proof.
  apply (proj1 (proj2 (append_failure_stops_and_rejects
                         fourChunksContext false [twoFailures]))
           0 (Failure "first")).
  apply (list_elem_of_lookup_2 _ 9). vm_compute. reflexivity.
Defined.

Lemma close_on_abnormal_exit_witness :
  let total := Indexer.totalSize twoFiles in
  let schs := [cancelledInOpen; answered] in
  ∃ before entry after schs1 sch schs2 s1 s2 new,
    Indexer.entries twoFiles = before ++ entry :: after
    ∧ schs = schs1 ++ sch :: schs2
    ∧ length schs1 = length before
    ∧ uploadEntries total before schs1 (start false) = (s1, Returned tt)
    ∧ uploadEntry total entry sch s1 = (s2, Thrown Cancelled)
    ∧ log s2 = log s1 ++ new
    ∧ (doUpload twoFiles false schs).1 = log s2
    ∧ (∀ after' schs2',
         doUpload {| Indexer.totalSize := total;
                     Indexer.entries := before ++ entry :: after' |}
           false (schs1 ++ sch :: schs2') = (log s2, Thrown Cancelled))
    ∧ (∀ i, open_result sch = Ok i → Exists (λ a, isOpenCall a = true) new →
            id s2 = Some i)
    ∧ (∀ i, id s2 = Some i →
            open_result sch = Ok i
            ∧ Exists (λ a, isOpenCall a = true) new
            ∧ ∃ l, (doUpload twoFiles false schs).1 = l ++ [CloseCall i]).
Proof.
  apply (close_on_abnormal_exit twoFiles false [cancelledInOpen; answered] Cancelled).
  vm_compute. reflexivity.
Defined.

End SessionExamples.

(** * Further properties *)

(** ** The server *)

Section ServerMore.
Context `{NodeHost}.
Import Server.

Lemma run_cons (c : Call) (cs : list Call) (s : State) :
  run (c :: cs) s = run cs (step c s).
Proof. done. Qed.

Lemma run_app (cs1 cs2 : list Call) (s : State) :
  run (cs1 ++ cs2) s = run cs2 (run cs1 s).
Proof. unfold run. by rewrite foldl_app. Qed.

(** Appending chunks without the done flag to a registered upload: the
    registry stays, the temporary file grows by the decoded chunks, every
    request is answered. *)
Lemma staging_appends (i : string) (u : NodeFileUpload) (chunks : list string) (s : State) :
  uploads s !! i = Some u →
  let cs := (λ c, Append i c false) <$> chunks in
  uploads (run cs s) = uploads s
  ∧ disk (run cs s) =
      (if chunks is [] then disk s
       else <[uploadPath u :=
                default [] (disk s !! uploadPath u) ++ concat (base64_bytes <$> chunks)]>
              (disk s))
  ∧ Forall (λ r, r = Ok tt) (answers cs s).
Proof.
  intros Hu. revert s Hu. induction chunks as [|c chunks IH]; intros s Hu; cbv zeta.
  { done. }
  rewrite fmap_cons, run_cons. cbn [answers answer step].
  rewrite (append_spec _ _ _ _ _ Hu). cbn [fst snd].
  set (s1 := {| uploads := uploads s;
                disk := <[uploadPath u :=
                            default [] (disk s !! uploadPath u) ++ base64_bytes c]>
                          (disk s) |}).
  destruct (IH s1 Hu) as (Hups & Hdisk & Hans).
  split; [done|]. split; [|by constructor].
  rewrite Hdisk. destruct chunks as [|c' chunks]; simpl.
  - by rewrite app_nil_r.
  - rewrite lookup_insert_eq. simpl. rewrite insert_insert_eq.
    by rewrite <- !app_assoc.
Qed.

(** The appends of an upload, the last one with the done flag, on a
    registered upload whose temporary file holds [data]. *)
Lemma finalizing_appends (i : string) (u : NodeFileUpload) (chunks : list string)
  (data : list byte) (s : State) :
  chunks ≠ [] → id u = i →
  uploads s !! i = Some u → disk s !! uploadPath u = Some data →
  let cs := appendCalls i chunks in
  uploads (run cs s) = <[i := finalized u]> (uploads s)
  ∧ disk (run cs s) =
      <[fsPath u := data ++ concat (base64_bytes <$> chunks)]>
        (delete (uploadPath u) (disk s))
  ∧ Forall (λ r, r = Ok tt) (answers cs s).
Proof.
  intros Hne <-. cbv zeta. revert data s.
  induction chunks as [|c chunks IH]; intros data s Hu Hdata; [done|].
  destruct chunks as [|c' chunks].
  - cbn [appendCalls answers answer]. rewrite run_cons. cbn [step run foldl].
    rewrite (append_spec _ _ _ _ _ Hu). cbn [fst snd].
    rewrite Hdata. simpl. rewrite app_nil_r. split; [done|]. split; [done|].
    by repeat constructor.
  - change (appendCalls (id u) (c :: c' :: chunks))
      with (Append (id u) c false :: appendCalls (id u) (c' :: chunks)).
    rewrite run_cons. cbn [answers answer step].
    rewrite (append_spec _ _ _ _ _ Hu). cbn [fst snd].
    rewrite Hdata. simpl (default _ _).
    set (s1 := {| uploads := uploads s;
                  disk := <[uploadPath u := data ++ base64_bytes c]> (disk s) |}).
    assert (Hne' : c' :: chunks ≠ []) by done.
    destruct (IH Hne' (data ++ base64_bytes c) s1 Hu) as (Hups & Hdisk & Hans).
    { simpl. apply lookup_insert_eq. }
    split; [done|]. split; [|by constructor].
    rewrite Hdisk. simpl. rewrite delete_insert_eq.
    by rewrite <- app_assoc.
Qed.

(** The requests of a whole upload, on any state of the server. *)
Lemma uploadCalls_spec (uri hex content : string) (chunks : list string) (s : State) :
  let u := newNodeFileUpload (FileUri_fsPath uri) hex in
  let cs := uploadCalls uri hex (content :: chunks) in
  Forall (λ r, r = Ok tt) (answers cs s)
  ∧ disk (run cs s) =
      <[fsPath u := concat (base64_bytes <$> content :: chunks)]>
        (delete (uploadPath u) (disk s))
  ∧ uploads (run cs s) = <[id u := finalized u]> (uploads s).
Proof.
  intros u cs. subst cs. destruct chunks as [|c chunks].
  - cbn [uploadCalls answers answer]. rewrite run_cons. cbn [step run foldl].
    rewrite open_spec. simpl. rewrite app_nil_r. by repeat constructor.
  - change (uploadCalls uri hex (content :: c :: chunks))
      with (Open uri content false hex :: appendCalls (id u) (c :: chunks)).
    rewrite run_cons. cbn [answers answer step]. rewrite open_spec. cbn [fst snd].
    fold u.
    set (s1 := {| uploads := <[id u := u]> (uploads s);
                  disk := <[uploadPath u := base64_bytes content]> (disk s) |}).
    destruct (finalizing_appends (id u) u (c :: chunks) (base64_bytes content) s1)
      as (Hups & Hdisk & Hans); [done|done|apply lookup_insert_eq|apply lookup_insert_eq|].
    split; [by constructor|]. rewrite Hdisk, Hups. simpl.
    by rewrite delete_insert_eq, insert_insert_eq.
Qed.


(** The requests of an upload in progress, on any state of the server. *)
Lemma stagingCalls_spec (uri hex content : string) (chunks : list string) (s : State) :
  let u := newNodeFileUpload (FileUri_fsPath uri) hex in
  let cs := stagingCalls uri hex content chunks in
  Forall (λ r, r = Ok tt) (answers cs s)
  ∧ disk (run cs s) =
      <[uploadPath u := concat (base64_bytes <$> content :: chunks)]> (disk s)
  ∧ uploads (run cs s) = <[id u := u]> (uploads s).
Proof.
  intros u cs. subst cs. unfold stagingCalls.
  rewrite run_cons. cbn [answers answer step]. rewrite open_spec. cbn [fst snd].
  fold u. change ("upload_" +:+ hex) with (id u).
  set (s1 := {| uploads := <[id u := u]> (uploads s);
                disk := <[uploadPath u := base64_bytes content]> (disk s) |}).
  assert (Hu : uploads s1 !! id u = Some u) by apply lookup_insert_eq.
  destruct (staging_appends (id u) u chunks s1 Hu) as (Hups & Hdisk & Hans).
  rewrite Hups, Hdisk. split; [by constructor|]. split; [|done].
  destruct chunks as [|c chunks]; simpl.
  - by rewrite app_nil_r.
  - by rewrite lookup_insert_eq, insert_insert_eq.
Qed.


(** X4. The records of the registry.  After any requests, the registry holds
    exactly the ids some [open] has created, none is ever removed; and the
    record under an id is the one an [open] with that id has constructed, as
    constructed or finalized. *)
Theorem registry_holds_every_opened_upload (cs : list Call) (d : Fs.Disk) (i : string) :
  let s := run cs (init d) in
  (is_Some (uploads s !! i) ↔
     ∃ uri content flag hex, Open uri content flag hex ∈ cs ∧ i = "upload_" +:+ hex)
  ∧ (∀ u, uploads s !! i = Some u →
       ∃ uri content flag hex, Open uri content flag hex ∈ cs
         ∧ (u = newNodeFileUpload (FileUri_fsPath uri) hex
            ∨ u = finalized (newNodeFileUpload (FileUri_fsPath uri) hex))
         ∧ i = "upload_" +:+ hex).
Proof.
  intros s. split; [apply registry_ids|]. subst s. revert i.
  induction cs as [|c cs IH] using rev_ind; intros i u.
  - simpl. by rewrite lookup_empty.
  - rewrite run_app, run_cons. cbn [run foldl].
    fold (run cs (init d)). set (s := run cs (init d)) in *.
    assert (Hold : uploads s !! i = Some u
        ∨ (∃ v, uploads s !! i = Some v ∧ u = finalized v) →
      ∃ uri content flag hex, Open uri content flag hex ∈ cs ++ [c]
        ∧ (u = newNodeFileUpload (FileUri_fsPath uri) hex
           ∨ u = finalized (newNodeFileUpload (FileUri_fsPath uri) hex))
        ∧ i = "upload_" +:+ hex).
    { intros [Hi|(v & Hi & ->)];
        destruct (IH _ _ Hi) as (uri & content & flag & hex & Hin & Hu & ->);
        exists uri, content, flag, hex; (split; [apply elem_of_app; by left|]);
        (split; [|done]); [done|].
      right. by destruct Hu as [->| ->]. }
    destruct c as [uri content flag hex|j content flag|j]; cbn [step].
    + rewrite open_spec. cbn [fst].
      assert (Hnew : ∀ v, (v = newNodeFileUpload (FileUri_fsPath uri) hex
                           ∨ v = finalized (newNodeFileUpload (FileUri_fsPath uri) hex)) →
        <["upload_" +:+ hex := v]> (uploads s) !! i = Some u →
        ∃ uri' content' flag' hex', Open uri' content' flag' hex' ∈ cs ++ [Open uri content flag hex]
          ∧ (u = newNodeFileUpload (FileUri_fsPath uri') hex'
             ∨ u = finalized (newNodeFileUpload (FileUri_fsPath uri') hex'))
          ∧ i = "upload_" +:+ hex').
      { intros v Hv. rewrite lookup_insert. case_decide as Hi.
        - intros [= <-]. exists uri, content, flag, hex.
          split; [apply elem_of_app; right; by apply list_elem_of_singleton|done].
        - intros Hi'. apply Hold. by left. }
      destruct flag; cbn [uploads]; apply Hnew; [by right|by left].
    + destruct (uploads s !! j) as [v|] eqn:E.
      * rewrite (append_spec _ _ _ _ _ E). destruct flag; cbn [fst uploads].
        -- destruct (reachable_wellFormed s ltac:(by exists d, cs) _ _ E) as [Hid _].
           rewrite Hid, lookup_insert. case_decide as Hi.
           ++ intros [= <-]. apply Hold. right. exists v. by subst.
           ++ intros Hi'. apply Hold. by left.
        -- intros Hi'. apply Hold. by left.
      * rewrite append_unknown by done. intros Hi'. apply Hold. by left.
    + rewrite close_spec. cbn [fst uploads]. intros Hi'. apply Hold. by left.
Qed.


End ServerMore.
(** ** The server on the event loop *)

Section LoopMore.
Context `{NodeHost}.
Import Server Interleaved.

Lemma plain_ok (l : list (nat * Result (option string))) :
  Forall (λ r, r = Ok tt) (plain <$> l.*2) → Forall (λ a, failureOf a.2 = None) l.
Proof.
  induction l as [|[n r] l IH]; [constructor|].
  rewrite !fmap_cons. intros [Hr Hl]%Forall_cons. constructor; [|by apply IH].
  simpl in *. by destruct r.
Qed.

(** What handling requests one at a time gives, read off [Server]. *)
Lemma oneAtATime_spec (cs : list Call) (s : State) :
  wellFormed s → pending s = [] →
  Forall (λ r, r = Ok tt) (Server.answers cs (atomic s)) →
  let s' := run (oneAtATime cs) s in
  (∃ al, answers s' = answers s ++ al
     ∧ al.*1 = seq (length (requests s)) (length cs)
     ∧ Forall (λ a, failureOf a.2 = None) al)
  ∧ pending s' = []
  ∧ wellFormed s'
  ∧ requests s' = requests s ++ cs
  ∧ disk s' = Server.disk (Server.run cs (atomic s))
  ∧ (∀ i, uploads s' !! i ≫= (objects s' !!.) = Server.uploads (Server.run cs (atomic s)) !! i).
Proof.
  intros Hwf Hp Hok s'.
  destruct (oneAtATime_run cs s Hwf Hp) as (Hat & Hp' & Hwf' & Hr & al & Ha & Hn & Hpl).
  fold s' in Hat, Hp', Hwf', Hr, Ha.
  split. { exists al. split; [done|]. split; [done|]. apply plain_ok. by rewrite Hpl. }
  split; [done|]. split; [done|]. split; [done|].
  split; [by rewrite <- Hat|].
  intros i. by rewrite <- Hat, atomic_lookup.
Qed.

(** X1. A whole upload handled one at a time, when no call fails and nothing
    else is pending: every request is answered without an error, the
    destination holds the decoded chunks in the order they were sent,
    replacing what was there, nothing is left at the temporary path unless it
    is the destination, no other path is touched, and the registry holds the
    object of the upload, with its [dispose] replaced. *)
Theorem upload_assembles_the_chunks (uri hex content : string) (chunks : list string)
  (s : State) (p : string) :
  reachable s → pending s = [] →
  let u := newNodeFileUpload (FileUri_fsPath uri) hex in
  let cs := uploadCalls uri hex (content :: chunks) in
  let s' := run (oneAtATime cs) s in
  (∃ al, answers s' = answers s ++ al
     ∧ al.*1 = seq (length (requests s)) (length cs)
     ∧ Forall (λ a, failureOf a.2 = None) al)
  ∧ pending s' = []
  ∧ disk s' !! FileUri_fsPath uri = Some (concat (base64_bytes <$> content :: chunks))
  ∧ (uploadPath u ≠ FileUri_fsPath uri → disk s' !! uploadPath u = None)
  ∧ (p ≠ FileUri_fsPath uri → p ≠ uploadPath u → disk s' !! p = disk s !! p)
  ∧ uploads s' !! ("upload_" +:+ hex) ≫= (objects s' !!.) = Some (finalized u).
Proof.
  intros Hwf%loop_wellFormed Hp u cs s'.
  destruct (uploadCalls_spec uri hex content chunks (atomic s)) as (Hans & Hdisk & Hups).
  fold u cs in Hans, Hdisk, Hups.
  destruct (oneAtATime_spec cs s Hwf Hp Hans) as (Hal & Hp' & _ & _ & Hd & Hu).
  fold s' in Hal, Hp', Hd, Hu. rewrite Hd, Hu, Hdisk, Hups.
  split; [done|]. split; [done|]. split; [apply lookup_insert_eq|].
  split. { intros Hne. rewrite lookup_insert_ne by done. apply lookup_delete_eq. }
  split. { intros Hp1 Hp2. rewrite lookup_insert_ne by done. by rewrite lookup_delete_ne. }
  apply lookup_insert_eq.
Qed.

(** X2. An upload in progress, handled one request at a time, when no call fails
    and nothing else is pending: every request is answered without an error,
    the temporary file holds exactly the decoded chunks received so far, in
    the order they were sent, replacing what was at that path, and nothing
    else on the disk has changed; in particular the destination, unless it is
    that path, is as it was.  The registry holds the object as constructed. *)
Theorem staged_chunks_accumulate (uri hex content : string) (chunks : list string)
  (s : State) (p : string) :
  reachable s → pending s = [] →
  let u := newNodeFileUpload (FileUri_fsPath uri) hex in
  let cs := stagingCalls uri hex content chunks in
  let s' := run (oneAtATime cs) s in
  (∃ al, answers s' = answers s ++ al
     ∧ al.*1 = seq (length (requests s)) (length cs)
     ∧ Forall (λ a, failureOf a.2 = None) al)
  ∧ pending s' = []
  ∧ disk s' !! uploadPath u = Some (concat (base64_bytes <$> content :: chunks))
  ∧ (p ≠ uploadPath u → disk s' !! p = disk s !! p)
  ∧ uploads s' !! ("upload_" +:+ hex) ≫= (objects s' !!.) = Some u.
Proof.
  intros Hwf%loop_wellFormed Hp u cs s'.
  destruct (stagingCalls_spec uri hex content chunks (atomic s)) as (Hans & Hdisk & Hups).
  fold u cs in Hans, Hdisk, Hups.
  destruct (oneAtATime_spec cs s Hwf Hp Hans) as (Hal & Hp' & _ & _ & Hd & Hu).
  fold s' in Hal, Hp', Hd, Hu. rewrite Hd, Hu, Hdisk, Hups.
  split; [done|]. split; [done|]. split; [apply lookup_insert_eq|].
  split; [intros Hp1; by rewrite lookup_insert_ne|apply lookup_insert_eq].
Qed.

(** X3. An upload that is given up, handled one request at a time, when no
    write fails and nothing else is pending.  Every request is answered
    without an error; [close] is answered as it arrives, when the unlink it
    started is pending and the temporary file is still in place.  When the
    unlink has settled, the disk is as it was before the upload, except that
    nothing is at the temporary path; when the unlink fails, the error is
    swallowed and the temporary file stays.  The object stays in the
    registry. *)
Theorem aborted_upload_leaves_the_disk (uri hex content : string) (chunks : list string)
  (s : State) (e : Error) :
  reachable s → pending s = [] →
  let u := newNodeFileUpload (FileUri_fsPath uri) hex in
  let i := "upload_" +:+ hex in
  let n := length (requests s) + S (length chunks) in
  let s1 := run (oneAtATime (stagingCalls uri hex content chunks) ++ [Request (Close i)]) s in
  (∃ al, answers s1 = answers s ++ al
     ∧ al.*1 = seq (length (requests s)) (S (S (length chunks)))
     ∧ Forall (λ a, failureOf a.2 = None) al)
  ∧ (∃ r, pending s1 = [{| request := n; call := Close i; upload := r; point := Unawaited |}]
       ∧ uploads s1 !! i = Some r ∧ objects s1 !! r = Some u)
  ∧ disk s1 = <[uploadPath u := concat (base64_bytes <$> content :: chunks)]> (disk s)
  ∧ (let s2 := step (Settle 0 None) s1 in
     disk s2 = delete (uploadPath u) (disk s) ∧ answers s2 = answers s1 ∧ pending s2 = [])
  ∧ (let s2 := step (Settle 0 (Some e)) s1 in
     disk s2 = disk s1 ∧ answers s2 = answers s1 ∧ pending s2 = []).
Proof.
  intros Hwf%loop_wellFormed Hp u i n s1.
  destruct (stagingCalls_spec uri hex content chunks (atomic s)) as (Hans & Hdisk & Hups).
  fold u in Hans, Hdisk, Hups.
  destruct (oneAtATime_spec _ s Hwf Hp Hans) as ((al & Hal & Hn & Hok) & Hp' & Hwf' & Hr & Hd & Hu).
  subst s1. rewrite events_app.
  set (s' := run (oneAtATime (stagingCalls uri hex content chunks)) s) in *.
  specialize (Hu i). rewrite Hups in Hu. change i with (id u) in Hu at 2.
  rewrite lookup_insert_eq in Hu.
  destruct (uploads s' !! i) as [r|] eqn:Er; [|done]. simpl in Hu.
  set (t := {| request := n; call := Close i; upload := r; point := Unawaited |}).
  assert (Hlen : length (requests s') = n).
  { rewrite Hr, length_app. unfold stagingCalls. simpl. rewrite length_fmap. subst n. lia. }
  assert (Hs1 : run [Request (Close i)] s' =
            record (Answered n (Ok None))
              {| objects := objects s'; uploads := uploads s'; disk := disk s';
                 pending := [t]; requests := requests s' ++ [Close i]; log := log s' |}).
  { unfold run. cbn [foldl step]. unfold receive, close, call_dispose, start. simpl.
    by rewrite Er, Hu, Hp', Hlen. }
  rewrite Hs1.
  split.
  { exists (al ++ [(n, Ok None)]). rewrite answers_record.
    split; [unfold answers in *; simpl; by rewrite Hal, <- app_assoc|].
    split.
    - assert (Hlen' : length (stagingCalls uri hex content chunks) = S (length chunks)).
      { unfold stagingCalls. simpl. by rewrite length_fmap. }
      rewrite Hlen' in Hn. rewrite fmap_app, Hn. by rewrite (seq_S (S (length chunks))).
    - apply Forall_app. split; [done|]. by repeat constructor. }
  split. { exists r. done. }
  split. { simpl. by rewrite Hd, Hdisk. }
  split.
  - cbn [step]. rewrite (settle_at 0 t u); [|done|done].
    unfold resume, perform, Fs.unlink. simpl. rewrite Hd, Hdisk, lookup_insert_eq. simpl.
    split; [by rewrite delete_insert_eq|]. split; [|done].
    unfold answers. simpl. rewrite !omap_app. simpl. by rewrite !app_nil_r.
  - cbn [step]. rewrite (settle_at 0 t u); [|done|done].
    unfold resume, perform. simpl.
    split; [done|]. split; [|done].
    unfold answers. simpl. rewrite !omap_app. simpl. by rewrite !app_nil_r.
Qed.

End LoopMore.
(** ** The answers of the server on the event loop *)

Section LoopAnswers.
Context `{NodeHost}.
Import Server Interleaved.

Lemma created_snoc (i : string) (cs : list Call) (c : Call) :
  created i (cs ++ [c]) ↔
    created i cs ∨ ∃ uri content done hex, c = Open uri content done hex ∧ i = "upload_" +:+ hex.
Proof.
  unfold created. split.
  - intros (uri & content & flag & hex & Hin & ->).
    apply elem_of_app in Hin as [Hin|Hin%list_elem_of_singleton].
    + left. by exists uri, content, flag, hex.
    + right. by exists uri, content, flag, hex.
  - intros [(uri & content & flag & hex & Hin & ->)|(uri & content & flag & hex & -> & ->)];
      exists uri, content, flag, hex; (split; [|done]); apply elem_of_app; [by left|].
    right. by apply list_elem_of_singleton.
Qed.

Lemma elem_of_answers (n : nat) (r : Result (option string)) (s : State) :
  (n, r) ∈ answers s ↔ Answered n r ∈ log s.
Proof.
  unfold answers. rewrite list_elem_of_omap. split.
  - intros (a & Ha & Heq). destruct a; [done|]. by injection Heq as -> ->.
  - intros Ha. by exists (Answered n r).
Qed.

(** Every answer that is an error is accounted for: it is the error of a
    call the handler awaited, or the answer to an [append] whose id no
    [open] had drawn when it arrived; and such an [append] is answered as it
    arrives and starts no call. *)
Lemma answers_accounted (evs : list Event) (d : Fs.Disk) :
  let s := run evs (init d) in
  (∀ i, is_Some (uploads s !! i) ↔ created i (requests s))
  ∧ (∀ t f, Settled t f ∈ log s → request t < length (requests s))
  ∧ (∀ n e, Answered n (Err e) ∈ log s →
       (∃ t, request t = n ∧ point t ≠ Unawaited ∧ Settled t (Some e) ∈ log s)
       ∨ (∃ i content flag, requests s !! n = Some (Append i content flag)
            ∧ e = Failure ("upload '" +:+ i +:+ "' does not exist")
            ∧ ¬ created i (take n (requests s))))
  ∧ (∀ n i content flag, requests s !! n = Some (Append i content flag) →
       ¬ created i (take n (requests s)) →
       Answered n (Err (Failure ("upload '" +:+ i +:+ "' does not exist"))) ∈ log s
       ∧ (∀ k t, pending s !! k = Some t → request t ≠ n)
       ∧ (∀ t f, Settled t f ∈ log s → request t ≠ n)).
Proof.
  induction evs as [|ev evs IH] using rev_ind; cbv zeta.
  { simpl. split.
    - intros i. rewrite lookup_empty. split; [by intros [? ?]|].
      intros (? & ? & ? & ? & Hin & _). by apply elem_of_nil in Hin.
    - split; [intros ? ? Hin; by apply elem_of_nil in Hin|].
      split; [intros ? ? Hin; by apply elem_of_nil in Hin|].
      intros n i content flag Hn. by rewrite lookup_nil in Hn. }
  rewrite events_app, events_cons. cbn [run foldl].
  set (s := run evs (init d)) in *. cbv zeta in IH.
  destruct IH as (Ireg & Ibnd & Ierr & Iunk).
  assert (Hwf : wellFormed s) by (apply run_wellFormed, init_wellFormed).
  assert (Hpend : ∀ k t, pending s !! k = Some t → request t < length (requests s)).
  { intros k t Hk. destruct (proj2 (proj2 Hwf) k t Hk) as (_ & Hr & _).
    by eapply lookup_lt_Some. }
  assert (Htake : ∀ n c, n ≤ length (requests s) →
            take n (requests s ++ [c]) = take n (requests s)).
  { intros n c Hn. rewrite take_app_le by done. done. }
  destruct ev as [c|k failure]; cbn [step].
  - destruct (receive_log c s) as (Hlog & Hreq & Hups & Hpen).
    rewrite Hlog, Hreq. split; [|split; [|split]].
    + intros i. rewrite Hups, created_snoc, Ireg. done.
    + intros t f Hin. rewrite length_app. simpl.
      apply elem_of_app in Hin as [Hin|Hin].
      * specialize (Ibnd _ _ Hin). lia.
      * destruct c as [| j ? ?|]; [by apply elem_of_nil in Hin| |].
        -- destruct (uploads s !! j); [by apply elem_of_nil in Hin|].
           by apply list_elem_of_singleton in Hin.
        -- by apply list_elem_of_singleton in Hin.
    + intros n e Hin. apply elem_of_app in Hin as [Hin|Hin].
      * destruct (Ierr n e Hin) as [(t & ? & ? & Ht)|(i & content & flag & Hn & ? & Hnot)].
        -- left. exists t. split; [done|]. split; [done|]. apply elem_of_app. by left.
        -- right. exists i, content, flag. split; [by apply lookup_app_l_Some|].
           split; [done|]. rewrite Htake; [done|].
           apply lookup_lt_Some in Hn. lia.
      * destruct c as [| j content flag|]; [by apply elem_of_nil in Hin| |].
        -- destruct (uploads s !! j) as [r|] eqn:E; [by apply elem_of_nil in Hin|].
           apply list_elem_of_singleton in Hin. injection Hin as -> ->.
           right. exists j, content, flag.
           split. { rewrite lookup_app_r by done. by rewrite Nat.sub_diag. }
           split; [done|]. rewrite Htake by done. rewrite take_ge by done.
           intros Hc. apply Ireg in Hc. rewrite E in Hc. by destruct Hc.
        -- by apply list_elem_of_singleton in Hin.
    + intros n i content flag Hn Hnot.
      destruct (decide (n < length (requests s))) as [Hlt|Hge].
      * rewrite lookup_app_l in Hn by done. rewrite Htake in Hnot by lia.
        destruct (Iunk n i content flag Hn Hnot) as (Ha & Hp & Hs).
        split; [apply elem_of_app; by left|]. split.
        -- intros k t Hk. destruct (Hpen k t Hk) as [Hold|[Hnew _]]; [by eapply Hp|lia].
        -- intros t f Hin. apply elem_of_app in Hin as [Hin|Hin]; [by eapply Hs|].
           destruct c as [| j ? ?|]; [by apply elem_of_nil in Hin| |].
           ++ destruct (uploads s !! j); [by apply elem_of_nil in Hin|].
              by apply list_elem_of_singleton in Hin.
           ++ by apply list_elem_of_singleton in Hin.
      * assert (n = length (requests s)) as ->.
        { apply lookup_lt_Some in Hn. rewrite length_app in Hn. simpl in Hn. lia. }
        rewrite lookup_app_r in Hn by done. rewrite Nat.sub_diag in Hn.
        injection Hn as ->. rewrite Htake in Hnot by done. rewrite take_ge in Hnot by done.
        assert (E : uploads s !! i = None).
        { destruct (uploads s !! i) as [r|] eqn:E; [|done].
          destruct Hnot. apply Ireg. by rewrite E. }
        rewrite E. split; [apply elem_of_app; right; by apply list_elem_of_singleton|].
        split.
        -- intros k t Hk. destruct (Hpen k t Hk) as [Hold|[_ Hnew]].
           ++ specialize (Hpend _ _ Hold). lia.
           ++ destruct (Hnew _ _ _ eq_refl) as [? Hsome]. by rewrite E in Hsome.
        -- intros t f Hin. apply elem_of_app in Hin as [Hin|Hin].
           ++ specialize (Ibnd _ _ Hin). lia.
           ++ by apply list_elem_of_singleton in Hin.
  - destruct (pending s !! k) as [t|] eqn:Ek.
    2:{ unfold settle. rewrite Ek. done. }
    destruct (proj2 (proj2 Hwf) k t Ek) as ((u & Eu & _) & _ & _).
    destruct (settle_log k failure s t u Ek Eu)
      as ((fl & new & Hlog & Hnew) & Hreq & Hups & Hpen).
    rewrite Hlog, Hreq, Hups. split; [done|]. split; [|split].
    + intros t' f Hin. apply elem_of_app in Hin as [Hin|Hin]; [by eapply Ibnd|].
      apply elem_of_cons in Hin as [[= -> ->]|Hin]; [by eapply Hpend|].
      by destruct (Hnew _ Hin) as (r & ? & _).
    + intros n e Hin. apply elem_of_app in Hin as [Hin|Hin].
      * destruct (Ierr n e Hin) as [(t' & ? & ? & Ht)|?]; [|by right].
        left. exists t'. split; [done|]. split; [done|]. apply elem_of_app. by left.
      * apply elem_of_cons in Hin as [?|Hin]; [done|].
        destruct (Hnew _ Hin) as (r & [= -> <-] & Hr).
        destruct (Hr e eq_refl) as [-> Hq].
        left. exists t. split; [done|]. split; [done|].
        apply elem_of_app. right. by left.
    + intros n i content flag Hn Hnot.
      destruct (Iunk n i content flag Hn Hnot) as (Ha & Hp & Hs).
      split; [apply elem_of_app; by left|]. split.
      * intros k' t' Hk'. destruct (Hpen k' t' Hk') as (j & t0 & Hj & ->). by eapply Hp.
      * intros t' f Hin. apply elem_of_app in Hin as [Hin|Hin]; [by eapply Hs|].
        apply elem_of_cons in Hin as [[= -> ->]|Hin]; [by eapply Hp|].
        by destruct (Hnew _ Hin) as (r & ? & _).
Qed.

(** X5. The failures of [append].  After any events, an [append] whose id no
    [open] had drawn when it arrived is rejected, as it arrives, with the
    message that names the id, and no call of [fs-extra] is ever made for
    it.  An [append] whose id had been drawn, also by an upload since
    finalized or closed, is rejected only with the error of a call its
    handler awaited, the write or the move, that failed. *)
Theorem append_fails_only_on_unknown_id (evs : list Event) (d : Fs.Disk) (n : nat)
  (i content : string) (flag : bool) :
  let s := run evs (init d) in
  requests s !! n = Some (Append i content flag) →
  (¬ created i (take n (requests s)) →
     (n, Err (Failure ("upload '" +:+ i +:+ "' does not exist"))) ∈ answers s
     ∧ ∀ t f, Settled t f ∈ log s → request t ≠ n)
  ∧ (created i (take n (requests s)) →
     ∀ e, (n, Err e) ∈ answers s →
       ∃ t, request t = n ∧ point t ≠ Unawaited ∧ Settled t (Some e) ∈ log s).
Proof.
  intros s Hn. destruct (answers_accounted evs d) as (_ & _ & Ierr & Iunk). fold s in Ierr, Iunk.
  split.
  - intros Hnot. destruct (Iunk n i content flag Hn Hnot) as (Ha & _ & Hs).
    split; [by apply elem_of_answers|done].
  - intros Hc e He%elem_of_answers.
    destruct (Ierr n e He) as [?|(i' & content' & flag' & Hn' & _ & Hnot)]; [done|].
    rewrite Hn in Hn'. injection Hn' as <- <- <-. done.
Qed.

End LoopAnswers.
(** ** Requests that overlap *)

Section LoopPipelined.
Context `{NodeHost}.
Import Server Interleaved.



End LoopPipelined.

(** ** The requests of the upload session *)

Section SessionMore.
Context `{BrowserHost}.
Import Session.

Lemma serverCalls_app (l1 l2 : list Action) :
  serverCalls (l1 ++ l2) = serverCalls l1 ++ serverCalls l2.
Proof. apply List.filter_app. Qed.

Lemma readFileSlice_without_error (f : File) (r : Z) (oe : option Error)
  (slice : Reader.FileSlice) :
  Reader.readFileSlice f r oe = Ok slice → Reader.readFileSlice f r None = Ok slice.
Proof.
  unfold Reader.readFileSlice.
  destruct ((size f =? 0)%Z && (r =? 0)%Z); [done|].
  destruct (size f - r =? 0)%Z; [done|]. by destruct oe.
Qed.

Variable total : Z.

(** A callback of the event loop sends nothing and leaves the locals of the
    loop alone. *)
Lemma deliver_calls (ev : Event) (s : State) :
  serverCalls (log (deliver total ev s)) = serverCalls (log s)
  ∧ id (deliver total ev s) = id s
  ∧ readBytes (deliver total ev s) = readBytes s.
Proof.
  destruct ev as [|n r]; simpl; [done|].
  destruct (promises s !! n) as [[rd| |e]|]; try done.
  destruct r as [[]|e]; [destruct (cancellationRequested s)|]; simpl;
    rewrite ?serverCalls_app, ?app_nil_r; done.
Qed.

Lemma await_calls (evs : list Event) (s : State) :
  let s' := foldl (λ s ev, deliver total ev s) s evs in
  serverCalls (log s') = serverCalls (log s) ∧ id s' = id s ∧ readBytes s' = readBytes s.
Proof.
  revert s. induction evs as [|ev evs IH]; intros s; simpl; [done|].
  destruct (IH (deliver total ev s)) as (-> & -> & ->). apply deliver_calls.
Qed.

Lemma awaitAll_calls (evs : list Event) (s : State) :
  serverCalls (log (awaitAll total evs s).1) = serverCalls (log s)
  ∧ id (awaitAll total evs s).1 = id s.
Proof.
  revert s. induction evs as [|ev evs IH]; intros s; simpl;
    destruct (firstRejected (promises s)); try done;
    destruct (forallb isFulfilled (promises s)); try done.
  destruct (IH (deliver total ev s)) as (-> & ->).
  destruct (deliver_calls ev s) as (? & ? & ?). done.
Qed.

(** One iteration of the transfer loop either sends nothing and leaves the
    loop, or sends the slice at [readBytes]: by [open] when no id is set,
    by [append] under the id otherwise. *)
Lemma iteration_calls (entry : UploadEntry) (sch : EntrySchedule) (step : ReadStep)
  (s : State) (slice : Reader.FileSlice) :
  (∀ j, id s = Some j → open_result sch = Ok j) →
  Reader.readFileSlice (file entry) (readBytes s) None = Ok slice →
  match iteration total entry sch step s with
  | (s', o) =>
      (∀ j, id s' = Some j → open_result sch = Ok j)
      ∧ ((serverCalls (log s') = serverCalls (log s) ∧ id s' = id s
          ∧ ∀ again, o ≠ Returned again)
         ∨ (serverCalls (log s') =
              serverCalls (log s)
              ++ (if id s is Some _ then appendRequests entry (idOf sch) [slice]
                  else chunkRequests entry (idOf sch) [slice])
            ∧ (is_Some (id s) → id s' = id s)
            ∧ (∀ j, open_result sch = Ok j → is_Some (id s'))
            ∧ (∀ again, o = Returned again →
                 again = bool_decide (Reader.read slice < size (file entry))%Z
                 ∧ readBytes s' = Reader.read slice ∧ is_Some (id s'))))
  end.
Proof.
  intros Hid Hslice.
  unfold iteration, bind, gets, emit, modify, await, settled, ret, throw, checkCancelled.
  simpl.
  set (s0 := withLog (λ l, l ++ [ReadCall (file entry) (readBytes s)]) s).
  destruct (await_calls (during_read step) s0) as (Lw & Idw & Rw).
  set (sA := foldl (λ s ev, deliver total ev s) s0 (during_read step)) in *.
  cbn [s0 log withLog id readBytes] in Lw, Idw, Rw.
  rewrite serverCalls_app in Lw. simpl in Lw. rewrite app_nil_r in Lw.
  assert (HidA : ∀ j, id sA = Some j → open_result sch = Ok j).
  { intros j. rewrite Idw. apply Hid. }
  destruct (Reader.readFileSlice (file entry) (readBytes s) (onerror step))
    as [a|e] eqn:Eslice.
  2:{ split; [done|]. left. done. }
  apply readFileSlice_without_error in Eslice. rewrite Hslice in Eslice.
  injection Eslice as <-.
  destruct (someAppendFailed sA) as [e|]; [split; [done|]; by left|].
  destruct (cancellationRequested sA); [split; [done|]; by left|].
  destruct (id sA) as [i|] eqn:EidA.
  { cbn [log withLog withPromises setReadBytes id readBytes].
    rewrite EidA. split; [done|]. right.
    rewrite serverCalls_app, Lw, <- Idw. simpl.
    unfold idOf. rewrite (HidA i eq_refl).
    split; [done|]. split; [done|]. split; [done|]. intros again [= <-]. done. }
  set (s1 := withLog (λ l, l ++ [OpenCall (uri entry) (Reader.content slice)
                (bool_decide (size (file entry) ≤ Reader.read slice)%Z)])
               (setReadBytes (Reader.read slice) sA)).
  destruct (await_calls (during_open sch) s1) as (Lw2 & Idw2 & Rw2).
  set (sB := foldl (λ s ev, deliver total ev s) s1 (during_open sch)) in *.
  cbn [s1 log withLog setReadBytes id readBytes] in Lw2, Idw2, Rw2.
  rewrite serverCalls_app, Lw in Lw2. simpl in Lw2.
  assert (Hsent : serverCalls (log sB) =
            serverCalls (log s) ++ (if id s is Some _ then appendRequests entry (idOf sch) [slice]
                                    else chunkRequests entry (idOf sch) [slice])).
  { by rewrite Lw2, <- Idw. }
  assert (Hsome : is_Some (id s) → id sB = id s).
  { rewrite <- Idw. by intros [? ?]. }
  destruct (open_result sch) as [i'|e] eqn:Eopen.
  2:{ split; [by rewrite Idw2, EidA|]. right. done. }
  destruct (cancellationRequested sB).
  { cbn [id setId]. split; [by intros j [= <-]|]. right.
    split; [done|]. split; [rewrite <- Idw; by intros [? ?]|]. done. }
  cbn [log withLog id setId readBytes]. split; [by intros j [= <-]|]. right.
  rewrite serverCalls_app. simpl. rewrite app_nil_r.
  split; [done|]. split; [rewrite <- Idw; by intros [? ?]|]. split; [done|].
  intros again [= <-]. by rewrite Rw2.
Qed.

(** The transfer loop sends a prefix of the slices that remain to be read,
    in their order, and all of them if it is left at its end. *)
Lemma transfer_calls (entry : UploadEntry) (sch : EntrySchedule) (steps : list ReadStep)
  (s : State) (fuel : nat) (all : list Reader.FileSlice) :
  (∀ j, id s = Some j → open_result sch = Ok j) →
  Reader.readSlicesFrom fuel (file entry) (readBytes s) = Some (Ok all) →
  match transfer total entry sch steps s with
  | (s', o) =>
      ∃ sent, sent `prefix_of` all
        ∧ serverCalls (log s') =
            serverCalls (log s)
            ++ (if id s is Some _ then appendRequests entry (idOf sch) sent
                else chunkRequests entry (idOf sch) sent)
        ∧ (∀ j, id s' = Some j → open_result sch = Ok j)
        ∧ (is_Some (id s) → id s' = id s)
        ∧ (id s = None → is_Some (id s') → sent ≠ [])
        ∧ (id s' = None → length sent ≤ 1)
        ∧ (sent ≠ [] → ∀ j, open_result sch = Ok j → is_Some (id s'))
        ∧ (o = Returned tt → sent = all ∧ is_Some (id s'))
  end.
Proof.
  revert s fuel all. induction steps as [|step steps IH]; intros s fuel all Hid Hall.
  { simpl. exists []. split; [apply prefix_nil|].
    split; [by destruct (id s); rewrite app_nil_r|].
    split; [done|]. split; [done|]. split; [by intros -> [? ?]|].
    split; [simpl; lia|done]. }
  destruct fuel as [|fuel]; [done|]. cbn [Reader.readSlicesFrom] in Hall.
  destruct (Reader.readFileSlice (file entry) (readBytes s) None) as [slice|e] eqn:Eslice;
    [|done].
  cbn [transfer]. unfold bind at 1.
  pose proof (iteration_calls entry sch step s slice Hid Eslice) as Hit.
  destruct (iteration total entry sch step s) as [s1 o1].
  destruct Hit as [Hid1 [(Hlog & Hsame & Hnot)|(Hlog & Hsome & Hopen & Hret)]].
  { assert (Hnothing : ∃ sent : list Reader.FileSlice, sent `prefix_of` all
        ∧ serverCalls (log s1) =
            serverCalls (log s)
            ++ (if id s is Some _ then appendRequests entry (idOf sch) sent
                else chunkRequests entry (idOf sch) sent)
        ∧ (∀ j, id s1 = Some j → open_result sch = Ok j)
        ∧ (is_Some (id s) → id s1 = id s)
        ∧ (id s = None → is_Some (id s1) → sent ≠ [])
        ∧ (id s1 = None → length sent ≤ 1)
        ∧ (sent ≠ [] → ∀ j, open_result sch = Ok j → is_Some (id s1))).
    { exists []. split; [apply prefix_nil|].
      split; [rewrite Hlog; by destruct (id s); rewrite app_nil_r|].
      split; [done|]. split; [done|].
      split; [rewrite Hsame; by intros -> [? ?]|]. split; [simpl; lia|done]. }
    destruct o1 as [again|e|]; [by destruct (Hnot again)| |];
      destruct Hnothing as (sent & ? & ? & ? & ? & ? & ? & ?); exists sent; done. }
  assert (Hfirst : ∃ rest, all = slice :: rest
            ∧ ((Reader.read slice < size (file entry))%Z →
               Reader.readSlicesFrom fuel (file entry) (Reader.read slice) = Some (Ok rest))
            ∧ (¬ (Reader.read slice < size (file entry))%Z → rest = [])).
  { destruct (Z.ltb_spec (Reader.read slice) (size (file entry))) as [Hmore|Hlast].
    - destruct (Reader.readSlicesFrom fuel (file entry) (Reader.read slice))
        as [[rest|e]|]; [|done|done].
      injection Hall as <-. exists rest. split; [done|]. split; [done|]. lia.
    - injection Hall as <-. exists []. split; [done|]. split; [lia|done]. }
  clear Hall. destruct Hfirst as (rest & -> & Hrest & Hend).
  assert (Hone : ∃ sent, sent `prefix_of` slice :: rest
        ∧ serverCalls (log s1) =
            serverCalls (log s)
            ++ (if id s is Some _ then appendRequests entry (idOf sch) sent
                else chunkRequests entry (idOf sch) sent)
        ∧ (∀ j, id s1 = Some j → open_result sch = Ok j)
        ∧ (is_Some (id s) → id s1 = id s)
        ∧ (id s = None → is_Some (id s1) → sent ≠ [])
        ∧ (id s1 = None → length sent ≤ 1)
        ∧ (sent ≠ [] → ∀ j, open_result sch = Ok j → is_Some (id s1))
        ∧ (rest = [] → sent = slice :: rest)).
  { exists [slice]. split; [by apply prefix_cons, prefix_nil|].
    split; [done|]. split; [done|]. split; [done|]. split; [done|].
    split; [simpl; lia|]. split; [done|]. by intros ->. }
  destruct o1 as [again|e|].
  2,3: destruct Hone as (sent & ? & ? & ? & ? & ? & ? & ? & ?); exists sent; done.
  destruct (Hret again eq_refl) as (-> & Hread1 & Hsome1).
  destruct (Z.ltb_spec (Reader.read slice) (size (file entry))) as [Hmore|Hlast].
  2:{ rewrite bool_decide_eq_false_2 by lia. simpl.
      destruct Hone as (sent & ? & ? & ? & ? & ? & ? & ? & Hsent); exists sent.
      do 7 (split; [done|]). intros _. split; [|done]. apply Hsent, Hend. lia. }
  rewrite bool_decide_eq_true_2 by done.
  specialize (Hrest Hmore). rewrite <- Hread1 in Hrest.
  pose proof (IH s1 fuel rest Hid1 Hrest) as Hrec.
  destruct (transfer total entry sch steps s1) as [s' o].
  destruct Hrec as (sent & Hpre & Hlog' & Hid' & Hsome' & Hnone' & Hlen' & Hopen' & Hret').
  destruct Hsome1 as [i1 Hi1]. rewrite Hi1 in Hlog', Hsome'.
  specialize (Hsome' ltac:(by eexists)).
  exists (slice :: sent). split; [by apply prefix_cons|].
  split. { rewrite Hlog', Hlog, <- app_assoc. f_equal. by destruct (id s). }
  split; [done|].
  split. { intros Hs. rewrite Hsome'. rewrite <- Hi1. by apply Hsome. }
  split; [done|].
  split. { intros Hn. by rewrite Hsome' in Hn. }
  split. { intros _ j _. rewrite Hsome'. by eexists. }
  intros Ho. destruct (Hret' Ho) as [-> ?]. done.
Qed.

(** Reading from the start never runs out of iterations: [Reader.slices]
    are the slices the loop reads, and there is at least one. *)
Lemma readSlices_slices (f : File) :
  Reader.readSlices f = Some (Ok (Reader.slices f)) ∧ Reader.slices f ≠ [].
Proof.
  unfold Reader.slices.
  destruct (Z.eqb_spec (size f) 0) as [Hz|Hnz].
  - unfold Reader.readSlices. rewrite Hz. cbn [Reader.readSlicesFrom].
    unfold Reader.readFileSlice. rewrite Hz. simpl. done.
  - destruct (readSlicesFrom_spec (S (Z.to_nat (size f / maxChunkSize))) f 0)
      as (ps & Hrun & Hcat & Hcount & Hmax & Hfull & Hne).
    { done. } { unfold size in *. lia. }
    { pose proof (Z.mul_succ_div_gt (size f) maxChunkSize ltac:(done)).
      unfold maxChunkSize in *.
      rewrite Nat2Z.inj_succ, Z2Nat.id by (apply Z.div_pos; unfold size; lia). lia. }
    unfold Reader.readSlices. rewrite Hrun. split; [done|].
    destruct ps; [done|]. done.
Qed.

(** One iteration of the [for] loop. *)
Lemma uploadEntry_calls (entry : UploadEntry) (sch : EntrySchedule) (s : State) :
  match uploadEntry total entry sch s with
  | (s', o) =>
      ∃ sent closes, sent `prefix_of` Reader.slices (file entry)
        ∧ serverCalls (log s') =
            serverCalls (log s) ++ chunkRequests entry (idOf sch) sent ++ closes
        ∧ (closes = [CloseCall (idOf sch)] ↔
             (o ≠ Unsettled ∧ sent ≠ [] ∧ open_result sch = Ok (idOf sch)))
        ∧ (closes = [] ∨ closes = [CloseCall (idOf sch)])
        ∧ (1 < length sent → open_result sch = Ok (idOf sch))
        ∧ (o = Returned tt → sent = Reader.slices (file entry)
             ∧ closes = [CloseCall (idOf sch)])
  end.
Proof.
  unfold uploadEntry, bind, gets, emit, modify. simpl.
  set (s0 := enterEntry (withLog (λ l, l ++ [Report (done s) total]) s)).
  assert (Hlog0 : serverCalls (log s0) = serverCalls (log s)).
  { simpl. rewrite serverCalls_app. simpl. by rewrite app_nil_r. }
  destruct (readSlices_slices (file entry)) as [Hall Hne].
  unfold tryBody, bind.
  pose proof (transfer_calls entry sch (reads sch) s0 _ _ ltac:(done) Hall) as Htr.
  destruct (transfer total entry sch (reads sch) s0) as [s1 o1].
  destruct Htr as (sent & Hpre & Hlog1 & Hid1 & _ & Hsent1 & Hlen1 & Hopen1 & Hret1).
  rewrite Hlog0 in Hlog1. cbn [s0 id enterEntry] in Hlog1, Hsent1.
  specialize (Hsent1 eq_refl).
  assert (Hfinally : ∀ s2 (o : Outcome unit),
    serverCalls (log s2) = serverCalls (log s1) → id s2 = id s1 → o ≠ Unsettled →
    (o = Returned tt → o1 = Returned tt) →
    ∃ sent closes, sent `prefix_of` Reader.slices (file entry)
      ∧ serverCalls (log (finallyClose s2)) =
          serverCalls (log s) ++ chunkRequests entry (idOf sch) sent ++ closes
      ∧ (closes = [CloseCall (idOf sch)] ↔
           (o ≠ Unsettled ∧ sent ≠ [] ∧ open_result sch = Ok (idOf sch)))
      ∧ (closes = [] ∨ closes = [CloseCall (idOf sch)])
      ∧ (1 < length sent → open_result sch = Ok (idOf sch))
      ∧ (o = Returned tt → sent = Reader.slices (file entry)
           ∧ closes = [CloseCall (idOf sch)])).
  { intros s2 o Hlog2 Hid2 Hset Hret. unfold finallyClose. rewrite Hid2.
    destruct (id s1) as [i|] eqn:Ei.
    - pose proof (Hid1 i eq_refl) as Hi.
      assert (Hidof : idOf sch = i) by (unfold idOf; by rewrite Hi).
      exists sent, [CloseCall (idOf sch)]. split; [done|].
      split. { cbn [log withLog]. rewrite serverCalls_app, Hlog2, Hlog1, Hidof.
               simpl. by rewrite <- app_assoc. }
      split. { split; [intros _|done]. split; [done|]. split; [|by rewrite Hidof].
               apply Hsent1. by eexists. }
      split; [by right|]. split; [intros _; by rewrite Hidof|].
      intros Ho. split; [|done]. by apply Hret1, Hret.
    - exists sent, []. split; [done|].
      split. { by rewrite app_nil_r, Hlog2, Hlog1. }
      split. { split; [done|]. intros (_ & Hs & Ho).
               destruct (Hopen1 Hs _ Ho) as [? ?]. done. }
      split; [by left|]. split; [intros Hl; specialize (Hlen1 eq_refl); lia|].
      intros Ho. destruct (Hret1 (Hret Ho)) as [_ [? ?]]. done. }
  assert (Hunsettled : ∀ s2,
    serverCalls (log s2) = serverCalls (log s1) →
    ∃ sent closes, sent `prefix_of` Reader.slices (file entry)
      ∧ serverCalls (log s2) =
          serverCalls (log s) ++ chunkRequests entry (idOf sch) sent ++ closes
      ∧ (closes = [CloseCall (idOf sch)] ↔
           (@Unsettled unit ≠ Unsettled ∧ sent ≠ [] ∧ open_result sch = Ok (idOf sch)))
      ∧ (closes = [] ∨ closes = [CloseCall (idOf sch)])
      ∧ (1 < length sent → open_result sch = Ok (idOf sch))
      ∧ (@Unsettled unit = Returned tt → sent = Reader.slices (file entry)
           ∧ closes = [CloseCall (idOf sch)])).
  { intros s2 Hlog2. exists sent, []. split; [done|].
    split; [by rewrite app_nil_r, Hlog2, Hlog1|].
    split; [split; [done|by intros [? _]]|]. split; [by left|].
    split; [|done]. intros Hl.
    destruct (id s1) as [i|] eqn:Ei.
    - pose proof (Hid1 i eq_refl) as Hi. unfold idOf. by rewrite Hi.
    - specialize (Hlen1 eq_refl). lia. }
  destruct o1 as [[]|e|].
  2:{ by apply Hfinally. }
  2:{ by apply Hunsettled. }
  destruct (awaitAll_calls (during_all sch) s1) as [Hlog2 Hid2].
  destruct (awaitAll total (during_all sch) s1) as [s2 o2]. simpl in Hlog2, Hid2.
  destruct o2 as [[]|e|].
  - apply Hfinally; try done. cbn [log withLog addDone].
    rewrite serverCalls_app. simpl. by rewrite app_nil_r.
  - by apply Hfinally.
  - by apply Hunsettled.
Qed.

Lemma sessionRequests_cons (entry : UploadEntry) (sch : EntrySchedule)
  (es : list UploadEntry) (schs : list EntrySchedule) :
  sessionRequests (entry :: es) (sch :: schs) =
    entryRequests entry (idOf sch) ++ sessionRequests es schs.
Proof. done. Qed.

(** The [for] loop: either it ends and has sent the requests of every
    entry, or it is left in some entry, having sent the requests of the
    entries before and, for that entry, a prefix of its slices and perhaps
    [close]. *)
Lemma uploadEntries_calls (es : list UploadEntry) (schs : list EntrySchedule) (s : State) :
  match uploadEntries total es schs s with
  | (s', o) =>
      (o = Returned tt ∧ length es ≤ length schs
       ∧ serverCalls (log s') = serverCalls (log s) ++ sessionRequests es schs
       ∧ Forall (λ sch, open_result sch = Ok (idOf sch)) (take (length es) schs))
      ∨ (o ≠ Returned tt
         ∧ ∃ before entry after sent closes,
             let i := from_option idOf "" (schs !! length before) in
             es = before ++ entry :: after
             ∧ length before ≤ length schs
             ∧ Forall (λ sch, open_result sch = Ok (idOf sch)) (take (length before) schs)
             ∧ serverCalls (log s') =
                 serverCalls (log s) ++ sessionRequests before schs
                 ++ chunkRequests entry i sent ++ closes
             ∧ sent `prefix_of` Reader.slices (file entry)
             ∧ (closes = [] ∨ (closes = [CloseCall i] ∧ sent ≠ [] ∧ o ≠ Unsettled))
             ∧ (1 < length sent ∨ closes ≠ [] →
                ∃ sch, schs !! length before = Some sch ∧ open_result sch = Ok i))
  end.
Proof.
  revert schs s. induction es as [|entry es IH]; intros schs s.
  { simpl. left. rewrite app_nil_r. split; [done|]. split; [lia|]. split; [done|].
    constructor. }
  destruct schs as [|sch schs].
  { simpl. right. split; [done|]. exists [], entry, es, [], [].
    simpl. rewrite app_nil_r. repeat split; try done; try lia.
    - apply prefix_nil.
    - by left.
    - intros [?|?]; [lia|done]. }
  cbn [uploadEntries]. unfold bind at 1.
  pose proof (uploadEntry_calls entry sch s) as Hentry.
  destruct (uploadEntry total entry sch s) as [s1 o1].
  destruct Hentry as (sent & closes & Hpre & Hlog & Hclose & Hcloses & Hlen & Hret).
  assert (Hstop : o1 ≠ Returned tt →
    ∃ before entry' after sent closes,
      let i := from_option idOf "" ((sch :: schs) !! length before) in
      entry :: es = before ++ entry' :: after
      ∧ length before ≤ length (sch :: schs)
      ∧ Forall (λ sch, open_result sch = Ok (idOf sch)) (take (length before) (sch :: schs))
      ∧ serverCalls (log s1) =
          serverCalls (log s) ++ sessionRequests before (sch :: schs)
          ++ chunkRequests entry' i sent ++ closes
      ∧ sent `prefix_of` Reader.slices (file entry')
      ∧ (closes = [] ∨ (closes = [CloseCall i] ∧ sent ≠ [] ∧ o1 ≠ Unsettled))
      ∧ (1 < length sent ∨ closes ≠ [] →
         ∃ sch', (sch :: schs) !! length before = Some sch' ∧ open_result sch' = Ok i)).
  { intros Ho1. exists [], entry, es, sent, closes. cbn [length lookup list_lookup from_option].
    split; [done|]. split; [lia|]. split; [by constructor|]. split; [done|].
    split; [done|].
    split. { destruct Hcloses as [->| ->]; [by left|right].
             destruct (proj1 Hclose eq_refl) as (? & ? & ?). done. }
    intros [Hl|Hc]; exists sch; (split; [done|]); [by apply Hlen|].
    destruct Hcloses as [->| Hcl]; [done|]. by apply Hclose. }
  destruct o1 as [[]|e|].
  2:{ right. split; [done|]. by apply Hstop. }
  2:{ right. split; [done|]. by apply Hstop. }
  clear Hstop. destruct (Hret eq_refl) as [-> ->].
  assert (Hok : open_result sch = Ok (idOf sch)) by (by apply Hclose).
  pose proof (IH schs s1) as Hrest.
  destruct (uploadEntries total es schs s1) as [s' o].
  destruct Hrest as [(-> & Hle & Hlog' & Hall)
                    |(Ho & before & entry' & after & sent & closes & Hrest)].
  - left. split; [done|]. split; [simpl; lia|].
    split; [|by constructor].
    rewrite Hlog', Hlog, sessionRequests_cons. unfold entryRequests.
    by rewrite <- !app_assoc.
  - right. split; [done|]. cbv zeta in Hrest.
    destruct Hrest as (-> & Hle & Hall & Hlog' & Hpre' & Hcloses' & Hsch').
    exists (entry :: before), entry', after, sent, closes.
    cbn [length lookup list_lookup take].
    split; [done|]. split; [simpl; lia|].
    split; [by constructor|].
    split. { rewrite Hlog', Hlog, sessionRequests_cons. unfold entryRequests.
             by rewrite <- !app_assoc. }
    done.
Qed.

End SessionMore.

(** ** The done flag *)

Section ProtocolFacts.
Context `{BrowserHost}.
Import Session.

(** The loop reads on while the offset is below the size: every slice but
    the last has its offset below the size, the last has not. *)
Lemma readSlicesFrom_flags (fuel : nat) (f : File) (r : Z) (all : list Reader.FileSlice) :
  Reader.readSlicesFrom fuel f r = Some (Ok all) →
  ∃ init l, all = init ++ [l]
    ∧ Forall (λ slice, (Reader.read slice < size f)%Z) init
    ∧ (size f ≤ Reader.read l)%Z.
Proof.
  revert r all. induction fuel as [|fuel IH]; intros r all Hall; [done|].
  cbn [Reader.readSlicesFrom] in Hall.
  destruct (Reader.readFileSlice f r None) as [slice|e]; [|done].
  destruct (Z.ltb_spec (Reader.read slice) (size f)) as [Hmore|Hlast].
  - destruct (Reader.readSlicesFrom fuel f (Reader.read slice)) as [[rest|e]|] eqn:E;
      [|done|done].
    injection Hall as <-. destruct (IH _ _ E) as (init & l & -> & Hinit & Hl).
    exists (slice :: init), l. split; [done|]. split; [by constructor|done].
  - injection Hall as <-. exists [], slice. done.
Qed.

Lemma slices_flags (f : File) :
  ∃ init l, Reader.slices f = init ++ [l]
    ∧ Forall (λ slice, (Reader.read slice < size f)%Z) init
    ∧ (size f ≤ Reader.read l)%Z.
Proof.
  destruct (readSlices_slices f) as [Hall _]. by apply readSlicesFrom_flags in Hall.
Qed.

(** X6. The done flag.  The slices of a file are never none, and of them
    the last one, and no other, has [readBytes >= file.size] hold when it is
    sent: the done flag is carried by the last request that sends content
    for an entry, be it [open] or [append], and by no request before it. *)
Theorem done_flag_marks_the_last_slice (entry : UploadEntry) :
  ∃ init l, Reader.slices (file entry) = init ++ [l]
    ∧ Forall (λ slice, lastSlice entry slice = false) init
    ∧ lastSlice entry l = true.
Proof.
  destruct (slices_flags (file entry)) as (init & l & Hsl & Hinit & Hl).
  exists init, l. split; [done|]. split.
  - eapply Forall_impl; [exact Hinit|]. intros slice Hs. simpl in Hs. unfold lastSlice.
    apply bool_decide_eq_false. lia.
  - unfold lastSlice. by apply bool_decide_eq_true.
Qed.

End ProtocolFacts.

Section SessionRequests.
Context `{BrowserHost}.
Import Session.

(** X7. The requests of a session.  Whatever the reader, the server and the
    token do, [doUpload] either resolves, and then it has sent, for every
    entry in turn, [open] with the first slice of the file, [append] with
    each further slice under the id that [open] returned, the done flag as
    the loop computes it, and [close]; or it does not resolve, and then it
    has done so for the entries before some entry, and for that entry it has
    sent a prefix of the slices in the same way, followed by [close] only if
    [open] had returned an id. *)
Theorem requests_follow_the_protocol (context : Indexer.Context) (cancelled : bool)
  (schs : list EntrySchedule) :
  let entries := Indexer.entries context in
  let log := (doUpload context cancelled schs).1 in
  let outcome := (doUpload context cancelled schs).2 in
  (outcome = Returned {| uploaded := [] |}
   ∧ length entries ≤ length schs
   ∧ serverCalls log = sessionRequests entries schs
   ∧ Forall (λ sch, open_result sch = Ok (idOf sch)) (take (length entries) schs))
  ∨ ((∀ result, outcome ≠ Returned result)
     ∧ ∃ before entry after sent closes,
         let i := from_option idOf "" (schs !! length before) in
         entries = before ++ entry :: after
         ∧ length before ≤ length schs
         ∧ Forall (λ sch, open_result sch = Ok (idOf sch)) (take (length before) schs)
         ∧ serverCalls log =
             sessionRequests before schs ++ chunkRequests entry i sent ++ closes
         ∧ sent `prefix_of` Reader.slices (file entry)
         ∧ (closes = [] ∨ (closes = [CloseCall i] ∧ sent ≠ [] ∧ outcome ≠ Unsettled))
         ∧ (1 < length sent ∨ closes ≠ [] →
            ∃ sch, schs !! length before = Some sch ∧ open_result sch = Ok i)).
Proof.
  intros entries log0 outcome. subst log0 outcome.
  destruct (decide (entries = [])) as [Hnil|Hne].
  { left. unfold doUpload. fold entries. rewrite Hnil. simpl.
    split; [done|]. split; [lia|]. split; [done|]. constructor. }
  rewrite doUpload_unfold by done. fold entries.
  pose proof (uploadEntries_calls (Indexer.totalSize context) entries schs (start cancelled))
    as Hcalls.
  destruct (uploadEntries (Indexer.totalSize context) entries schs (start cancelled))
    as [s' o].
  destruct Hcalls as [(-> & Hlen & Hlog & Hall)
                     |(Ho & before & entry & after & sent & closes & Hrest)].
  - left. cbn [fst snd]. rewrite serverCalls_app, Hlog. simpl.
    by rewrite app_nil_r.
  - right. cbv zeta in Hrest.
    destruct Hrest as (Hes & Hle & Hall & Hlog & Hpre & Hcloses & Hsch).
    assert (Hout : ∀ o' : Outcome FileUploadResult,
      (o' = Unsettled → o = Unsettled) →
      (closes = [] ∨ closes = [CloseCall (from_option idOf "" (schs !! length before))]
                     ∧ sent ≠ [] ∧ o' ≠ Unsettled)).
    { intros o' Ho'. destruct Hcloses as [->|(-> & ? & ?)]; [by left|right].
      split; [done|]. split; [done|]. intros Hu. by apply Ho' in Hu. }
    destruct o as [[]|e|]; [done| |]; cbn [fst snd];
      (split; [done|]); exists before, entry, after, sent, closes; cbv zeta;
      (split; [done|]); (split; [done|]); (split; [done|]);
      (split; [done|]); (split; [done|]); (split; [|done]); by apply Hout.
Qed.

(** X8. An upload whose token is cancelled when [doUpload] is called sends
    nothing to the server: no [open], no [append], no [close].  With no
    entries it resolves all the same; with entries it does not resolve, and
    it rejects with the cancellation once the first read is answered without
    an error. *)
Theorem cancelled_upload_sends_nothing (context : Indexer.Context)
  (schs : list EntrySchedule) :
  let log := (doUpload context true schs).1 in
  let outcome := (doUpload context true schs).2 in
  serverCalls log = []
  ∧ (Indexer.entries context = [] → log = [] ∧ outcome = Returned {| uploaded := [] |})
  ∧ (Indexer.entries context ≠ [] → ∀ result, outcome ≠ Returned result)
  ∧ (Indexer.entries context ≠ [] →
     ∀ sch schs' step steps, schs = sch :: schs' → reads sch = step :: steps →
       onerror step = None → outcome = Thrown Cancelled).
Proof.
  intros log0 outcome. subst log0 outcome.
  destruct (Indexer.entries context) as [|entry es] eqn:Hes.
  { unfold doUpload. rewrite Hes. done. }
  rewrite doUpload_unfold by (by rewrite Hes). rewrite Hes.
  set (total := Indexer.totalSize context).
  destruct schs as [|sch schs'].
  { simpl. split; [done|]. split; [done|]. split; [done|]. by intros _ ? ? ? ? ?. }
  cbn [uploadEntries]. unfold bind.
  assert (Hentry : ∃ s' o, uploadEntry total entry sch (start true) = (s', o)
            ∧ serverCalls (log s') = [] ∧ o ≠ Returned tt
            ∧ (∀ step steps, reads sch = step :: steps → onerror step = None →
                 o = Thrown Cancelled)).
  { unfold uploadEntry, bind, gets, emit, modify. simpl.
    unfold tryBody, bind.
    destruct (reads sch) as [|step steps].
    { simpl. eexists _, _. split; [done|]. done. }
    cbn [transfer]. unfold bind at 1.
    unfold iteration, bind, gets, emit, modify, await, settled, ret, throw, checkCancelled.
    simpl.
    set (s0 := withLog (λ l, l ++ [ReadCall (file entry) 0])
                 (enterEntry (withLog (λ l, l ++ [Report 0 total]) (start true)))).
    destruct (await_window total (during_read step) s0)
      as (w & Lw & Iw & Ow & Fw & Idw & Rw & Dw & Pw & Cw & Jw).
    set (sA := foldl (λ s ev, deliver total ev s) s0 (during_read step)) in *.
    destruct (Pw eq_refl) as [HpA ->]. simpl in Lw, Fw, Idw, Cw.
    specialize (Cw eq_refl).
    assert (Hfin : finallyClose sA = sA) by (unfold finallyClose; by rewrite Idw).
    destruct (Reader.readFileSlice (file entry) 0 (onerror step)) as [a|e] eqn:Eslice.
    2:{ eexists _, _. split; [done|]. rewrite Hfin, Lw.
        split; [done|]. split; [done|].
        intros ? ? [= <- <-] Hnone. rewrite Hnone in Eslice.
        pose proof (readFileSlice_cases (file entry) 0 None ltac:(done) ltac:(by left)) as Hc.
        by rewrite Eslice in Hc. }
    rewrite Fw, Cw. eexists _, _. split; [done|]. rewrite Hfin, Lw. done. }
  destruct Hentry as (s' & o & -> & Hlog & Ho & Hcancel).
  destruct o as [[]|e|]; [done| |]; cbn [fst snd].
  - split; [done|]. split; [done|]. split; [by intros _ ?|].
    intros _ ? ? ? ? [= <- <-] Hr Hnone. by injection (Hcancel _ _ Hr Hnone) as ->.
  - split; [done|]. split; [done|]. split; [by intros _ ?|].
    intros _ ? ? ? ? [= <- <-] Hr Hnone. by pose proof (Hcancel _ _ Hr Hnone).
Qed.

End SessionRequests.

(** ** An upload on which nothing goes wrong *)

Section SessionAnswered.
Context `{BrowserHost}.
Import Session.
Variable total : Z.

Lemma firstRejected_waiting (k : nat) (rs : list Z) :
  firstRejected (replicate k Fulfilled ++ (WaitingAck <$> rs)) = None.
Proof.
  induction k as [|k IH]; simpl; [|done].
  induction rs as [|r rs IH]; simpl; done.
Qed.

Lemma forallb_fulfilled (k : nat) : forallb isFulfilled (replicate k Fulfilled) = true.
Proof. induction k as [|k IH]; simpl; done. Qed.

Lemma forallb_waiting (k : nat) (r : Z) (ps : list Promise) :
  forallb isFulfilled (replicate k Fulfilled ++ WaitingAck r :: ps) = false.
Proof. induction k as [|k IH]; simpl; done. Qed.

(** [Promise.all] resolves once every append is acknowledged, when the
    token is left alone. *)
Lemma awaitAll_acks (rs : list Z) (k extra : nat) (s : State) :
  promises s = replicate k Fulfilled ++ (WaitingAck <$> rs) →
  cancellationRequested s = false →
  ∃ s', awaitAll total ((λ j, AppendSettled j (Ok tt)) <$> seq k (length rs + extra)) s
        = (s', Returned tt)
    ∧ cancellationRequested s' = false ∧ id s' = id s ∧ done s' = done s.
Proof.
  revert k s. induction rs as [|r rs IH]; intros k s Hp Hc.
  { exists s. pose proof (firstRejected_waiting k []) as Hrej.
    simpl in Hp, Hrej. rewrite app_nil_r in Hp, Hrej.
    destruct (_ <$> seq k (length [] + extra)); simpl;
      rewrite Hp, Hrej, forallb_fulfilled; done. }
  assert (Hrej : firstRejected (promises s) = None).
  { rewrite Hp. apply firstRejected_waiting. }
  assert (Hnot : forallb isFulfilled (promises s) = false).
  { rewrite Hp. apply forallb_waiting. }
  cbn [length Nat.add seq fmap list_fmap awaitAll].
  rewrite Hrej, Hnot.
  assert (Hk : promises s !! k = Some (WaitingAck r)).
  { rewrite Hp, lookup_app_r by (by rewrite length_replicate).
    by rewrite length_replicate, Nat.sub_diag. }
  cbn [deliver]. rewrite Hk, Hc.
  set (s1 := withPromises _ _).
  destruct (IH (S k) s1) as (s' & Hrun & Hc' & Hid' & Hdone').
  { subst s1. cbn [promises withPromises withLog]. rewrite Hp.
    rewrite insert_app_r_alt by (by rewrite length_replicate).
    rewrite length_replicate, Nat.sub_diag. cbn [insert list_insert fmap list_fmap].
    rewrite (replicate_S_end k), <- app_assoc. done. }
  { done. }
  exists s'. done.
Qed.

(** The transfer loop when no read fails, [open] answers and the token is
    left alone: it ends, with one promise for every slice sent by
    [append]. *)
Lemma transfer_answered (entry : UploadEntry) (sch : EntrySchedule) (i : string)
  (fuel : nat) (slices : list Reader.FileSlice) (s : State) :
  during_open sch = [] → open_result sch = Ok i →
  someAppendFailed s = None → cancellationRequested s = false →
  (id s = None ∨ id s = Some i) →
  Reader.readSlicesFrom fuel (file entry) (readBytes s) = Some (Ok slices) →
  ∃ s' rs, transfer total entry sch
             (replicate fuel {| during_read := []; onerror := None |}) s
           = (s', Returned tt)
    ∧ cancellationRequested s' = false ∧ id s' = Some i ∧ done s' = done s
    ∧ promises s' = promises s ++ (WaitingAck <$> rs)
    ∧ length rs < fuel + (if id s is Some _ then 1 else 0).
Proof.
  intros Hevs Hopen. revert slices s.
  induction fuel as [|fuel IH]; intros slices s Hsaf Hcan Hid Hread; [done|].
  cbn [Reader.readSlicesFrom] in Hread.
  destruct (Reader.readFileSlice (file entry) (readBytes s) None) as [slice|e] eqn:Eslice;
    [|done].
  cbn [replicate transfer]. unfold bind at 1.
  assert (Hit : ∃ s1 rs1,
    iteration total entry sch {| during_read := []; onerror := None |} s
      = (s1, Returned (bool_decide (Reader.read slice < size (file entry))%Z))
    ∧ someAppendFailed s1 = None ∧ cancellationRequested s1 = false
    ∧ readBytes s1 = Reader.read slice ∧ id s1 = Some i ∧ done s1 = done s
    ∧ promises s1 = promises s ++ (WaitingAck <$> rs1)
    ∧ length rs1 = (if id s is Some _ then 1 else 0)).
  { unfold iteration, bind, gets, emit, modify, await, settled, ret, throw, checkCancelled.
    simpl. rewrite Eslice. simpl. rewrite Hsaf. simpl. rewrite Hcan. simpl.
    destruct Hid as [Hid|Hid]; rewrite Hid; simpl.
    - rewrite Hevs, Hopen. simpl. rewrite Hcan.
      eexists _, []. split; [reflexivity|]. simpl. by rewrite app_nil_r.
    - eexists _, [Reader.read slice]. split; [reflexivity|]. done. }
  destruct Hit as (s1 & rs1 & -> & Hsaf1 & Hcan1 & Hread1 & Hid1 & Hdone1 & Hp1 & Hlen1).
  destruct (Z.ltb_spec (Reader.read slice) (size (file entry))) as [Hmore|Hlast].
  - rewrite bool_decide_eq_true_2 by done.
    destruct (Reader.readSlicesFrom fuel (file entry) (Reader.read slice))
      as [[rest|e]|] eqn:Erest; [|done|done].
    rewrite <- Hread1 in Erest.
    destruct (IH rest s1 Hsaf1 Hcan1 ltac:(by right) Erest)
      as (s' & rs & Hrun & Hcan' & Hid' & Hdone' & Hp' & Hlen').
    exists s', (rs1 ++ rs). split; [done|]. split; [done|]. split; [done|].
    split; [congruence|].
    split; [by rewrite Hp', Hp1, fmap_app, app_assoc|].
    rewrite Hid1 in Hlen'. rewrite length_app, Hlen1. destruct (id s); lia.
  - rewrite bool_decide_eq_false_2 by lia.
    exists s1, rs1. split; [done|]. split; [done|]. split; [done|]. split; [done|].
    split; [done|]. rewrite Hlen1. destruct (id s); lia.
Qed.

(** One entry, when nothing goes wrong. *)
Lemma uploadEntry_answered (entry : UploadEntry) (i : string) (s : State) :
  cancellationRequested s = false →
  ∃ s', uploadEntry total entry (answeredAll i (sliceBound (file entry))) s
        = (s', Returned tt)
    ∧ cancellationRequested s' = false.
Proof.
  intros Hcan. unfold uploadEntry, bind, gets, emit, modify. simpl.
  set (s0 := enterEntry (withLog (λ l, l ++ [Report (done s) total]) s)).
  destruct (readSlices_slices (file entry)) as [Hall _].
  destruct (transfer_answered entry (answeredAll i (sliceBound (file entry))) i
              (sliceBound (file entry)) (Reader.slices (file entry)) s0)
    as (s1 & rs & Hrun & Hcan1 & Hid1 & Hdone1 & Hp1 & Hlen1); try done.
  { by left. }
  unfold tryBody, bind. cbn [reads answeredAll]. rewrite Hrun.
  cbn [s0 promises enterEntry id app] in Hp1, Hlen1.
  destruct (awaitAll_acks rs 0 (sliceBound (file entry) - 1 - length rs) s1)
    as (s2 & Hrun2 & Hcan2 & Hid2 & Hdone2); [done|done|].
  cbn [during_all answeredAll].
  replace (length rs + (sliceBound (file entry) - 1 - length rs))
    with (sliceBound (file entry) - 1) in Hrun2 by lia.
  rewrite Hrun2. simpl. eexists. split; [reflexivity|].
  unfold finallyClose. simpl. rewrite Hid2, Hid1. done.
Qed.

(** Every entry, when nothing goes wrong. *)
Lemma uploadEntries_answered (es : list UploadEntry) (ids : list string) (s : State) :
  length ids = length es → cancellationRequested s = false →
  ∃ s', uploadEntries total es
          (zip_with (λ entry i, answeredAll i (sliceBound (file entry))) es ids) s
        = (s', Returned tt).
Proof.
  revert ids s. induction es as [|entry es IH]; intros ids s Hlen Hcan.
  { by exists s. }
  destruct ids as [|i ids]; [done|]. cbn [zip_with uploadEntries]. unfold bind at 1.
  destruct (uploadEntry_answered entry i s Hcan) as (s1 & -> & Hcan1).
  apply IH; [|done]. simpl in Hlen. lia.
Qed.

End SessionAnswered.

Section SessionAnsweredClaims.
Context `{BrowserHost}.
Import Session.

Lemma sessionRequests_answered (es : list UploadEntry) (ids : list string) :
  sessionRequests es (zip_with (λ entry i, answeredAll i (sliceBound (file entry))) es ids)
  = concat (zip_with entryRequests es ids).
Proof.
  revert ids. induction es as [|entry es IH]; intros ids; [done|].
  destruct ids as [|i ids]; [done|].
  cbn [zip_with]. rewrite sessionRequests_cons, IH. done.
Qed.

(** X11. An upload on which nothing goes wrong resolves.  When the token is not
    cancelled, no read fails, every [open] returns an id and every [append]
    is acknowledged, [doUpload] resolves, whatever the files are; the
    requests it has sent are, for every entry in turn, those that send all
    the slices of the file under the id [open] returned, and [close]. *)
Theorem answered_upload_resolves (context : Indexer.Context) (ids : list string) :
  length ids = length (Indexer.entries context) →
  let schs := zip_with (λ entry i, answeredAll i (sliceBound (file entry)))
                (Indexer.entries context) ids in
  (doUpload context false schs).2 = Returned {| uploaded := [] |}
  ∧ serverCalls (doUpload context false schs).1 =
      concat (zip_with entryRequests (Indexer.entries context) ids).
Proof.
  intros Hlen schs.
  destruct (decide (Indexer.entries context = [])) as [Hnil|Hne].
  { unfold doUpload. rewrite Hnil. done. }
  rewrite doUpload_unfold by done.
  destruct (uploadEntries_answered (Indexer.totalSize context) (Indexer.entries context)
              ids (start false) Hlen eq_refl) as (s' & Hrun).
  pose proof (uploadEntries_calls (Indexer.totalSize context) (Indexer.entries context)
                schs (start false)) as Hcalls.
  fold schs in Hrun. rewrite Hrun in Hcalls |- *.
  destruct Hcalls as [(_ & _ & Hlog & _)|(Ho & _)]; [|done].
  cbn [fst snd]. split; [done|].
  rewrite serverCalls_app, Hlog. simpl. rewrite app_nil_r.
  apply sessionRequests_answered.
Qed.

End SessionAnsweredClaims.

(** ** The progress of the upload session *)

Section SessionProgress.
Context `{BrowserHost}.
Import Session.
Variable total : Z.

Lemma withinTotal_other (a : Action) : (∀ d t, a ≠ Report d t) → withinTotal total a.
Proof. intros Ha d t Hr. by destruct (Ha d t). Qed.

Lemma withinTotal_report (d : Z) : (0 ≤ d ≤ total)%Z → withinTotal total (Report d total).
Proof. intros Hd d' t [= <- <-]. done. Qed.

Lemma Forall_insert_promise (sz : Z) (ps : list Promise) (n : nat) (p : Promise) :
  Forall (λ p, ∀ r, p = WaitingAck r → (0 ≤ r ≤ sz)%Z) ps →
  (∀ r, p ≠ WaitingAck r) →
  Forall (λ p, ∀ r, p = WaitingAck r → (0 ≤ r ≤ sz)%Z) (<[n := p]> ps).
Proof.
  intros Hps Hp. apply Forall_insert; [done|]. intros r Hr. by destruct (Hp r).
Qed.

(** A callback of the event loop keeps the progress within the total. *)
Lemma deliver_progress (entry : UploadEntry) (ev : Event) (s : State) :
  Progress total entry s → Progress total entry (deliver total ev s).
Proof.
  intros (Hd & Hsz & Hps & Hlog).
  destruct ev as [|n r]; simpl; [done|].
  destruct (promises s !! n) as [[rd| |e]|] eqn:E; try done.
  assert (Hrd : (0 ≤ rd ≤ size (file entry))%Z).
  { rewrite Forall_lookup in Hps. by apply (Hps n _ E). }
  destruct r as [[]|e]; [destruct (cancellationRequested s)|]; unfold Progress; simpl.
  - split; [done|]. split; [done|]. split; [by apply Forall_insert_promise|]. done.
  - split; [done|]. split; [done|]. split; [by apply Forall_insert_promise|].
    apply Forall_app. split; [done|].
    constructor; [|done]. apply withinTotal_report. lia.
  - split; [done|]. split; [done|]. split; [by apply Forall_insert_promise|].
    apply Forall_app. split; [done|].
    constructor; [|done]. by apply withinTotal_other.
Qed.

Lemma await_progress (entry : UploadEntry) (evs : list Event) (s : State) :
  Progress total entry s →
  Progress total entry (foldl (λ s ev, deliver total ev s) s evs).
Proof.
  revert s. induction evs as [|ev evs IH]; intros s Hs; simpl; [done|].
  by apply IH, deliver_progress.
Qed.

Lemma awaitAll_progress (entry : UploadEntry) (evs : list Event) (s : State) :
  Progress total entry s →
  Progress total entry (awaitAll total evs s).1
  ∧ done (awaitAll total evs s).1 = done s.
Proof.
  revert s. induction evs as [|ev evs IH]; intros s Hs; simpl;
    destruct (firstRejected (promises s)); try done;
    destruct (forallb isFulfilled (promises s)); try done.
  destruct (IH (deliver total ev s)) as [HP ->]; [by apply deliver_progress|].
  split; [done|]. by destruct (deliver_window total ev s) as (? & ? & ? & ? & ? & ? & ? & ? & ?).
Qed.

Lemma emit_progress (entry : UploadEntry) (a : Action) (s : State) :
  Progress total entry s → withinTotal total a →
  Progress total entry (withLog (λ l, l ++ [a]) s).
Proof.
  intros (Hd & Hsz & Hps & Hlog) Ha. unfold Progress. simpl.
  do 3 (split; [done|]). apply Forall_app. split; [done|]. by constructor.
Qed.

Lemma setReadBytes_progress (entry : UploadEntry) (n : Z) (s : State) :
  Progress total entry s → Progress total entry (setReadBytes n s).
Proof. done. Qed.

(** A read at the offset of the loop returns an offset within the file. *)
Lemma readFileSlice_within (f : File) (r : Z) (oe : option Error)
  (slice : Reader.FileSlice) :
  (0 ≤ r)%Z → (r = 0 ∨ r < size f)%Z →
  Reader.readFileSlice f r oe = Ok slice →
  (0 ≤ Reader.read slice ≤ size f)%Z.
Proof.
  intros Hr Hrange. unfold Reader.readFileSlice.
  assert (Hsize : (0 ≤ size f)%Z) by (unfold size; lia).
  destruct (Z.eqb_spec (size f) 0) as [Hz|Hnz]; simpl.
  - destruct (Z.eqb_spec r 0) as [->|Hr0]; simpl.
    + intros [= <-]. simpl. lia.
    + lia.
  - destruct (Z.eqb_spec (size f - r) 0); [done|].
    destruct oe; [done|]. intros [= <-]. simpl. unfold maxChunkSize. lia.
Qed.

Lemma iteration_progress (entry : UploadEntry) (sch : EntrySchedule) (step : ReadStep)
  (s : State) :
  Progress total entry s →
  (0 ≤ readBytes s)%Z → (readBytes s = 0 ∨ readBytes s < size (file entry))%Z →
  match iteration total entry sch step s with
  | (s', o) =>
      Progress total entry s'
      ∧ (∀ again, o = Returned again →
           (0 ≤ readBytes s')%Z
           ∧ (again = true → (readBytes s' < size (file entry))%Z))
  end.
Proof.
  intros Hs Hr Hrange.
  unfold iteration, bind, gets, emit, modify, await, settled, ret, throw, checkCancelled.
  simpl.
  set (s0 := withLog (λ l, l ++ [ReadCall (file entry) (readBytes s)]) s).
  assert (H0 : Progress total entry s0).
  { apply emit_progress; [done|]. by apply withinTotal_other. }
  pose proof (await_progress entry (during_read step) s0 H0) as HA.
  set (sA := foldl (λ s ev, deliver total ev s) s0 (during_read step)) in *.
  destruct (Reader.readFileSlice (file entry) (readBytes s) (onerror step))
    as [a|e] eqn:Eslice; [|done].
  pose proof (readFileSlice_within _ _ _ _ Hr Hrange Eslice) as Hread.
  destruct (someAppendFailed sA); [done|].
  destruct (cancellationRequested sA); [done|].
  destruct (id sA) as [i|].
  { split.
    - destruct HA as (HdA & HszA & HpsA & HlogA). unfold Progress.
      cbn [log withLog withPromises setReadBytes promises done readBytes].
      split; [done|]. split; [done|].
      split. { apply Forall_app. split; [done|]. constructor; [|done].
               by intros r [= <-]. }
      apply Forall_app. split; [done|]. constructor; [|done].
      by apply withinTotal_other.
    - intros again [= <-].
      cbn [log withLog withPromises setReadBytes promises done readBytes].
      split; [lia|]. by intros Hagain%bool_decide_eq_true. }
  set (s1 := withLog (λ l, l ++ [OpenCall (uri entry) (Reader.content a)
                (bool_decide (size (file entry) ≤ Reader.read a)%Z)])
               (setReadBytes (Reader.read a) sA)).
  assert (H1 : Progress total entry s1).
  { apply emit_progress; [|by apply withinTotal_other]. by apply setReadBytes_progress. }
  pose proof (await_progress entry (during_open sch) s1 H1) as HB.
  destruct (await_calls total (during_open sch) s1) as (_ & _ & RB).
  set (sB := foldl (λ s ev, deliver total ev s) s1 (during_open sch)) in *.
  simpl in RB.
  destruct (open_result sch) as [i'|e]; [|done].
  destruct (cancellationRequested sB); [done|].
  cbn [log withLog setId promises done readBytes].
  split.
  - destruct HB as (HdB & HszB & HpsB & HlogB). unfold Progress.
    cbn [log withLog setId promises done readBytes].
    do 3 (split; [done|]). apply Forall_app. split; [done|]. constructor; [|done].
    apply withinTotal_report. lia.
  - intros again [= <-]. rewrite RB. split; [lia|]. by intros Hagain%bool_decide_eq_true.
Qed.

Lemma transfer_progress (entry : UploadEntry) (sch : EntrySchedule) (steps : list ReadStep)
  (s : State) :
  Progress total entry s →
  (0 ≤ readBytes s)%Z → (readBytes s = 0 ∨ readBytes s < size (file entry))%Z →
  Progress total entry (transfer total entry sch steps s).1.
Proof.
  revert s. induction steps as [|step steps IH]; intros s Hs Hr Hrange; [done|].
  cbn [transfer]. unfold bind at 1.
  pose proof (iteration_progress entry sch step s Hs Hr Hrange) as Hit.
  destruct (iteration total entry sch step s) as [s1 o1].
  destruct Hit as [H1 Hret].
  destruct o1 as [again|e|]; [|done|done].
  destruct (Hret again eq_refl) as [Hr1 Hagain].
  destruct again; [|done]. apply IH; [done|done|]. right. by apply Hagain.
Qed.

(** One iteration of the [for] loop keeps the reports within the total,
    and adds the size of the file to [done] if it comes to its end. *)
Lemma uploadEntry_progress (entry : UploadEntry) (sch : EntrySchedule) (s : State) :
  (0 ≤ done s)%Z → (done s + size (file entry) ≤ total)%Z →
  Forall (withinTotal total) (log s) →
  match uploadEntry total entry sch s with
  | (s', o) =>
      Forall (withinTotal total) (log s')
      ∧ (o = Returned tt → done s' = (done s + size (file entry))%Z)
  end.
Proof.
  intros Hd Hsz Hlog. unfold uploadEntry, bind, gets, emit, modify. simpl.
  set (s0 := enterEntry (withLog (λ l, l ++ [Report (done s) total]) s)).
  assert (Hsize : (0 ≤ size (file entry))%Z) by (unfold size; lia).
  assert (H0 : Progress total entry s0).
  { unfold Progress. simpl. split; [done|]. split; [done|]. split; [done|].
    apply Forall_app. split; [done|]. constructor; [|done].
    apply withinTotal_report. lia. }
  unfold tryBody, bind.
  pose proof (transfer_progress entry sch (reads sch) s0 H0 ltac:(done) ltac:(by left))
    as H1.
  assert (Hfinally : ∀ s2, Forall (withinTotal total) (log s2) →
            Forall (withinTotal total) (log (finallyClose s2))).
  { intros s2 H2. unfold finallyClose. destruct (id s2); [|done]. simpl.
    apply Forall_app. split; [done|]. constructor; [|done]. by apply withinTotal_other. }
  assert (Hdone1 : ∀ s1 o1, transfer total entry sch (reads sch) s0 = (s1, o1) →
            done s1 = done s).
  { intros s1 o1 E1. clear -E1. revert E1. generalize s0, (eq_refl : done s0 = done s).
    induction (reads sch) as [|step steps IH]; intros s2 Hd2 E1.
    { injection E1 as <- _. done. }
    cbn [transfer] in E1. unfold bind at 1 in E1.
    destruct (iteration total entry sch step s2) as [s3 o3] eqn:E3.
    assert (Hd3 : done s3 = done s).
    { rewrite <- Hd2. clear -E3. revert E3.
      unfold iteration, bind, gets, emit, modify, await, settled, ret, throw,
        checkCancelled. simpl.
      set (s0 := withLog _ s2).
      destruct (await_window total (during_read step) s0)
        as (? & _ & _ & _ & _ & _ & _ & DA & _).
      set (sA := foldl _ s0 (during_read step)) in *. simpl in DA.
      destruct (Reader.readFileSlice _ _ _); [|by intros [= <- _]].
      destruct (someAppendFailed sA); [by intros [= <- _]|].
      destruct (cancellationRequested sA); [by intros [= <- _]|].
      destruct (id sA); [by intros [= <- _]|].
      set (s1 := withLog _ (setReadBytes _ sA)).
      destruct (await_window total (during_open sch) s1)
        as (? & _ & _ & _ & _ & _ & _ & DB & _).
      set (sB := foldl _ s1 (during_open sch)) in *. simpl in DB.
      destruct (open_result sch); [|intros [= <- _]; congruence].
      destruct (cancellationRequested sB); intros [= <- _]; simpl; congruence. }
    destruct o3 as [[]|e|]; try (injection E1 as <- _; done).
    by apply (IH s3). }
  destruct (transfer total entry sch (reads sch) s0) as [s1 o1] eqn:Etr.
  specialize (Hdone1 s1 o1 eq_refl). simpl in H1.
  destruct o1 as [[]|e|].
  2:{ split; [|done]. apply Hfinally. by destruct H1 as (_ & _ & _ & ?). }
  2:{ split; [|done]. by destruct H1 as (_ & _ & _ & ?). }
  destruct (awaitAll_progress entry (during_all sch) s1 H1) as [H2 Hdone2].
  destruct (awaitAll total (during_all sch) s1) as [s2 o2]. simpl in H2, Hdone2.
  destruct H2 as (Hd2 & Hsz2 & Hps2 & Hlog2).
  destruct o2 as [[]|e|]; simpl.
  - split.
    + apply Hfinally. simpl. apply Forall_app. split; [done|]. constructor; [|done].
      apply withinTotal_report. lia.
    + intros _. unfold finallyClose. simpl. destruct (id s2); simpl; congruence.
  - split; [by apply Hfinally|done].
  - done.
Qed.

Lemma sumSizes_nonneg (es : list UploadEntry) : (0 ≤ Indexer.sumSizes es)%Z.
Proof. induction es as [|e es IH]; simpl; [done|]. unfold size. lia. Qed.

Lemma uploadEntries_progress (es : list UploadEntry) (schs : list EntrySchedule)
  (s : State) :
  (0 ≤ done s)%Z → (done s + Indexer.sumSizes es ≤ total)%Z →
  Forall (withinTotal total) (log s) →
  Forall (withinTotal total) (log (uploadEntries total es schs s).1).
Proof.
  revert schs s. induction es as [|entry es IH]; intros schs s Hd Hsum Hlog; [done|].
  destruct schs as [|sch schs]; [done|].
  cbn [uploadEntries]. unfold bind at 1. simpl in Hsum.
  pose proof (sumSizes_nonneg es) as Hes.
  assert (Hsize : (0 ≤ size (file entry))%Z) by (unfold size; lia).
  pose proof (uploadEntry_progress entry sch s Hd ltac:(lia) Hlog) as Hentry.
  destruct (uploadEntry total entry sch s) as [s1 o1].
  destruct Hentry as [Hlog1 Hdone1].
  destruct o1 as [[]|e|]; [|done|done].
  specialize (Hdone1 eq_refl). apply IH; [lia|lia|done].
Qed.

End SessionProgress.

Section SessionProgressClaims.
Context `{BrowserHost}.
Import Session.

(** X12. The progress reports.  For a context whose total is the sum of the
    sizes of its files, every progress report of [doUpload] carries that
    total, and a [done] between 0 and the total: whatever the order in which
    the acknowledgements arrive, and whether the upload resolves, fails or
    is cancelled, the progress never exceeds the total.  Indexing builds
    such a context, so the same holds of every report of [upload]. *)
Theorem progress_stays_within_the_total (d t : Z) :
  (∀ context cancelled schs,
     Indexer.totalSize context = Indexer.sumSizes (Indexer.entries context) →
     Report d t ∈ (doUpload context cancelled schs).1 →
     t = Indexer.totalSize context ∧ (0 ≤ d ≤ t)%Z)
  ∧ (∀ targetUri source polls schs,
       Report d t ∈ (upload targetUri source polls schs).1 → (0 ≤ d ≤ t)%Z).
Proof.
  assert (Hdo : ∀ context cancelled schs,
     Indexer.totalSize context = Indexer.sumSizes (Indexer.entries context) →
     Report d t ∈ (doUpload context cancelled schs).1 →
     t = Indexer.totalSize context ∧ (0 ≤ d ≤ t)%Z).
  { intros context cancelled schs Htotal Hin.
    destruct (decide (Indexer.entries context = [])) as [Hnil|Hne].
    { unfold doUpload in Hin. rewrite Hnil in Hin. simpl in Hin.
      by apply elem_of_nil in Hin. }
    rewrite doUpload_unfold in Hin by done.
    pose proof (sumSizes_nonneg (Indexer.entries context)) as Hpos.
    pose proof (uploadEntries_progress (Indexer.totalSize context)
                  (Indexer.entries context) schs (start cancelled)
                  ltac:(done) ltac:(simpl; lia) ltac:(constructor)) as Hlog.
    destruct (uploadEntries (Indexer.totalSize context) (Indexer.entries context) schs
                (start cancelled)) as [s' o].
    simpl in Hlog. rewrite Forall_forall in Hlog.
    assert (Hold : Report d t ∈ log s' →
              t = Indexer.totalSize context ∧ (0 ≤ d ≤ t)%Z).
    { intros Hin'. destruct (Hlog _ Hin' d t eq_refl) as [-> ?]. done. }
    destruct o as [[]|e|]; simpl in Hin; [|by apply Hold|by apply Hold].
    apply elem_of_app in Hin as [Hin|Hin]; [by apply Hold|].
    apply list_elem_of_singleton in Hin as [= -> ->]. lia. }
  split; [done|].
  intros targetUri source polls schs. unfold upload.
  set (st0 := {| Indexer.context := Indexer.emptyContext; Indexer.polls := polls |}).
  destruct (indexStep_extends (Indexer.IndexDataTransfer targetUri source) st0)
    as (new & Hentries & Htotal & _).
  simpl in Hentries, Htotal.
  destruct (Indexer.indexDataTransfer targetUri source st0) as [st r]. simpl in *.
  destruct r as [[]|e]; [|by intros Hin%elem_of_nil].
  intros Hin. eapply Hdo; [|exact Hin]. rewrite Htotal, Hentries. simpl. done.
Qed.

End SessionProgressClaims.

(** ** The web socket variant *)

Section SocketReaderFacts.

#[local] Ltac Zify.zify_post_hook ::= Z.to_euclidean_division_equations.

(** A read inside the file that the reader does not fail: the next chunk. *)
Lemma socket_readFileSlice_inside (file : File) (r : Z) :
  (0 ≤ r)%Z → (r < size file)%Z →
  let n := Z.min maxChunkSize (size file - r) in
  SocketReader.readFileSlice file r None =
    Ok {| SocketReader.content := take (Z.to_nat n) (drop (Z.to_nat r) (bytes file));
          SocketReader.read := r + n |}.
Proof.
  intros Hr Hlt n. unfold SocketReader.readFileSlice.
  destruct (Z.eqb_spec (size file - r) 0); [lia|].
  fold n. rewrite Blob_slice_inside by (unfold n, maxChunkSize, size in *; lia).
  by replace (r + n - r)%Z with n by lia.
Qed.

Lemma socket_readSlicesFrom_spec (fuel : nat) (file : File) (r : Z) :
  (0 ≤ r)%Z → (r < size file)%Z →
  (size file - r ≤ Z.of_nat fuel * maxChunkSize)%Z →
  ∃ slices,
    SocketReader.readSlicesFrom fuel file r = Some (Ok slices)
    ∧ concat (SocketReader.content <$> slices) = drop (Z.to_nat r) (bytes file)
    ∧ Z.of_nat (length slices) = ((size file - r + maxChunkSize - 1) / maxChunkSize)%Z
    ∧ Forall (λ slice, (Z.of_nat (length (SocketReader.content slice)) ≤ maxChunkSize)%Z)
        slices
    ∧ (∀ k slice, slices !! k = Some slice → S k < length slices →
                  Z.of_nat (length (SocketReader.content slice)) = maxChunkSize)
    ∧ SocketReader.read <$> last slices = Some (size file).
Proof.
  revert r. induction fuel as [|fuel IH]; intros r Hr Hlt Hfuel.
  { unfold maxChunkSize in *. lia. }
  cbn [SocketReader.readSlicesFrom]. rewrite socket_readFileSlice_inside by done.
  cbn [SocketReader.read].
  set (n := Z.min maxChunkSize (size file - r)).
  set (piece := take (Z.to_nat n) (drop (Z.to_nat r) (bytes file))).
  assert (Hlen : Z.of_nat (length piece) = n).
  { unfold piece. rewrite length_take, length_drop.
    unfold n, size, maxChunkSize in *. lia. }
  destruct (Z.ltb_spec (r + n) (size file)) as [Hmore|Hlast].
  - assert (Hn : n = maxChunkSize) by (unfold n in *; lia).
    destruct (IH (r + n)%Z) as (rest & Hrun & Hcat & Hcount & Hmax & Hfull & Hend).
    { unfold maxChunkSize in *; lia. } { done. } { unfold maxChunkSize in *; lia. }
    eexists (_ :: rest). rewrite Hrun. split; [done|]. split.
    { rewrite fmap_cons. cbn [concat SocketReader.content]. rewrite Hcat.
      unfold piece. replace (Z.to_nat (r + n)) with (Z.to_nat r + Z.to_nat n)%nat by lia.
      rewrite <- drop_drop. apply take_drop. }
    split.
    { cbn [length]. rewrite Nat2Z.inj_succ, Hcount, Hn. unfold maxChunkSize in *. lia. }
    split; [constructor; [simpl; fold piece; lia|done]|].
    split.
    { intros [|k] p; cbn [length]; simpl.
      + intros [= <-] _. simpl. fold piece. lia.
      + intros Hp Hk. apply (Hfull k p Hp). lia. }
    destruct rest as [|x rest]; [done|]. by rewrite last_cons_cons.
  - eexists [_]. split; [done|]. split.
    { simpl. rewrite app_nil_r. apply take_ge.
      rewrite length_drop. unfold size, n in *. lia. }
    split.
    { simpl. unfold n, maxChunkSize in *. lia. }
    split; [repeat constructor; simpl; fold piece; unfold n in *; lia|].
    split; [intros k p _; simpl; lia|].
    simpl. f_equal. unfold n in *. lia.
Qed.

(** The loop on a file that is not empty never runs out of iterations. *)
Lemma socket_readSlices_slices (file : File) :
  (size file ≠ 0)%Z →
  SocketReader.readSlicesFrom (S (Z.to_nat (size file / maxChunkSize))) file 0
    = Some (Ok (SocketReader.slices file))
  ∧ concat (SocketReader.content <$> SocketReader.slices file) = bytes file.
Proof.
  intros Hnz. unfold SocketReader.slices.
  destruct (Z.eqb_spec (size file) 0); [done|].
  destruct (socket_readSlicesFrom_spec (S (Z.to_nat (size file / maxChunkSize))) file 0)
    as (sl & Hrun & Hcat & _).
  { done. } { unfold size in *. lia. }
  { pose proof (Z.mul_succ_div_gt (size file) maxChunkSize ltac:(done)).
    unfold maxChunkSize in *.
    rewrite Nat2Z.inj_succ, Z2Nat.id by (apply Z.div_pos; unfold size; lia). lia. }
  rewrite Hrun. done.
Qed.

(** X13. The chunks of the web socket variant.  The slices the sending loop
    reads for a file are consecutive pieces of it: concatenated they are the
    bytes of the file, there are ceil(size / 65536) of them, none for the
    empty file, every one has at most 65536 bytes and every one but the last
    has exactly 65536; the last returns the size as its offset, which ends
    the loop. *)
Theorem socket_slices_are_the_chunks (file : File) :
  let slices := SocketReader.slices file in
  concat (SocketReader.content <$> slices) = bytes file
  ∧ Z.of_nat (length slices) = ((size file + maxChunkSize - 1) / maxChunkSize)%Z
  ∧ Forall (λ slice, (Z.of_nat (length (SocketReader.content slice)) ≤ maxChunkSize)%Z)
      slices
  ∧ (∀ k slice, slices !! k = Some slice → S k < length slices →
                Z.of_nat (length (SocketReader.content slice)) = maxChunkSize)
  ∧ (if (size file =? 0)%Z then slices = []
     else SocketReader.readSlicesFrom (S (Z.to_nat (size file / maxChunkSize))) file 0
            = Some (Ok slices)
          ∧ SocketReader.read <$> last slices = Some (size file)).
Proof.
  intros slices. subst slices. unfold SocketReader.slices.
  destruct (Z.eqb_spec (size file) 0) as [Hz|Hnz].
  - rewrite Hz. simpl. split; [|done].
    unfold size in Hz. destruct (bytes file); [done|simpl in Hz; lia].
  - destruct (socket_readSlicesFrom_spec (S (Z.to_nat (size file / maxChunkSize))) file 0)
      as (sl & Hrun & Hcat & Hcount & Hmax & Hfull & Hend).
    { done. } { unfold size in *. lia. }
    { pose proof (Z.mul_succ_div_gt (size file) maxChunkSize ltac:(done)).
      unfold maxChunkSize in *.
      rewrite Nat2Z.inj_succ, Z2Nat.id by (apply Z.div_pos; unfold size; lia). lia. }
    rewrite Hrun. split; [done|]. split; [rewrite Hcount; f_equal; lia|]. done.
Qed.

End SocketReaderFacts.

Section SocketSessionFacts.
Import Session (Outcome, Returned, Thrown, Unsettled).
Import SocketSession.
Variable total : Z.
Variable result : FileUploadResult.

Lemma fmap_prefix_of {A B : Type} (f : A → B) (l1 l2 : list A) :
  l1 `prefix_of` l2 → f <$> l1 `prefix_of` f <$> l2.
Proof. intros [k ->]. exists (f <$> k). by rewrite fmap_app. Qed.

Lemma frames_app (l1 l2 : list Action) : frames (l1 ++ l2) = frames l1 ++ frames l2.
Proof. apply omap_app. Qed.

(** A handler sends no frame, and none takes the cancellation back. *)
Lemma deliver_frames (ev : Event) (s : State) :
  frames (log (deliver total result ev s)) = frames (log s)
  ∧ (cancellationRequested s = true →
     cancellationRequested (deliver total result ev s) = true).
Proof.
  destruct ev as [|response|code reason|e]; simpl.
  - unfold closeIfOpen, socketClose. simpl.
    destruct (readyState s =? 1)%Z; simpl; rewrite !frames_app; simpl;
      by rewrite ?app_nil_r.
  - unfold onmessage, socketClose.
    destruct (truthyNumber (response_done response)); simpl;
      [by rewrite frames_app, app_nil_r|].
    destruct (default false (response_ok response)); simpl;
      [by rewrite !frames_app, !app_nil_r|].
    destruct (truthyString (response_error response)); simpl;
      by rewrite !frames_app, !app_nil_r.
  - by rewrite frames_app, app_nil_r.
  - by rewrite frames_app, app_nil_r.
Qed.

Lemma await_frames (evs : list Event) (s : State) :
  let s' := foldl (λ s ev, deliver total result ev s) s evs in
  frames (log s') = frames (log s)
  ∧ (cancellationRequested s = true → cancellationRequested s' = true).
Proof.
  revert s. induction evs as [|ev evs IH]; intros s; simpl; [done|].
  destruct (IH (deliver total result ev s)) as [-> Hc].
  destruct (deliver_frames ev s) as [-> Hc']. split; [done|]. auto.
Qed.

(** Waiting for the buffer sends nothing; it ends or it is cancelled. *)
Lemma drain_frames (steps : list PollStep) (s : State) :
  match drain total result steps s with
  | (s', o) =>
      frames (log s') = frames (log s)
      ∧ (cancellationRequested s = true → cancellationRequested s' = true)
      ∧ (o = Returned tt ∨ o = Thrown Cancelled)
  end.
Proof.
  revert s. induction steps as [|step steps IH]; intros s; simpl; [by split; [|split; [|left]]|].
  destruct (maxChunkSize * 2 <? bufferedAmount step)%Z; [|by split; [|split; [|left]]].
  unfold bind, emit, await, checkCancelled. simpl.
  set (s0 := withLog (λ l, l ++ [Timeout]) s).
  destruct (await_frames (during_timeout step) s0) as [Hlog Hc].
  set (s1 := foldl (λ s ev, deliver total result ev s) s0 (during_timeout step)) in *.
  simpl in Hlog, Hc. rewrite frames_app in Hlog. simpl in Hlog. rewrite app_nil_r in Hlog.
  destruct (cancellationRequested s1) eqn:Ec1; [by split; [|split; [|right]]|].
  specialize (IH s1). destruct (drain total result steps s1) as [s' o].
  destruct IH as (-> & Hc' & Ho). split; [done|]. split; [|done].
  intros Hs. specialize (Hc Hs). congruence.
Qed.

(** The sending loop sends a prefix of the slices that remain to be read,
    in their order, and all of them if it is left at its end; it is left by
    an exception only for the cancellation or for an error of the reader. *)
Lemma transfer_frames (file : File) (steps : list ChunkStep) (r : Z) (s : State)
  (fuel : nat) (all : list SocketReader.FileSlice) :
  SocketReader.readSlicesFrom fuel file r = Some (Ok all) →
  match transfer total result file steps r s with
  | (s', o) =>
      ∃ sent, sent `prefix_of` all
        ∧ frames (log s') =
            frames (log s) ++ (ContentFrame ∘ SocketReader.content <$> sent)
        ∧ (o = Returned tt → sent = all)
        ∧ (cancellationRequested s = true → sent = [] ∧ o ≠ Returned tt)
        ∧ (∀ e, o = Thrown e →
             e = Cancelled ∨ ∃ step, step ∈ steps ∧ onerror step = Some e)
  end.
Proof.
  revert r s fuel all. induction steps as [|step steps IH]; intros r s fuel all Hall.
  { simpl. exists []. split; [apply prefix_nil|]. rewrite app_nil_r. done. }
  destruct fuel as [|fuel]; [done|]. cbn [SocketReader.readSlicesFrom] in Hall.
  destruct (SocketReader.readFileSlice file r None) as [slice|e0] eqn:Eslice; [|done].
  cbn [transfer]. unfold bind, emit, await, settled, checkCancelled. simpl.
  set (s0 := withLog (λ l, l ++ [ReadCall file r]) s).
  destruct (await_frames (during_read step) s0) as [Hlog Hc].
  set (sA := foldl (λ s ev, deliver total result ev s) s0 (during_read step)) in *.
  simpl in Hlog, Hc. rewrite frames_app in Hlog. simpl in Hlog. rewrite app_nil_r in Hlog.
  assert (Hnothing : ∀ o : Outcome unit, o ≠ Returned tt →
    (∀ e, o = Thrown e → e = Cancelled ∨ ∃ st, st ∈ step :: steps ∧ onerror st = Some e) →
    ∃ sent : list SocketReader.FileSlice, sent `prefix_of` all
      ∧ frames (log sA) = frames (log s) ++ (ContentFrame ∘ SocketReader.content <$> sent)
      ∧ (o = Returned tt → sent = all)
      ∧ (cancellationRequested s = true → sent = [] ∧ o ≠ Returned tt)
      ∧ (∀ e, o = Thrown e →
           e = Cancelled ∨ ∃ st, st ∈ step :: steps ∧ onerror st = Some e)).
  { intros o Ho He. exists []. split; [apply prefix_nil|]. split; [by rewrite app_nil_r|].
    done. }
  destruct (SocketReader.readFileSlice file r (onerror step)) as [a|e] eqn:Estep.
  2:{ apply Hnothing; [done|]. intros e' [= <-]. right. exists step.
      split; [by left|].
      unfold SocketReader.readFileSlice in Eslice, Estep.
      destruct (size file - r =? 0)%Z; [done|].
      destruct (onerror step); [by injection Estep as ->|done]. }
  assert (a = slice) as ->.
  { unfold SocketReader.readFileSlice in Eslice, Estep.
    destruct (size file - r =? 0)%Z; [done|].
    destruct (onerror step); [done|]. congruence. }
  destruct (cancellationRequested sA) eqn:EcA.
  { apply Hnothing; [done|]. intros e' [= <-]. by left. }
  assert (Hcs : cancellationRequested s = false).
  { destruct (cancellationRequested s); [|done]. by specialize (Hc eq_refl). }
  set (s1 := withLog (λ l, l ++ [Send (ContentFrame (SocketReader.content slice))]) sA).
  pose proof (drain_frames (polls step) s1) as Hdrain.
  destruct (drain total result (polls step) s1) as [s2 o2].
  destruct Hdrain as (Hlog2 & _ & Ho2).
  simpl in Hlog2. rewrite frames_app, Hlog in Hlog2. simpl in Hlog2.
  assert (Hfirst : ∃ rest, all = slice :: rest
            ∧ ((SocketReader.read slice < size file)%Z →
               SocketReader.readSlicesFrom fuel file (SocketReader.read slice)
                 = Some (Ok rest))
            ∧ (¬ (SocketReader.read slice < size file)%Z → rest = [])).
  { destruct (Z.ltb_spec (SocketReader.read slice) (size file)) as [Hmore|Hlast].
    - destruct (SocketReader.readSlicesFrom fuel file (SocketReader.read slice))
        as [[rest|e]|]; [|done|done].
      injection Hall as <-. exists rest. split; [done|]. split; [done|]. lia.
    - injection Hall as <-. exists []. split; [done|]. split; [lia|done]. }
  clear Hall. destruct Hfirst as (rest & -> & Hrest & Hend).
  destruct Ho2 as [-> | ->].
  2:{ exists [slice]. split; [by apply prefix_cons, prefix_nil|]. split; [done|].
      split; [done|]. split; [by rewrite Hcs|]. intros e [= <-]. by left. }
  destruct (Z.ltb_spec (SocketReader.read slice) (size file)) as [Hmore|Hlast].
  2:{ exists [slice]. split; [by apply prefix_cons, prefix_nil|]. split; [done|].
      split; [intros _; by rewrite Hend by lia|]. split; [by rewrite Hcs|done]. }
  specialize (IH (SocketReader.read slice) s2 fuel rest (Hrest Hmore)).
  destruct (transfer total result file steps (SocketReader.read slice) s2) as [s' o].
  destruct IH as (sent & Hpre & Hlog' & Hret' & _ & Herr').
  exists (slice :: sent). split; [by apply prefix_cons|].
  split. { rewrite Hlog', Hlog2, <- app_assoc. done. }
  split; [intros Ho; by rewrite (Hret' Ho)|]. split; [by rewrite Hcs|].
  intros e He. destruct (Herr' e He) as [->|(st & Hin & Hst)]; [by left|right].
  exists st. split; [by right|done].
Qed.

(** One entry: the header, then the slices of the file. *)
Lemma sendEntry_frames (entry : UploadEntry) (steps : list ChunkStep) (s : State) :
  match sendEntry total result entry steps s with
  | (s', o) =>
      ∃ sent, sent `prefix_of` entryFrames entry
        ∧ frames (log s') = frames (log s) ++ sent
        ∧ (o = Returned tt → sent = entryFrames entry)
        ∧ (cancellationRequested s = true →
           sent = [EntryFrame (uri entry) (size (file entry))]
           ∧ (o = Returned tt ↔ size (file entry) = 0%Z)
           ∧ (o = Returned tt → cancellationRequested s' = true))
        ∧ (∀ e, o = Thrown e →
             e = Cancelled ∨ ∃ step, step ∈ steps ∧ onerror step = Some e)
  end.
Proof.
  unfold sendEntry, bind, emit. simpl. unfold entryFrames.
  set (s0 := withLog (λ l, l ++ [Send (EntryFrame (uri entry) (size (file entry)))]) s).
  assert (Hlog0 : frames (log s0) =
            frames (log s) ++ [EntryFrame (uri entry) (size (file entry))]).
  { simpl. by rewrite frames_app. }
  destruct (Z.eqb_spec (size (file entry)) 0) as [Hz|Hnz].
  - simpl. exists [EntryFrame (uri entry) (size (file entry))].
    unfold SocketReader.slices. rewrite Hz. simpl. rewrite <- Hz.
    split; [done|]. split; [done|]. done.
  - destruct (socket_readSlices_slices (file entry) Hnz) as [Hall _].
    pose proof (transfer_frames (file entry) steps 0 s0 _ _ Hall) as Htr.
    destruct (transfer total result (file entry) steps 0 s0) as [s' o].
    destruct Htr as (sent & Hpre & Hlog & Hret & Hcan & Herr).
    exists (EntryFrame (uri entry) (size (file entry))
              :: (ContentFrame ∘ SocketReader.content <$> sent)).
    split. { apply prefix_cons. by apply fmap_prefix_of. }
    split; [by rewrite Hlog, Hlog0, <- app_assoc|].
    split; [intros Ho; by rewrite (Hret Ho)|].
    split; [|done]. intros Hs. destruct (Hcan Hs) as [-> Ho]. done.
Qed.

(** The loop over the entries. *)
Lemma sendEntries_frames (entries : list UploadEntry) (schs : list (list ChunkStep))
  (s : State) :
  match sendEntries total result entries schs s with
  | (s', o) =>
      ∃ sent, sent `prefix_of` concat (entryFrames <$> entries)
        ∧ frames (log s') = frames (log s) ++ sent
        ∧ (o = Returned tt → sent = concat (entryFrames <$> entries))
        ∧ (cancellationRequested s = true →
           Forall (λ frame, isContent frame = false) sent
           ∧ (o = Returned tt ↔ Forall (λ entry, size (file entry) = 0%Z) entries))
        ∧ (∀ e, o = Thrown e →
             e = Cancelled
             ∨ ∃ steps step, steps ∈ schs ∧ step ∈ steps ∧ onerror step = Some e)
  end.
Proof.
  revert schs s. induction entries as [|entry entries IH]; intros schs s.
  { simpl. exists []. rewrite app_nil_r. split; [done|]. split; [done|]. split; [done|].
    split; [|done]. intros _. split; [constructor|]. split; [constructor|done]. }
  cbn [sendEntries]. unfold bind at 1.
  pose proof (sendEntry_frames entry (default [] (head schs)) s) as Hentry.
  destruct (sendEntry total result entry (default [] (head schs)) s) as [s1 o1].
  destruct Hentry as (sent & Hpre & Hlog & Hret & Hcan & Herr).
  assert (Hsteps : ∀ step, step ∈ default [] (head schs) →
            ∃ steps, steps ∈ schs ∧ step ∈ steps).
  { intros step Hin. destruct schs as [|steps schs]; simpl in Hin.
    - by apply elem_of_nil in Hin.
    - exists steps. split; [by left|done]. }
  assert (Hstop : ∀ o : Outcome unit, o = o1 → o ≠ Returned tt →
    ∃ sent0, sent0 `prefix_of` concat (entryFrames <$> entry :: entries)
      ∧ frames (log s1) = frames (log s) ++ sent0
      ∧ (o = Returned tt → sent0 = concat (entryFrames <$> entry :: entries))
      ∧ (cancellationRequested s = true →
         Forall (λ frame, isContent frame = false) sent0
         ∧ (o = Returned tt ↔ Forall (λ entry, size (file entry) = 0%Z) (entry :: entries)))
      ∧ (∀ e, o = Thrown e →
           e = Cancelled
           ∨ ∃ steps step, steps ∈ schs ∧ step ∈ steps ∧ onerror step = Some e)).
  { intros o -> Ho. exists sent. split; [by apply prefix_app_r|]. split; [done|].
    split; [done|]. split.
    - intros Hs. destruct (Hcan Hs) as (-> & Hiff & _). split; [by repeat constructor|].
      split; [done|]. intros Hall. apply Forall_cons in Hall as [Hz _].
      by apply Hiff in Hz.
    - intros e He. destruct (Herr e He) as [->|(step & Hin & Hstep)]; [by left|right].
      destruct (Hsteps step Hin) as (steps & ? & ?). by exists steps, step. }
  destruct o1 as [[]|e|]; [|by apply Hstop|by apply Hstop]. clear Hstop.
  specialize (Hret eq_refl). subst sent.
  specialize (IH (tail schs) s1).
  destruct (sendEntries total result entries (tail schs) s1) as [s' o].
  destruct IH as (sent & Hpre' & Hlog' & Hret' & Hcan' & Herr').
  exists (entryFrames entry ++ sent). split; [by apply prefix_app|].
  split; [by rewrite Hlog', Hlog, <- app_assoc|].
  split; [intros Ho; by rewrite (Hret' Ho)|].
  split.
  - intros Hs. destruct (Hcan Hs) as (Hsent & Hiff & Hc1).
    destruct (Hcan' (Hc1 eq_refl)) as [Hno Hiff'].
    split. { apply Forall_app. split; [|done]. rewrite Hsent. by repeat constructor. }
    rewrite Hiff'. split; [intros Hall; constructor; [by apply Hiff|done]|].
    intros Hall. by apply Forall_cons in Hall as [_ ?].
  - intros e He. destruct (Herr' e He) as [->|(steps & step & Hin & Hin' & Hstep)];
      [by left|right].
    exists steps, step. split; [|done]. destruct schs; [done|]. by right.
Qed.

End SocketSessionFacts.

Section SocketSessionClaims.
Import Session (Outcome, Returned, Thrown, Unsettled).
Import SocketSession.

(** X14. The frames of the web socket variant.  Whatever the reader, the
    server, the buffer and the token do, the body of [onopen] sends a prefix
    of these frames: the total, then for every entry in turn its header with
    the URI and the size, followed by the content of every slice of the
    file, none for an empty file.  It sends all of them if it comes to its
    end; if it throws, the error is the cancellation or an error of the
    reader, never the reader's refusal to read at the end of a file.  The
    handlers send nothing, so the frames of [doUpload] are a prefix of the
    same frames. *)
Theorem frames_follow_the_protocol (context : Indexer.Context)
  (schs : list (list ChunkStep)) :
  let total := Indexer.totalSize context in
  let entries := Indexer.entries context in
  let result := {| uploaded := [] |} in
  (∀ s, match sender total result entries schs s with
        | (s', o) =>
            ∃ sent, frames (log s') = frames (log s) ++ sent
              ∧ sent `prefix_of` sessionFrames total entries
              ∧ (o = Returned tt → sent = sessionFrames total entries)
              ∧ (∀ e, o = Thrown e →
                   e = Cancelled
                   ∨ ∃ steps step, steps ∈ schs ∧ step ∈ steps ∧ onerror step = Some e)
        end)
  ∧ (∀ cancelled before opens after actions,
       doUpload context cancelled before opens schs after = OverSocket actions →
       frames actions `prefix_of` sessionFrames total entries).
Proof.
  intros total entries result.
  assert (Hsender : ∀ s, match sender total result entries schs s with
        | (s', o) =>
            ∃ sent, frames (log s') = frames (log s) ++ sent
              ∧ sent `prefix_of` sessionFrames total entries
              ∧ (o = Returned tt → sent = sessionFrames total entries)
              ∧ (∀ e, o = Thrown e →
                   e = Cancelled
                   ∨ ∃ steps step, steps ∈ schs ∧ step ∈ steps ∧ onerror step = Some e)
        end).
  { intros s. unfold sender, bind, emit. simpl.
    set (s0 := withLog (λ l, l ++ [Send (TotalFrame total)]) s).
    pose proof (sendEntries_frames total result entries schs s0) as Hes.
    destruct (sendEntries total result entries schs s0) as [s' o].
    destruct Hes as (sent & Hpre & Hlog & Hret & _ & Herr).
    exists (TotalFrame total :: sent).
    split. { rewrite Hlog. simpl. rewrite frames_app. simpl. by rewrite <- app_assoc. }
    split; [by apply prefix_cons|]. split; [|done].
    intros Ho. unfold sessionFrames. by rewrite (Hret Ho). }
  split; [done|].
  intros cancelled before opens after actions. unfold doUpload. fold entries total result.
  destruct entries as [|entry entries'] eqn:Hes; [done|]. rewrite <- Hes in *.
  intros [= <-].
  destruct (await_frames total result after
              (if opens
               then onopen total result entries schs
                      {| cancellationRequested :=
                           cancellationRequested
                             (foldl (λ s ev, deliver total result ev s)
                                {| cancellationRequested := cancelled; readyState := 0;
                                   log := [] |} before);
                         readyState := 1;
                         log := log (foldl (λ s ev, deliver total result ev s)
                                       {| cancellationRequested := cancelled;
                                          readyState := 0; log := [] |} before) |}
               else foldl (λ s ev, deliver total result ev s)
                      {| cancellationRequested := cancelled; readyState := 0; log := [] |}
                      before)) as [-> _].
  destruct (await_frames total result before
              {| cancellationRequested := cancelled; readyState := 0; log := [] |})
    as [Hbefore _].
  simpl in Hbefore.
  destruct opens; [|rewrite Hbefore; apply prefix_nil].
  unfold onopen.
  match goal with |- context [sender total result entries schs ?s] =>
    specialize (Hsender s); destruct (sender total result entries schs s) as [s' o]
  end.
  destruct Hsender as (sent & Hlog & Hpre & _). simpl in Hlog. rewrite Hbefore in Hlog.
  simpl in Hlog.
  destruct o as [[]|e|]; [by rewrite Hlog| |by rewrite Hlog].
  unfold closeIfOpen, socketClose.
  destruct (readyState _ =? 1)%Z; simpl; rewrite !frames_app, Hlog; simpl;
    by rewrite ?app_nil_r.
Qed.

(** X15. A sender whose token is cancelled.  When the token is cancelled as the
    body of [onopen] starts, it sends no content: after the total it sends
    only headers.  It comes to its end exactly if every file is empty, for
    the loop checks the token only after a read. *)
Theorem cancelled_sender_sends_no_content (total : Z) (result : FileUploadResult)
  (entries : list UploadEntry) (schs : list (list ChunkStep)) (s : State) :
  cancellationRequested s = true →
  ∃ sent, frames (log (sender total result entries schs s).1) =
            frames (log s) ++ TotalFrame total :: sent
    ∧ Forall (λ frame, isContent frame = false) sent
    ∧ ((sender total result entries schs s).2 = Returned tt ↔
       Forall (λ entry, size (file entry) = 0%Z) entries).
Proof.
  intros Hcan. unfold sender, bind, emit. simpl.
  set (s0 := withLog (λ l, l ++ [Send (TotalFrame total)]) s).
  pose proof (sendEntries_frames total result entries schs s0) as Hes.
  destruct (sendEntries total result entries schs s0) as [s' o].
  destruct Hes as (sent & _ & Hlog & _ & Hc & _).
  destruct (Hc Hcan) as [Hno Hiff].
  exists sent. cbn [fst snd]. split; [|done].
  rewrite Hlog. simpl. rewrite frames_app. simpl. by rewrite <- app_assoc.
Qed.

End SocketSessionClaims.

Section SocketResolution.
Import Session (Outcome, Returned, Thrown, Unsettled).
Import SocketSession.
Variable total : Z.
Variable result : FileUploadResult.

Lemma resolvedBy_refl (evs : list Event) (s : State) : resolvedBy evs s s.
Proof. intros r Hr. by left. Qed.

Lemma resolvedBy_trans (evs1 evs2 evs : list Event) (s s1 s2 : State) :
  resolvedBy evs1 s s1 → resolvedBy evs2 s1 s2 → evs1 ⊆ evs → evs2 ⊆ evs →
  resolvedBy evs s s2.
Proof.
  intros H1 H2 Hs1 Hs2 r Hr.
  destruct (H2 r Hr) as [Hr1|(response & Hin & Hok)].
  - destruct (H1 r Hr1) as [?|(response & Hin & Hok)]; [by left|right].
    exists response. split; [by apply Hs1|done].
  - right. exists response. split; [by apply Hs2|done].
Qed.

Lemma resolvedBy_log (evs : list Event) (s s' : State) (new : list Action) :
  log s' = log s ++ new → (∀ r, Resolve r ∉ new) → resolvedBy evs s s'.
Proof.
  intros Hlog Hnew r Hr. rewrite Hlog in Hr. apply elem_of_app in Hr as [?|Hr]; [by left|].
  by destruct (Hnew r).
Qed.

(** A handler calls [resolve] only on a message that says ok. *)
Lemma deliver_resolvedBy (ev : Event) (s : State) :
  resolvedBy [ev] s (deliver total result ev s).
Proof.
  destruct ev as [|response|code reason|e]; simpl.
  - unfold closeIfOpen, socketClose. simpl. destruct (readyState s =? 1)%Z; simpl.
    + apply (resolvedBy_log _ _ _ [Reject Cancelled; Close]); [by rewrite <- app_assoc|].
      intros r Hr. repeat (apply elem_of_cons in Hr as [Hr|Hr]; [done|]).
      by apply elem_of_nil in Hr.
    + apply (resolvedBy_log _ _ _ [Reject Cancelled]); [done|].
      intros r Hr. repeat (apply elem_of_cons in Hr as [Hr|Hr]; [done|]).
      by apply elem_of_nil in Hr.
  - unfold onmessage, socketClose.
    destruct (truthyNumber (response_done response)) eqn:Edone; simpl.
    { apply (resolvedBy_log _ _ _ [Report (default 0%Z (response_done response)) total]);
        [done|].
      intros r Hr. repeat (apply elem_of_cons in Hr as [Hr|Hr]; [done|]).
      by apply elem_of_nil in Hr. }
    destruct (response_ok response) as [[]|] eqn:Eok; simpl.
    + intros r Hr. right. exists response. split; [by left|done].
    + destruct (truthyString (response_error response)); simpl;
        (eapply (resolvedBy_log _ _ _ [_; Close]); [by rewrite <- app_assoc|]);
        intros r Hr; repeat (apply elem_of_cons in Hr as [Hr|Hr]; [done|]);
        by apply elem_of_nil in Hr.
    + destruct (truthyString (response_error response)); simpl;
        (eapply (resolvedBy_log _ _ _ [_; Close]); [by rewrite <- app_assoc|]);
        intros r Hr; repeat (apply elem_of_cons in Hr as [Hr|Hr]; [done|]);
        by apply elem_of_nil in Hr.
  - apply (resolvedBy_log _ _ _ [Reject (Failure (if String.eqb reason "" then pretty code
                                                   else reason))]); [done|].
    intros r Hr. repeat (apply elem_of_cons in Hr as [Hr|Hr]; [done|]).
    by apply elem_of_nil in Hr.
  - apply (resolvedBy_log _ _ _ [Reject e]); [done|].
    intros r Hr. repeat (apply elem_of_cons in Hr as [Hr|Hr]; [done|]).
    by apply elem_of_nil in Hr.
Qed.

Lemma await_resolvedBy (evs : list Event) (s : State) :
  resolvedBy evs s (foldl (λ s ev, deliver total result ev s) s evs).
Proof.
  revert s. induction evs as [|ev evs IH]; intros s; simpl; [apply resolvedBy_refl|].
  eapply resolvedBy_trans; [apply deliver_resolvedBy|apply IH| |].
  - intros x Hx. apply list_elem_of_singleton in Hx as ->. by left.
  - intros x Hx. by right.
Qed.

Lemma emit_resolvedBy (evs : list Event) (a : Action) (s : State) :
  (∀ r, a ≠ Resolve r) → resolvedBy evs s (withLog (λ l, l ++ [a]) s).
Proof.
  intros Ha. apply (resolvedBy_log _ _ _ [a]); [done|].
  intros r Hr. apply list_elem_of_singleton in Hr. by destruct (Ha r).
Qed.

Lemma drain_resolvedBy (steps : list PollStep) (s : State) :
  resolvedBy (flat_map during_timeout steps) s (drain total result steps s).1.
Proof.
  revert s. induction steps as [|step steps IH]; intros s; simpl; [apply resolvedBy_refl|].
  destruct (maxChunkSize * 2 <? bufferedAmount step)%Z; [|apply resolvedBy_refl].
  unfold bind, emit, await, checkCancelled. simpl.
  set (s0 := withLog (λ l, l ++ [Timeout]) s).
  set (s1 := foldl (λ s ev, deliver total result ev s) s0 (during_timeout step)).
  assert (H1 : resolvedBy (during_timeout step) s s1).
  { eapply resolvedBy_trans; [by apply (emit_resolvedBy [] Timeout)|apply await_resolvedBy| |];
      [by intros x Hx; apply elem_of_nil in Hx|done]. }
  destruct (cancellationRequested s1).
  { simpl. eapply resolvedBy_trans; [exact H1|apply resolvedBy_refl| |];
      [intros x Hx; apply elem_of_app; by left|done]. }
  specialize (IH s1). destruct (drain total result steps s1) as [s' o]. simpl in *.
  eapply resolvedBy_trans; [exact H1|exact IH| |]; intros x Hx; apply elem_of_app;
    [by left|by right].
Qed.

Lemma transfer_resolvedBy (file : File) (steps : list ChunkStep) (r : Z) (s : State) :
  resolvedBy (flat_map stepEvents steps) s (transfer total result file steps r s).1.
Proof.
  revert r s. induction steps as [|step steps IH]; intros r s; [apply resolvedBy_refl|].
  cbn [transfer flat_map]. unfold bind, emit, await, settled, checkCancelled. simpl.
  set (s0 := withLog (λ l, l ++ [ReadCall file r]) s).
  set (sA := foldl (λ s ev, deliver total result ev s) s0 (during_read step)).
  assert (HA : resolvedBy (during_read step) s sA).
  { eapply resolvedBy_trans;
      [by apply (emit_resolvedBy [] (ReadCall file r))|apply await_resolvedBy| |];
      [by intros x Hx; apply elem_of_nil in Hx|done]. }
  assert (Hstop : resolvedBy (stepEvents step ++ flat_map stepEvents steps) s sA).
  { eapply resolvedBy_trans; [exact HA|apply resolvedBy_refl| |done].
    intros x Hx. apply elem_of_app. left. apply elem_of_app. by left. }
  destruct (SocketReader.readFileSlice file r (onerror step)) as [slice|e]; [|done].
  destruct (cancellationRequested sA); [done|].
  set (s1 := withLog (λ l, l ++ [Send (ContentFrame (SocketReader.content slice))]) sA).
  pose proof (drain_resolvedBy (polls step) s1) as Hdrain.
  destruct (drain total result (polls step) s1) as [s2 o2]. simpl in Hdrain.
  assert (H2 : resolvedBy (stepEvents step) s s2).
  { eapply resolvedBy_trans; [exact HA| |intros x Hx; apply elem_of_app; by left|done].
    eapply resolvedBy_trans;
      [by apply (emit_resolvedBy [] (Send (ContentFrame (SocketReader.content slice))))
      |exact Hdrain| |];
      [by intros x Hx; apply elem_of_nil in Hx|].
    intros x Hx. apply elem_of_app. by right. }
  assert (Hstop2 : resolvedBy (stepEvents step ++ flat_map stepEvents steps) s s2).
  { eapply resolvedBy_trans; [exact H2|apply resolvedBy_refl| |done].
    intros x Hx. apply elem_of_app. by left. }
  destruct o2 as [[]|e|]; [|done|done].
  destruct (SocketReader.read slice <? size file)%Z; [|done].
  specialize (IH (SocketReader.read slice) s2).
  destruct (transfer total result file steps (SocketReader.read slice) s2) as [s' o].
  simpl in *. eapply resolvedBy_trans; [exact H2|exact IH| |];
    intros x Hx; apply elem_of_app; [by left|by right].
Qed.

Lemma sendEntries_resolvedBy (entries : list UploadEntry) (schs : list (list ChunkStep))
  (s : State) :
  resolvedBy (scheduled schs) s (sendEntries total result entries schs s).1.
Proof.
  revert schs s. induction entries as [|entry entries IH]; intros schs s;
    [apply resolvedBy_refl|].
  cbn [sendEntries]. unfold bind at 1.
  assert (Hentry : resolvedBy (flat_map stepEvents (default [] (head schs))) s
            (sendEntry total result entry (default [] (head schs)) s).1).
  { unfold sendEntry, bind, emit. simpl.
    set (s0 := withLog _ s).
    assert (H0 : resolvedBy [] s s0) by (by apply emit_resolvedBy).
    destruct (size (file entry) =? 0)%Z; simpl.
    - eapply resolvedBy_trans; [exact H0|apply resolvedBy_refl| |done].
      by intros x Hx; apply elem_of_nil in Hx.
    - eapply resolvedBy_trans; [exact H0|apply transfer_resolvedBy| |done].
      by intros x Hx; apply elem_of_nil in Hx. }
  destruct (sendEntry total result entry (default [] (head schs)) s) as [s1 o1].
  simpl in Hentry.
  assert (Hhead : flat_map stepEvents (default [] (head schs)) ⊆ scheduled schs).
  { destruct schs as [|steps schs]; simpl; [done|].
    intros x Hx. apply elem_of_app. by left. }
  assert (Htail : scheduled (tail schs) ⊆ scheduled schs).
  { destruct schs as [|steps schs]; simpl; [done|].
    intros x Hx. apply elem_of_app. by right. }
  assert (Hstop : resolvedBy (scheduled schs) s s1).
  { eapply resolvedBy_trans; [exact Hentry|apply resolvedBy_refl|done|done]. }
  destruct o1 as [[]|e|]; [|done|done].
  specialize (IH (tail schs) s1).
  destruct (sendEntries total result entries (tail schs) s1) as [s' o]. simpl in *.
  eapply resolvedBy_trans; [exact Hentry|exact IH|done|done].
Qed.

Lemma onopen_resolvedBy (entries : list UploadEntry) (schs : list (list ChunkStep))
  (s : State) :
  resolvedBy (scheduled schs) s (onopen total result entries schs s).
Proof.
  unfold onopen, sender, bind, emit. simpl.
  set (s0 := withLog _ s).
  assert (H0 : resolvedBy [] s s0) by (by apply emit_resolvedBy).
  pose proof (sendEntries_resolvedBy entries schs s0) as Hes.
  destruct (sendEntries total result entries schs s0) as [s' o]. simpl in Hes.
  assert (Hs' : resolvedBy (scheduled schs) s s').
  { eapply resolvedBy_trans; [exact H0|exact Hes| |done].
    by intros x Hx; apply elem_of_nil in Hx. }
  destruct o as [[]|e|]; [done| |done].
  eapply resolvedBy_trans; [exact Hs'| |done|done].
  unfold closeIfOpen, socketClose. simpl. destruct (readyState s' =? 1)%Z; simpl.
  - apply (resolvedBy_log _ _ _ [Reject e; Close]); [by rewrite <- app_assoc|].
    intros r Hr. repeat (apply elem_of_cons in Hr as [Hr|Hr]; [done|]).
    by apply elem_of_nil in Hr.
  - apply (resolvedBy_log _ _ _ [Reject e]); [done|].
    intros r Hr. repeat (apply elem_of_cons in Hr as [Hr|Hr]; [done|]).
    by apply elem_of_nil in Hr.
Qed.

End SocketResolution.

Section SocketResolutionClaims.
Import SocketSession.

(** X16. Success is the word of the server.  In the web socket variant,
    [deferredUpload.resolve] is called only by [onmessage], on a message
    whose [ok] is true and whose [done] is absent or 0: whatever else
    happens, the body of [onopen], the other handlers and the messages of
    progress never resolve the upload. *)
Theorem resolved_only_by_an_ok_message (context : Indexer.Context) (cancelled : bool)
  (before : list Event) (opens : bool) (schs : list (list ChunkStep))
  (after : list Event) (actions : list Action) (result : FileUploadResult) :
  doUpload context cancelled before opens schs after = OverSocket actions →
  Resolve result ∈ actions →
  ∃ response, Message response ∈ before ++ scheduled schs ++ after
    ∧ okMessage response.
Proof.
  unfold doUpload. destruct (Indexer.entries context) as [|entry entries] eqn:Hes; [done|].
  rewrite <- Hes. clear Hes entry entries.
  set (total := Indexer.totalSize context). set (r0 := {| uploaded := [] |}).
  set (s0 := {| cancellationRequested := cancelled; readyState := 0; log := [] |}).
  set (s1 := foldl (λ s ev, deliver total r0 ev s) s0 before).
  set (s1' := {| cancellationRequested := cancellationRequested s1; readyState := 1;
                 log := log s1 |}).
  set (s2 := if opens then onopen total r0 (Indexer.entries context) schs s1' else s1).
  intros [= <-] Hr.
  assert (H1 : resolvedBy before s0 s1) by apply await_resolvedBy.
  assert (H2 : resolvedBy (scheduled schs) s1 s2).
  { subst s2. destruct opens; [|apply resolvedBy_refl].
    intros r Hin.
    by destruct (onopen_resolvedBy total r0 (Indexer.entries context) schs s1' r Hin)
      as [?|?]; [left|right]. }
  assert (H3 : resolvedBy after s2 (foldl (λ s ev, deliver total r0 ev s) s2 after))
    by apply await_resolvedBy.
  assert (Hall : resolvedBy (before ++ scheduled schs ++ after) s0
            (foldl (λ s ev, deliver total r0 ev s) s2 after)).
  { eapply resolvedBy_trans; [|exact H3| |].
    - eapply resolvedBy_trans; [exact H1|exact H2| |]; intros x Hx.
      + apply elem_of_app. left. exact Hx.
      + apply elem_of_app. right. exact Hx.
    - intros x Hx. apply elem_of_app in Hx as [Hx|Hx]; apply elem_of_app;
        [by left|right; apply elem_of_app; by left].
    - intros x Hx. apply elem_of_app. right. apply elem_of_app. by right. }
  destruct (Hall result Hr) as [Hnil|Hmsg]; [|done].
  by apply elem_of_nil in Hnil.
Qed.

End SocketResolutionClaims.

(** ** Indexing to the end *)

Section IndexerMore.
Context `{BrowserHost}.
Import Indexer.

Lemma pushed_nil (st : IndexState) : pushed [] st st.
Proof. unfold pushed. simpl. rewrite app_nil_r. split; [done|]. split; [done|]. lia. Qed.

Lemma pushed_app (new1 new2 : list UploadEntry) (st st1 st2 : IndexState) :
  pushed new1 st st1 → pushed new2 st1 st2 → pushed (new1 ++ new2) st st2.
Proof.
  intros (Hp1 & He1 & Ht1) (Hp2 & He2 & Ht2). unfold pushed.
  rewrite Hp2, Hp1, He2, He1, Ht2, Ht1, sumSizes_app, app_assoc.
  split; [done|]. split; [done|]. lia.
Qed.

Lemma checkCancelled_never (st : IndexState) :
  polls st = None → checkCancelled st = (st, Ok tt).
Proof. intros Hp. unfold checkCancelled, poll. by rewrite Hp. Qed.

Lemma indexFileList_pushed (t : string) (fs : list (option File)) (st : IndexState) :
  pushed ((λ file, {| file := file; uri := URI_resolve t (name file) |})
            <$> omap (λ file, file) fs)
    st (onContext (indexFileList t fs) st).
Proof.
  unfold indexFileList, onContext, pushed. cbn [context polls]. revert st.
  induction fs as [|f fs IH] using rev_ind; intros st.
  { simpl. rewrite app_nil_r. split; [done|]. split; [done|]. lia. }
  rewrite foldl_app, omap_app, fmap_app. cbn [foldl].
  specialize (IH st). destruct IH as (Hp & He & Ht).
  destruct f as [f|]; simpl.
  - rewrite He, Ht, sumSizes_app, app_assoc. simpl.
    split; [done|]. split; [done|]. lia.
  - rewrite app_nil_r. done.
Qed.

Lemma promiseAll_pushed {A : Type} (f : A → list UploadEntry)
  (start : A → IndexState → IndexState * Result unit) (items : list A) (st : IndexState) :
  polls st = None →
  (∀ item st, item ∈ items → polls st = None → pushed (f item) st (start item st).1) →
  pushed (flat_map f items) st (promiseAll start items st).1.
Proof.
  revert st. induction items as [|item items IH]; intros st Hp Hstart.
  { apply pushed_nil. }
  simpl. pose proof (Hstart item st ltac:(by left) Hp) as H1.
  destruct (start item st) as [st1 r1]. simpl in H1.
  assert (Hp1 : polls st1 = None) by (destruct H1 as [-> _]; done).
  specialize (IH st1 Hp1 ltac:(intros ? ? ?; apply Hstart; by right)).
  destruct (promiseAll start items st1) as [st2 r2]. simpl in *.
  by eapply pushed_app.
Qed.

Lemma readEntries_pushed (f : WebKitEntry → list UploadEntry)
  (cb : list WebKitEntry → IndexState → IndexState * Result unit)
  (failure : option Error) (batches : list (list WebKitEntry))
  (promises : Result unit) (st : IndexState) :
  polls st = None →
  (∀ items st, items ∈ batches → polls st = None →
     pushed (flat_map f items) st (cb items st).1) →
  pushed (flat_map f (listed batches)) st
    (readEntries cb failure batches promises st).1.
Proof.
  revert promises st. induction batches as [|items batches IH]; intros promises st Hp Hcb.
  { simpl. destruct failure; simpl; [apply pushed_nil|].
    unfold poll. rewrite Hp. apply pushed_nil. }
  simpl. unfold poll at 1. rewrite Hp. simpl.
  destruct (bool_decide (items = [])) eqn:Eempty; [apply pushed_nil|].
  pose proof (Hcb items st ltac:(by left) Hp) as H1.
  destruct (cb items st) as [st1 r1]. simpl in H1.
  assert (Hp1 : polls st1 = None) by (destruct H1 as [-> _]; done).
  rewrite flat_map_app. eapply pushed_app; [done|].
  apply IH; [done|]. intros ? ? ?; apply Hcb; by right.
Qed.

Lemma filesBelow_directory (t dirName : string) (batches : list (list WebKitEntry))
  (failure : option Error) :
  filesBelow t (WebKitDirectoryEntry dirName batches failure) =
    flat_map (filesBelow (URI_resolve t dirName)) (listed batches).
Proof.
  cbn [filesBelow]. induction batches as [|items batches IH]; [done|].
  cbn [listed]. destruct (bool_decide (items = [])); [done|].
  by rewrite flat_map_app, IH.
Qed.

(** With a token that is never cancelled, [indexEntry] pushes the entries
    of the files below the entry, whether or not it resolves. *)
Lemma indexEntry_pushed (entry : WebKitEntry) :
  ∀ (t : string) (st : IndexState), polls st = None →
    pushed (filesBelow t entry) st (indexEntry t entry st).1.
Proof.
  induction entry as [answer|dirName batches failure IH] using WebKitEntry_nested_ind;
    intros t st Hp.
  - cbn [indexEntry]. rewrite checkCancelled_never by done.
    destruct answer as [f|e]; simpl; [|apply pushed_nil].
    unfold pushed. simpl. split; [done|]. split; [done|]. lia.
  - rewrite filesBelow_directory. cbn [indexEntry].
    rewrite !checkCancelled_never by done.
    apply readEntries_pushed; [done|].
    intros items st' Hin Hp'. rewrite checkCancelled_never by done.
    apply promiseAll_pushed; [done|].
    intros item st'' Hitem Hp''.
    rewrite Forall_forall in IH. specialize (IH items Hin).
    rewrite Forall_forall in IH. by apply IH.
Qed.

Lemma indexDataTransfer_pushed (t : string) (dataTransfer : DataTransfer)
  (st : IndexState) :
  polls st = None →
  pushed (transferred t dataTransfer) st (indexDataTransfer t dataTransfer st).1.
Proof.
  intros Hp. unfold indexDataTransfer, transferred.
  rewrite checkCancelled_never by done.
  destruct (items dataTransfer) as [entries|].
  - unfold indexDataTransferItemList. rewrite checkCancelled_never by done.
    apply promiseAll_pushed; [done|].
    intros [entry|] st' _ Hp'; simpl.
    + by apply indexEntry_pushed.
    + rewrite checkCancelled_never by done. apply pushed_nil.
  - apply indexFileList_pushed.
Qed.

(** X17. Indexing to the end.  With a token that is never cancelled,
    [indexDataTransfer] pushes, up to the order in which the callbacks are
    delivered, exactly one entry for every file of the data transfer: for
    every file entry that answers with its file, below every item and every
    directory as far as its reader hands out entries, at the target resolved
    with the names of the directories and of the file; or one for every file
    of the file list when there are no items.  It does so whether or not a
    file entry or a reader fails; the total grows by the sizes of these
    files. *)
Theorem indexing_reaches_every_file (t : string) (dataTransfer : DataTransfer)
  (st : IndexState) :
  polls st = None →
  let st' := (indexDataTransfer t dataTransfer st).1 in
  entries (context st') ≡ₚ entries (context st) ++ transferred t dataTransfer
  ∧ totalSize (context st') =
      (totalSize (context st) + sumSizes (transferred t dataTransfer))%Z
  ∧ polls st' = None.
Proof.
  intros Hp st'. destruct (indexDataTransfer_pushed t dataTransfer st Hp) as (Hp' & He & Ht).
  subst st'. rewrite He, Ht, Hp'. done.
Qed.

(** X18. The batches of a directory reader.  What indexing finds below a
    directory depends on the batches of its reader only through the entries
    they hand out before the first empty batch: however the reader cuts the
    listing into batches, and whatever it would answer after an empty batch,
    with a token that is never cancelled [indexEntry] pushes the same
    entries, up to their order, and adds the same sizes. *)
Theorem batches_do_not_matter (t dirName : string)
  (batches1 batches2 : list (list WebKitEntry)) (failure1 failure2 : option Error)
  (st : IndexState) :
  polls st = None → listed batches1 = listed batches2 →
  let st1 := (indexEntry t (WebKitDirectoryEntry dirName batches1 failure1) st).1 in
  let st2 := (indexEntry t (WebKitDirectoryEntry dirName batches2 failure2) st).1 in
  entries (context st1) ≡ₚ entries (context st2)
  ∧ totalSize (context st1) = totalSize (context st2)
  ∧ entries (context st1) ≡ₚ
      entries (context st)
      ++ flat_map (filesBelow (URI_resolve t dirName)) (listed batches1).
Proof.
  intros Hp Hlisted st1 st2.
  destruct (indexEntry_pushed (WebKitDirectoryEntry dirName batches1 failure1) t st Hp)
    as (_ & He1 & Ht1).
  destruct (indexEntry_pushed (WebKitDirectoryEntry dirName batches2 failure2) t st Hp)
    as (_ & He2 & Ht2).
  subst st1 st2. rewrite He1, He2, Ht1, Ht2, !filesBelow_directory, Hlisted. done.
Qed.

Lemma indexEntry_cancelled (t : string) (entry : WebKitEntry) (st : IndexState) :
  polls st = Some O → indexEntry t entry st = (st, Err Cancelled).
Proof.
  intros Hp. destruct entry; cbn [indexEntry]; unfold checkCancelled, poll; by rewrite Hp.
Qed.

(** X19. Indexing under a cancelled token.  Once the token is found cancelled,
    every indexing function that checks it rejects with the cancellation and
    leaves the context as it is, whatever it is given; and [upload] rejects
    with the cancellation without a read or a request. *)
Theorem cancelled_indexing_pushes_nothing (t : string) (st : IndexState) :
  polls st = Some O →
  (∀ entry, indexEntryOrNull t entry st = (st, Err Cancelled))
  ∧ (∀ items, indexDataTransferItemList t items st = (st, Err Cancelled))
  ∧ (∀ dataTransfer, indexDataTransfer t dataTransfer st = (st, Err Cancelled))
  ∧ (∀ source schs, Session.upload t source (Some O) schs = ([], Session.Thrown Cancelled)).
Proof.
  intros Hp.
  assert (Hcheck : checkCancelled st = (st, Err Cancelled)).
  { unfold checkCancelled, poll. by rewrite Hp. }
  split. { intros [entry|]; simpl; [by apply indexEntry_cancelled|done]. }
  split. { intros items. unfold indexDataTransferItemList. by rewrite Hcheck. }
  split. { intros d. unfold indexDataTransfer. by rewrite Hcheck. }
  intros source schs. unfold Session.upload, indexDataTransfer. done.
Qed.

End IndexerMore.

(** ** The reader at any offset *)

Section ReaderMore.
Context `{BrowserHost}.

(** X20. The offsets of the reader.  At any offset but the size of the file, a
    read that the [FileReader] does not fail resolves, in both variants: the
    returned offset is the offset advanced by 65536, or the size of the file
    if that is smaller, and the content is what the file holds between the
    two offsets.  Inside the file the offset thus grows, by at most 65536
    and never beyond the size; beyond the end of the file the read is not
    rejected, it resolves with no content and with the size as offset. *)
Theorem readFileSlice_offsets (file : File) (r : Z) :
  (0 ≤ r)%Z → r ≠ size file →
  let read := Z.min (r + maxChunkSize) (size file) in
  let piece := take (Z.to_nat (read - r)) (drop (Z.to_nat r) (bytes file)) in
  Reader.readFileSlice file r None =
    Ok {| Reader.content := base64_fromByteArray piece; Reader.read := read |}
  ∧ SocketReader.readFileSlice file r None =
      Ok {| SocketReader.content := piece; SocketReader.read := read |}
  ∧ ((r < size file)%Z → (r < read)%Z ∧ Z.of_nat (length piece) = (read - r)%Z)
  ∧ ((size file < r)%Z → piece = [] ∧ read = size file).
Proof.
  intros Hr Hne read piece.
  assert (Hsize : (0 ≤ size file)%Z) by (unfold size; lia).
  destruct (Z.lt_ge_cases r (size file)) as [Hlt|Hge].
  - assert (Hread : (r + Z.min maxChunkSize (size file - r))%Z = read)
      by (unfold read; lia).
    assert (Hn : Z.min maxChunkSize (size file - r) = (read - r)%Z) by lia.
    rewrite readFileSlice_inside, socket_readFileSlice_inside by done.
    rewrite Hread, Hn. fold piece.
    split; [done|]. split; [done|].
    split; [|lia]. intros _. split; [unfold read, maxChunkSize; lia|].
    unfold piece. rewrite length_take, length_drop.
    unfold read, size, maxChunkSize in *. lia.
  - assert (Hgt : (size file < r)%Z) by lia.
    assert (Hread : read = size file) by (unfold read, maxChunkSize; lia).
    assert (Hpiece : piece = []).
    { unfold piece. replace (Z.to_nat (read - r)) with 0%nat by lia. done. }
    assert (Hslice : Blob_slice (bytes file) r (r + Z.min maxChunkSize (size file - r)) = []).
    { unfold Blob_slice, Blob_relative. fold (size file).
      destruct (Z.ltb_spec r 0); [lia|].
      replace (Z.min maxChunkSize (size file - r)) with (size file - r)%Z
        by (unfold maxChunkSize; lia).
      replace (r + (size file - r))%Z with (size file) by lia.
      destruct (Z.ltb_spec (size file) 0); [lia|].
      replace (Z.to_nat (Z.max (Z.min (size file) (size file) - Z.min r (size file)) 0))
        with 0%nat by lia.
      done. }
    unfold Reader.readFileSlice, SocketReader.readFileSlice.
    destruct (Z.eqb_spec r 0) as [->|Hr0].
    + assert (size file = 0)%Z by lia. lia.
    + rewrite andb_false_r.
      destruct (Z.eqb_spec (size file - r) 0); [lia|].
      rewrite Hslice, Hpiece.
      replace (r + Z.min maxChunkSize (size file - r))%Z with read
        by (unfold read, maxChunkSize; lia).
      split; [done|]. split; [done|]. split; [lia|done].
Qed.

End ReaderMore.

(** ** The ffmpeg library of Electron *)

Section ElectronFfmpegLibFacts.
Context `{NodeHost} `{NodeProcess}.
Import ElectronFfmpegLib.

(** X21. A platform that is not supported.  For a platform other than darwin,
    win32 and linux, [libffmpeg], [libffmpegRelativePath] and
    [libffmpegAbsolutePath] throw, and the message names the platform of the
    process, not the platform that was asked for.  When the distribution of
    Electron has to be resolved and is not found, [libffmpegAbsolutePath]
    throws the error of the resolution instead. *)
Theorem unsupported_platform_names_the_process (platform : string) :
  platform ≠ "" → platform ∉ ["darwin"; "win32"; "linux"] →
  let e := Failure (process_platform +:+ " is not supported") in
  libffmpeg (Some platform) = Err e
  ∧ libffmpegRelativePath (Some platform) = Err e
  ∧ (∀ electronDist,
       libffmpegAbsolutePath (Some platform) electronDist =
         match orResolvedDist electronDist with
         | Ok _ => Err e
         | Err e' => Err e'
         end).
Proof.
  intros Hne Hnot e.
  assert (Hlib : libffmpeg (Some platform) = Err e).
  { unfold libffmpeg, orProcessPlatform.
    destruct (String.eqb_spec platform "") as [|_]; [done|].
    destruct (String.eqb_spec platform "darwin") as [->|_].
    { destruct Hnot. by left. }
    destruct (String.eqb_spec platform "win32") as [->|_].
    { destruct Hnot. right. by left. }
    destruct (String.eqb_spec platform "linux") as [->|_]; [|done].
    destruct Hnot. right. right. by left. }
  assert (Hrel : libffmpegRelativePath (Some platform) = Err e).
  { unfold libffmpegRelativePath. by rewrite Hlib. }
  split; [done|]. split; [done|].
  intros electronDist. unfold libffmpegAbsolutePath. rewrite Hrel.
  by destruct (orResolvedDist electronDist).
Qed.

End ElectronFfmpegLibFacts.

(** ** Instances on the concrete host *)

Section MoreExamples.
Import Session Examples.

Lemma answered_upload_resolves_witness :
  (doUpload twoFiles false twoAnswered).2 = Returned {| uploaded := [] |}
  ∧ serverCalls (doUpload twoFiles false twoAnswered).1 =
      concat (zip_with entryRequests (Indexer.entries twoFiles) twoIds).
Proof. apply (answered_upload_resolves twoFiles twoIds). reflexivity. Defined.

Lemma cancelled_sender_sends_no_content_witness :
  ∃ sent,
    SocketSession.frames
      (SocketSession.log
         (SocketSession.sender 8 {| uploaded := [] |} emptyThenA oneRead cancelledSocket).1)
    = SocketSession.frames (SocketSession.log cancelledSocket)
      ++ SocketSession.TotalFrame 8 :: sent
    ∧ Forall (λ frame, SocketSession.isContent frame = false) sent
    ∧ ((SocketSession.sender 8 {| uploaded := [] |} emptyThenA oneRead cancelledSocket).2
         = Returned tt ↔
       Forall (λ entry, size (file entry) = 0%Z) emptyThenA).
Proof.
  apply (cancelled_sender_sends_no_content 8 {| uploaded := [] |} emptyThenA oneRead
           cancelledSocket).
  reflexivity.
Defined.

Lemma indexing_reaches_every_file_witness :
  let st := {| Indexer.context := Indexer.emptyContext; Indexer.polls := None |} in
  let st' := (Indexer.indexDataTransfer "file:///w" directoryDrop st).1 in
  Indexer.entries (Indexer.context st') ≡ₚ
    Indexer.entries (Indexer.context st) ++ Indexer.transferred "file:///w" directoryDrop
  ∧ Indexer.totalSize (Indexer.context st') =
      (Indexer.totalSize (Indexer.context st)
       + Indexer.sumSizes (Indexer.transferred "file:///w" directoryDrop))%Z
  ∧ Indexer.polls st' = None.
Proof.
  apply (indexing_reaches_every_file "file:///w" directoryDrop
           {| Indexer.context := Indexer.emptyContext; Indexer.polls := None |}).
  reflexivity.
Defined.

Lemma cancelled_indexing_pushes_nothing_witness :
  let st := {| Indexer.context := Indexer.emptyContext; Indexer.polls := Some O |} in
  (∀ entry, Indexer.indexEntryOrNull "file:///w" entry st = (st, Err Cancelled))
  ∧ (∀ items, Indexer.indexDataTransferItemList "file:///w" items st = (st, Err Cancelled))
  ∧ (∀ dataTransfer, Indexer.indexDataTransfer "file:///w" dataTransfer st
                     = (st, Err Cancelled))
  ∧ (∀ source schs, upload "file:///w" source (Some O) schs = ([], Thrown Cancelled)).
Proof.
  apply (cancelled_indexing_pushes_nothing "file:///w"
           {| Indexer.context := Indexer.emptyContext; Indexer.polls := Some O |}).
  reflexivity.
Defined.

Lemma readFileSlice_offsets_witness :
  let read := Z.min (5 + maxChunkSize) (size fileA) in
  let piece := take (Z.to_nat (read - 5)) (drop (Z.to_nat 5) (bytes fileA)) in
  Reader.readFileSlice fileA 5 None =
    Ok {| Reader.content := base64_fromByteArray piece; Reader.read := read |}
  ∧ SocketReader.readFileSlice fileA 5 None =
      Ok {| SocketReader.content := piece; SocketReader.read := read |}
  ∧ ((5 < size fileA)%Z → (5 < read)%Z ∧ Z.of_nat (length piece) = (read - 5)%Z)
  ∧ ((size fileA < 5)%Z → piece = [] ∧ read = size fileA).
Proof.
  apply (readFileSlice_offsets fileA 5).
  - lia.
  - vm_compute. discriminate.
Defined.

Lemma unsupported_platform_names_the_process_witness :
  let e := Failure "linux is not supported" in
  ElectronFfmpegLib.libffmpeg (Some "freebsd") = Err e
  ∧ ElectronFfmpegLib.libffmpegRelativePath (Some "freebsd") = Err e
  ∧ (∀ electronDist,
       ElectronFfmpegLib.libffmpegAbsolutePath (Some "freebsd") electronDist =
         match ElectronFfmpegLib.orResolvedDist electronDist with
         | Ok _ => Err e
         | Err e' => Err e'
         end).
Proof.
  assert (Hne : "freebsd" ≠ "") by discriminate.
  assert (Hnot : "freebsd" ∉ ["darwin"; "win32"; "linux"]).
  { intros Hin. repeat (apply elem_of_cons in Hin as [Hin|Hin]; [discriminate|]).
    by apply elem_of_nil in Hin. }
  exact (unsupported_platform_names_the_process "freebsd" Hne Hnot).
Defined.

Lemma resolved_only_by_an_ok_message_witness :
  ∃ response,
    SocketSession.Message response ∈ [] ++ SocketSession.scheduled (tail oneRead) ++ okThenClosed
    ∧ SocketSession.okMessage response.
Proof.
  eapply (resolved_only_by_an_ok_message onlyA false [] true (tail oneRead) okThenClosed
            _ {| uploaded := [] |}).
  - reflexivity.
  - vm_compute. repeat constructor.
Defined.

Lemma progress_stays_within_the_total_witness :
  3%Z = Indexer.totalSize onlyA ∧ (0 ≤ 3 ≤ 3)%Z.
Proof.
  apply (proj1 (progress_stays_within_the_total 3 3) onlyA false
           [answeredAll "upload_000102030405060708090a0b0c0d0e0f" 1]).
  - reflexivity.
  - vm_compute. repeat constructor.
Defined.

Lemma batches_do_not_matter_witness :
  let st := {| Indexer.context := Indexer.emptyContext; Indexer.polls := None |} in
  let st1 := (Indexer.indexEntry "file:///w"
                (Indexer.WebKitDirectoryEntry "d" inOneBatch None) st).1 in
  let st2 := (Indexer.indexEntry "file:///w"
                (Indexer.WebKitDirectoryEntry "d" oneByOne (Some (Failure "gone"))) st).1 in
  Indexer.entries (Indexer.context st1) ≡ₚ Indexer.entries (Indexer.context st2)
  ∧ Indexer.totalSize (Indexer.context st1) = Indexer.totalSize (Indexer.context st2)
  ∧ Indexer.entries (Indexer.context st1) ≡ₚ
      Indexer.entries (Indexer.context st)
      ++ flat_map (Indexer.filesBelow (URI_resolve "file:///w" "d"))
           (Indexer.listed inOneBatch).
Proof.
  apply (batches_do_not_matter "file:///w" "d" inOneBatch oneByOne None
           (Some (Failure "gone"))
           {| Indexer.context := Indexer.emptyContext; Indexer.polls := None |}).
  - reflexivity.
  - reflexivity.
Defined.

End MoreExamples.

Section LoopExamples.
Import Server Interleaved Examples.

Lemma upload_assembles_the_chunks_witness :
  let u := newNodeFileUpload "/w/a.txt" "000102030405060708090a0b0c0d0e0f" in
  let cs := uploadCalls "file:///w/a.txt" "000102030405060708090a0b0c0d0e0f"
              ["YWJj"; "ZGVm"; "Zw=="] in
  let s' := run (oneAtATime cs) (init ∅) in
  (∃ al, answers s' = answers (init ∅) ++ al
     ∧ al.*1 = seq (length (requests (init ∅))) (length cs)
     ∧ Forall (λ a, failureOf a.2 = None) al)
  ∧ pending s' = []
  ∧ disk s' !! "/w/a.txt" = Some (concat (base64_bytes <$> ["YWJj"; "ZGVm"; "Zw=="]))
  ∧ (uploadPath u ≠ "/w/a.txt" → disk s' !! uploadPath u = None)
  ∧ ("/w/b.txt" ≠ "/w/a.txt" → "/w/b.txt" ≠ uploadPath u →
       disk s' !! "/w/b.txt" = disk (init ∅) !! "/w/b.txt")
  ∧ uploads s' !! "upload_000102030405060708090a0b0c0d0e0f" ≫= (objects s' !!.)
      = Some (finalized u).
Proof.
  assert (Hreach : reachable (init ∅)) by (exists ∅, []; reflexivity).
  exact (upload_assembles_the_chunks "file:///w/a.txt" "000102030405060708090a0b0c0d0e0f"
           "YWJj" ["ZGVm"; "Zw=="] (init ∅) "/w/b.txt" Hreach eq_refl).
Defined.

Lemma staged_chunks_accumulate_witness :
  let u := newNodeFileUpload "/w/a.txt" "000102030405060708090a0b0c0d0e0f" in
  let cs := stagingCalls "file:///w/a.txt" "000102030405060708090a0b0c0d0e0f"
              "YWJj" ["ZGVm"] in
  let s' := run (oneAtATime cs) (init ∅) in
  (∃ al, answers s' = answers (init ∅) ++ al
     ∧ al.*1 = seq (length (requests (init ∅))) (length cs)
     ∧ Forall (λ a, failureOf a.2 = None) al)
  ∧ pending s' = []
  ∧ disk s' !! uploadPath u = Some (concat (base64_bytes <$> ["YWJj"; "ZGVm"]))
  ∧ ("/w/a.txt" ≠ uploadPath u → disk s' !! "/w/a.txt" = disk (init ∅) !! "/w/a.txt")
  ∧ uploads s' !! "upload_000102030405060708090a0b0c0d0e0f" ≫= (objects s' !!.) = Some u.
Proof.
  assert (Hreach : reachable (init ∅)) by (exists ∅, []; reflexivity).
  exact (staged_chunks_accumulate "file:///w/a.txt" "000102030405060708090a0b0c0d0e0f"
           "YWJj" ["ZGVm"] (init ∅) "/w/a.txt" Hreach eq_refl).
Defined.

Lemma aborted_upload_leaves_the_disk_witness :
  let u := newNodeFileUpload "/w/a.txt" "000102030405060708090a0b0c0d0e0f" in
  let i := "upload_000102030405060708090a0b0c0d0e0f" in
  let s1 := run (oneAtATime (stagingCalls "file:///w/a.txt"
                               "000102030405060708090a0b0c0d0e0f" "YWJj" ["ZGVm"])
                 ++ [Request (Close i)]) (init ∅) in
  (∃ al, answers s1 = answers (init ∅) ++ al
     ∧ al.*1 = seq (length (requests (init ∅))) 3
     ∧ Forall (λ a, failureOf a.2 = None) al)
  ∧ (∃ r, pending s1 = [{| request := 2; call := Close i; upload := r;
                            point := Unawaited |}]
       ∧ uploads s1 !! i = Some r ∧ objects s1 !! r = Some u)
  ∧ disk s1 = <[uploadPath u := concat (base64_bytes <$> ["YWJj"; "ZGVm"])]> ∅
  ∧ (let s2 := step (Settle 0 None) s1 in
     disk s2 = delete (uploadPath u) ∅ ∧ answers s2 = answers s1 ∧ pending s2 = [])
  ∧ (let s2 := step (Settle 0 (Some (Failure "EBUSY"))) s1 in
     disk s2 = disk s1 ∧ answers s2 = answers s1 ∧ pending s2 = []).
Proof.
  assert (Hreach : reachable (init ∅)) by (exists ∅, []; reflexivity).
  exact (aborted_upload_leaves_the_disk "file:///w/a.txt" "000102030405060708090a0b0c0d0e0f"
           "YWJj" ["ZGVm"] (init ∅) (Failure "EBUSY") Hreach eq_refl).
Defined.

Lemma append_fails_only_on_unknown_id_witness :
  let s := run (opened ++ [Request (Append "upload_000102030405060708090a0b0c0d0e0f"
                                      "ZGVm" true);
                           Settle 0 (Some (Failure "ENOSPC"))]) (init ∅) in
  let i := "upload_000102030405060708090a0b0c0d0e0f" in
  (¬ created i (take 1 (requests s)) →
     (1, Err (Failure ("upload '" +:+ i +:+ "' does not exist"))) ∈ answers s
     ∧ ∀ t f, Settled t f ∈ log s → request t ≠ 1)
  ∧ (created i (take 1 (requests s)) →
     ∀ e, (1, Err e) ∈ answers s →
       ∃ t, request t = 1 ∧ point t ≠ Unawaited ∧ Settled t (Some e) ∈ log s).
Proof.
  apply (append_fails_only_on_unknown_id
           (opened ++ [Request (Append "upload_000102030405060708090a0b0c0d0e0f" "ZGVm" true);
                       Settle 0 (Some (Failure "ENOSPC"))]) ∅ 1
           "upload_000102030405060708090a0b0c0d0e0f" "ZGVm" true).
  reflexivity.
Defined.


End LoopExamples.
